(** * Theseus: problem-graph bookkeeping and Gaussian belief propagation

    A shallow embedding of
      - [theseus/core/objective.py]  (class [Objective]), and
      - [theseus/optimizer/gbp/gbp.py] (Gaussian belief propagation),
    together with the properties of the two modules that are checked
    against the natural-language specification.

    Conventions of the embedding.
      - Python objects (variables, cost functions, cost weights) carry an
        identity; [is] and the default [==]/[hash] of these classes compare
        that identity.
      - A method of [Objective] is a computation in a state-and-exception
        monad over the [World]: an exception leaves the mutations made
        before it in place, exactly as in Python.
      - Floating-point numbers are read as exact rationals ([Qc]). *)

From Stdlib Require Import QArith Qcanon Qround.
From stdpp Require Import base option list gmap strings numbers fin_maps functions.

Set Default Proof Using "Type".
Close Scope Qc_scope.
Close Scope Q_scope.
Open Scope nat_scope.

(** ** Exceptions, outcomes, and the state-and-exception monad *)

Inductive exn : Type :=
  | ValueError
  | RuntimeError
  | KeyError
  | IndexError
  | AssertionError
  | LinAlgError.

Inductive outcome (A : Type) : Type :=
  | Ok (a : A)
  | Raise (e : exn).
Arguments Ok {A} a.
Arguments Raise {A} e.

Definition is_ok {A} (r : outcome A) : bool :=
  match r with Ok _ => true | Raise _ => false end.

Global Instance exn_eq_dec : EqDecision exn.
Proof. solve_decision. Defined.
Global Instance outcome_eq_dec {A} `{EqDecision A} : EqDecision (outcome A).
Proof. solve_decision. Defined.

Global Instance outcome_fmap : FMap outcome := fun _ _ f r =>
  match r with Ok a => Ok (f a) | Raise e => Raise e end.
Global Instance outcome_ret : MRet outcome := fun _ a => Ok a.
Global Instance outcome_bind : MBind outcome := fun _ _ f r =>
  match r with Ok a => f a | Raise e => Raise e end.

(** [ST S A]: a computation that reads and writes a state [S] and either
    returns an [A] or raises. The final state is returned in both cases. *)
Definition ST (S A : Type) : Type := S -> outcome A * S.

Section st_monad.
Context {S : Type}.

Definition st_ret {A} (a : A) : ST S A := fun s => (Ok a, s).
Definition st_bind {A B} (f : A -> ST S B) (c : ST S A) : ST S B :=
  fun s => match c s with
           | (Ok a, s') => f a s'
           | (Raise e, s') => (Raise e, s')
           end.
Definition raise {A} (e : exn) : ST S A := fun s => (Raise e, s).
Definition get : ST S S := fun s => (Ok s, s).
Definition modify (f : S -> S) : ST S unit := fun s => (Ok tt, f s).
(** A computation that does not touch the state. *)
Definition lift {A} (r : outcome A) : ST S A := fun s => (r, s).

(** [for x in l: body x] *)
Fixpoint for_ {A} (l : list A) (body : A -> ST S unit) : ST S unit :=
  match l with
  | [] => st_ret tt
  | x :: r => st_bind (fun _ => for_ r body) (body x)
  end.
End st_monad.

Global Instance st_mret {S} : MRet (ST S) := fun _ a => st_ret a.
Global Instance st_mbind {S} : MBind (ST S) := fun _ _ f c => st_bind f c.

(** [[f x for x in l]] for an [f] that may raise *)
Fixpoint mapM {A B} (f : A -> outcome B) (l : list A) : outcome (list B) :=
  match l with
  | [] => Ok []
  | x :: r => y ← f x; ys ← mapM f r; mret (y :: ys)
  end.

(** ** Insertion-ordered dictionaries with string keys ([OrderedDict]) *)

Section odict.
Context {V : Type}.
Implicit Types (d : list (string * V)) (k : string).

Fixpoint od_get k d : option V :=
  match d with
  | [] => None
  | (k', v) :: r => if decide (k = k') then Some v else od_get k r
  end.

Definition od_mem k d : bool := bool_decide (is_Some (od_get k d)).

(** [d[k] = v]: a present key keeps its position, a new key goes last. *)
Fixpoint od_set k (v : V) d : list (string * V) :=
  match d with
  | [] => [(k, v)]
  | (k', v') :: r =>
      if decide (k = k') then (k', v) :: r else (k', v') :: od_set k v r
  end.

(** [del d[k]] *)
Fixpoint od_del k d : list (string * V) :=
  match d with
  | [] => []
  | (k', v') :: r => if decide (k = k') then r else (k', v') :: od_del k r
  end.

Definition od_values d : list V := d.*2.
Definition od_keys d : list string := d.*1.
End odict.

(** ** Variables, cost weights and cost functions *)

Inductive Dtype : Type := float32 | float64.
Global Instance Dtype_eq_dec : EqDecision Dtype.
Proof. solve_decision. Defined.

(** A tensor: its shape and its entries in row-major order. *)
Record Tensor : Type := mkTensor { shape : list nat; entries : list Qc }.

Definition ndim (t : Tensor) : nat := length (shape t).

Module Var.
(** A [Variable] object. Its tensor is mutable and lives in the world's
    store, addressed by the object's identity. *)
Record t : Type := mk { id : nat; name : option string; dtype : Dtype }.
(** Python's [a is b] *)
Definition same (a b : t) : bool := bool_decide (id a = id b).
End Var.

Module Fn.
(** A [TheseusFunction]: the common part of cost functions and cost
    weights. *)
Record t : Type :=
  mk { id : nat; name : string; optim_vars : list Var.t; aux_vars : list Var.t }.
Definition same (a b : t) : bool := bool_decide (id a = id b).
Definition num_optim_vars (f : t) : nat := length (optim_vars f).
End Fn.

Module CostFn.
(** A cost function is a [TheseusFunction] with a cost weight. *)
Record t : Type := mk { base : Fn.t; weight : Fn.t }.
Definition same (a b : t) : bool := Fn.same (base a) (base b).
End CostFn.
Coercion CostFn.base : CostFn.t >-> Fn.t.

(** [l.index(x)] with the default (identity) equality of the elements. *)
Fixpoint index_of {A} (same : A -> A -> bool) (x : A) (l : list A) : option nat :=
  match l with
  | [] => None
  | y :: r => if same y x then Some 0 else S <$> index_of same x r
  end.

(** ** The problem graph ([class Objective]) *)

Inductive warning : Type :=
  | AlreadyAdded            (* re-adding a cost function *)
  | NotInObjective          (* erasing an absent cost function *)
  | WeightOnlyOptimVar (name : string)
  | UnknownTensorName (name : string).

Module Objective.

Record t : Type := mkObjective {
  optim_vars : list (string * Var.t);
  cost_weight_optim_vars : list (string * Var.t);
  aux_vars : list (string * Var.t);
  _all_variables : list (string * Var.t);
  cost_functions : list (string * CostFn.t);
  (* keyed by the cost weight object *)
  cost_functions_for_weights : list (Fn.t * list CostFn.t);
  (* keyed by the identity of the variable object *)
  functions_for_optim_vars : gmap nat (list Fn.t);
  functions_for_aux_vars : gmap nat (list Fn.t);
  _batch_size : option nat;
  dtype : Dtype;
  current_version : nat;
  _allow_mixed_optim_aux_vars : bool;
}.

(** Field updates ([self.field = v]). *)
Definition set_optim_vars (v : list (string * Var.t)) (o : t) : t :=
  mkObjective v (cost_weight_optim_vars o) (aux_vars o) (_all_variables o)
    (cost_functions o) (cost_functions_for_weights o)
    (functions_for_optim_vars o) (functions_for_aux_vars o) (_batch_size o)
    (dtype o) (current_version o) (_allow_mixed_optim_aux_vars o).
Definition set_cost_weight_optim_vars (v : list (string * Var.t)) (o : t) : t :=
  mkObjective (optim_vars o) v (aux_vars o) (_all_variables o)
    (cost_functions o) (cost_functions_for_weights o)
    (functions_for_optim_vars o) (functions_for_aux_vars o) (_batch_size o)
    (dtype o) (current_version o) (_allow_mixed_optim_aux_vars o).
Definition set_aux_vars (v : list (string * Var.t)) (o : t) : t :=
  mkObjective (optim_vars o) (cost_weight_optim_vars o) v (_all_variables o)
    (cost_functions o) (cost_functions_for_weights o)
    (functions_for_optim_vars o) (functions_for_aux_vars o) (_batch_size o)
    (dtype o) (current_version o) (_allow_mixed_optim_aux_vars o).
Definition set_all_variables (v : list (string * Var.t)) (o : t) : t :=
  mkObjective (optim_vars o) (cost_weight_optim_vars o) (aux_vars o) v
    (cost_functions o) (cost_functions_for_weights o)
    (functions_for_optim_vars o) (functions_for_aux_vars o) (_batch_size o)
    (dtype o) (current_version o) (_allow_mixed_optim_aux_vars o).
Definition set_cost_functions (v : list (string * CostFn.t)) (o : t) : t :=
  mkObjective (optim_vars o) (cost_weight_optim_vars o) (aux_vars o)
    (_all_variables o) v (cost_functions_for_weights o)
    (functions_for_optim_vars o) (functions_for_aux_vars o) (_batch_size o)
    (dtype o) (current_version o) (_allow_mixed_optim_aux_vars o).
Definition set_cost_functions_for_weights (v : list (Fn.t * list CostFn.t)) (o : t) : t :=
  mkObjective (optim_vars o) (cost_weight_optim_vars o) (aux_vars o)
    (_all_variables o) (cost_functions o) v (functions_for_optim_vars o)
    (functions_for_aux_vars o) (_batch_size o) (dtype o) (current_version o)
    (_allow_mixed_optim_aux_vars o).
Definition set_functions_for_optim_vars (v : gmap nat (list Fn.t)) (o : t) : t :=
  mkObjective (optim_vars o) (cost_weight_optim_vars o) (aux_vars o)
    (_all_variables o) (cost_functions o) (cost_functions_for_weights o) v
    (functions_for_aux_vars o) (_batch_size o) (dtype o) (current_version o)
    (_allow_mixed_optim_aux_vars o).
Definition set_functions_for_aux_vars (v : gmap nat (list Fn.t)) (o : t) : t :=
  mkObjective (optim_vars o) (cost_weight_optim_vars o) (aux_vars o)
    (_all_variables o) (cost_functions o) (cost_functions_for_weights o)
    (functions_for_optim_vars o) v (_batch_size o) (dtype o)
    (current_version o) (_allow_mixed_optim_aux_vars o).
Definition set_batch_size (v : option nat) (o : t) : t :=
  mkObjective (optim_vars o) (cost_weight_optim_vars o) (aux_vars o)
    (_all_variables o) (cost_functions o) (cost_functions_for_weights o)
    (functions_for_optim_vars o) (functions_for_aux_vars o) v (dtype o)
    (current_version o) (_allow_mixed_optim_aux_vars o).
Definition set_current_version (v : nat) (o : t) : t :=
  mkObjective (optim_vars o) (cost_weight_optim_vars o) (aux_vars o)
    (_all_variables o) (cost_functions o) (cost_functions_for_weights o)
    (functions_for_optim_vars o) (functions_for_aux_vars o) (_batch_size o)
    (dtype o) v (_allow_mixed_optim_aux_vars o).

(** The three name-indexed variable containers, and the two adjacency maps,
    which [_add_function_variables] and [_erase_function_variables] select
    from their flags. *)
Inductive container : Type := OptimVars | CostWeightOptimVars | AuxVars.

Definition self_vars_of_this_type (optim_vars_flag is_cost_weight : bool) : container :=
  if optim_vars_flag
  then (if is_cost_weight then CostWeightOptimVars else OptimVars)
  else AuxVars.

Definition vars_in (c : container) (o : t) : list (string * Var.t) :=
  match c with
  | OptimVars => optim_vars o
  | CostWeightOptimVars => cost_weight_optim_vars o
  | AuxVars => aux_vars o
  end.

Definition set_vars_in (c : container) (v : list (string * Var.t)) (o : t) : t :=
  match c with
  | OptimVars => set_optim_vars v o
  | CostWeightOptimVars => set_cost_weight_optim_vars v o
  | AuxVars => set_aux_vars v o
  end.

Definition self_var_to_fn_map (optim_vars_flag : bool) (o : t) : gmap nat (list Fn.t) :=
  if optim_vars_flag then functions_for_optim_vars o else functions_for_aux_vars o.

Definition set_var_to_fn_map (optim_vars_flag : bool) (m : gmap nat (list Fn.t)) (o : t) : t :=
  if optim_vars_flag then set_functions_for_optim_vars m o
  else set_functions_for_aux_vars m o.

(** [cost_functions_for_weights]: a dictionary keyed by cost weight objects. *)
Fixpoint weights_get (w : Fn.t) (d : list (Fn.t * list CostFn.t)) : option (list CostFn.t) :=
  match d with
  | [] => None
  | (w', l) :: r => if Fn.same w w' then Some l else weights_get w r
  end.

Fixpoint weights_set (w : Fn.t) (l : list CostFn.t) (d : list (Fn.t * list CostFn.t))
  : list (Fn.t * list CostFn.t) :=
  match d with
  | [] => [(w, l)]
  | (w', l') :: r =>
      if Fn.same w w' then (w', l) :: r else (w', l') :: weights_set w l r
  end.

Fixpoint weights_del (w : Fn.t) (d : list (Fn.t * list CostFn.t))
  : list (Fn.t * list CostFn.t) :=
  match d with
  | [] => []
  | (w', l') :: r => if Fn.same w w' then r else (w', l') :: weights_del w r
  end.

(** The world: the problem graph [self], the tensor currently held by every
    variable object, and the warnings emitted so far. *)
Record World : Type := mkWorld {
  self : t;
  tensor : nat -> Tensor;
  warned : list warning;
}.

Abbreviation M := (ST World) (only parsing).

Definition get_self : M t := fun w => (Ok (self w), w).
Definition modify_self (f : t -> t) : M unit :=
  fun w => (Ok tt, mkWorld (f (self w)) (tensor w) (warned w)).
Definition warn (x : warning) : M unit :=
  fun w => (Ok tt, mkWorld (self w) (tensor w) (warned w ++ [x])).
Definition get_tensor (v : Var.t) : M Tensor :=
  fun w => (Ok (tensor w (Var.id v)), w).
Definition set_tensor (v : Var.t) (x : Tensor) : M unit :=
  fun w => (Ok tt, mkWorld (self w) (<[Var.id v := x]> (tensor w)) (warned w)).

(** *** Queries *)

Definition get_cost_function (name : string) : M (option CostFn.t) :=
  o ← get_self; mret (od_get name (cost_functions o)).
Definition has_cost_function (name : string) : M bool :=
  o ← get_self; mret (od_mem name (cost_functions o)).
Definition has_optim_var (name : string) : M bool :=
  o ← get_self; mret (od_mem name (optim_vars o)).
Definition get_optim_var (name : string) : M (option Var.t) :=
  o ← get_self; mret (od_get name (optim_vars o)).
Definition has_aux_var (name : string) : M bool :=
  o ← get_self; mret (od_mem name (aux_vars o)).
Definition get_aux_var (name : string) : M (option Var.t) :=
  o ← get_self; mret (od_get name (aux_vars o)).
Definition batch_size : M (option nat) :=
  o ← get_self; mret (_batch_size o).
Definition size_cost_functions : M nat :=
  o ← get_self; mret (length (cost_functions o)).
Definition size_variables : M nat :=
  o ← get_self; mret (length (optim_vars o)).
Definition size_aux_vars : M nat :=
  o ← get_self; mret (length (aux_vars o)).
Definition size : M (nat * nat) :=
  o ← get_self; mret (length (cost_functions o), length (optim_vars o)).

(** [_get_functions_connected_to_var], called with a variable name. *)
Definition _get_functions_connected_to_var (variable : string)
    (objectives_var_container_dict : list (string * Var.t))
    (var_to_cost_fn_map : gmap nat (list Fn.t)) : M (list Fn.t) :=
  match od_get variable objectives_var_container_dict with
  | None => raise ValueError
  | Some v =>
      match var_to_cost_fn_map !! Var.id v with
      | None => raise ValueError
      | Some l => mret l
      end
  end.

Definition get_functions_connected_to_optim_var (variable : string) : M (list Fn.t) :=
  o ← get_self;
  _get_functions_connected_to_var variable (optim_vars o) (functions_for_optim_vars o).

Definition get_functions_connected_to_aux_var (aux_var : string) : M (list Fn.t) :=
  o ← get_self;
  _get_functions_connected_to_var aux_var (aux_vars o) (functions_for_aux_vars o).

(** *** [add] *)

(** The body of the loop of [_add_function_variables], for one variable. *)
Definition _add_function_variable (function : Fn.t)
    (optim_vars_flag is_cost_weight : bool) (variable : Var.t) : M unit :=
  let c := self_vars_of_this_type optim_vars_flag is_cost_weight in
  let i := Var.id variable in
  match Var.name variable with
  | None => raise ValueError
  | Some vname =>
      o ← get_self;
      (if bool_decide (Var.dtype variable = dtype o) then mret tt
       else raise ValueError);;
      match od_get vname (_all_variables o) with
      | Some registered =>
          if Var.same variable registered then mret tt else raise ValueError
      | None =>
          modify_self (fun o => set_all_variables (od_set vname variable (_all_variables o)) o);;
          (if bool_decide (is_Some (self_var_to_fn_map optim_vars_flag o !! i))
           then raise AssertionError else mret tt);;
          modify_self (fun o =>
            set_var_to_fn_map optim_vars_flag
              (<[i := []]> (self_var_to_fn_map optim_vars_flag o)) o)
      end;;
      modify_self (fun o => set_vars_in c (od_set vname variable (vars_in c o)) o);;
      o ← get_self;
      (if _allow_mixed_optim_aux_vars o
          && negb (bool_decide (is_Some (self_var_to_fn_map optim_vars_flag o !! i)))
       then modify_self (fun o =>
              set_var_to_fn_map optim_vars_flag
                (<[i := []]> (self_var_to_fn_map optim_vars_flag o)) o)
       else mret tt);;
      o ← get_self;
      match self_var_to_fn_map optim_vars_flag o !! i with
      | None => raise KeyError
      | Some l =>
          modify_self (fun o =>
            set_var_to_fn_map optim_vars_flag
              (<[i := l ++ [function]]> (self_var_to_fn_map optim_vars_flag o)) o)
      end
  end.

Definition _add_function_variables (function : Fn.t)
    (optim_vars_flag is_cost_weight : bool) : M unit :=
  let function_vars :=
    if optim_vars_flag then Fn.optim_vars function else Fn.aux_vars function in
  for_ function_vars (_add_function_variable function optim_vars_flag is_cost_weight).

(** [name in d] for a name that may be [None]. *)
Definition has_name (name : option string) (d : list (string * Var.t)) : bool :=
  match name with Some n => od_mem n d | None => false end.

Definition add (cost_function : CostFn.t) : M unit :=
  let cf_name := Fn.name cost_function in
  let weight := CostFn.weight cost_function in
  o ← get_self;
  match od_get cf_name (cost_functions o) with
  | Some registered =>
      if CostFn.same cost_function registered then warn AlreadyAdded
      else raise ValueError
  | None =>
      modify_self (fun o => set_cost_functions (od_set cf_name cost_function (cost_functions o)) o)
  end;;
  modify_self (fun o => set_current_version (current_version o + 1) o);;
  _add_function_variables cost_function true false;;
  _add_function_variables cost_function false false;;
  o ← get_self;
  match weights_get weight (cost_functions_for_weights o) with
  | Some _ => mret tt
  | None =>
      _add_function_variables weight true true;;
      _add_function_variables weight false true;;
      modify_self (fun o =>
        set_cost_functions_for_weights
          (weights_set weight [] (cost_functions_for_weights o)) o);;
      if bool_decide (0 < Fn.num_optim_vars weight) then raise RuntimeError
      else mret tt
  end;;
  o ← get_self;
  match weights_get weight (cost_functions_for_weights o) with
  | None => raise KeyError
  | Some l =>
      modify_self (fun o =>
        set_cost_functions_for_weights
          (weights_set weight (l ++ [cost_function]) (cost_functions_for_weights o)) o)
  end;;
  let optim_vars_names :=
    Var.name <$> (Fn.optim_vars cost_function ++ Fn.optim_vars weight) in
  let aux_vars_names :=
    Var.name <$> (Fn.aux_vars cost_function ++ Fn.aux_vars weight) in
  o ← get_self;
  if _allow_mixed_optim_aux_vars o then mret tt
  else
    for_ optim_vars_names (fun optim_name =>
      o ← get_self;
      if has_name optim_name (aux_vars o) then raise ValueError else mret tt);;
    for_ aux_vars_names (fun aux_name =>
      o ← get_self;
      if has_name aux_name (optim_vars o) then raise ValueError else mret tt).

(** *** [erase] *)

Definition _erase_function_variable (function : Fn.t)
    (optim_vars_flag is_cost_weight : bool) (variable : Var.t) : M unit :=
  let c := self_vars_of_this_type optim_vars_flag is_cost_weight in
  let i := Var.id variable in
  o ← get_self;
  match self_var_to_fn_map optim_vars_flag o !! i with
  | None => raise KeyError
  | Some l =>
      match index_of Fn.same function l with
      | None => raise ValueError
      | Some cost_fn_idx =>
          let l' := delete cost_fn_idx l in
          modify_self (fun o =>
            set_var_to_fn_map optim_vars_flag
              (<[i := l']> (self_var_to_fn_map optim_vars_flag o)) o);;
          match l' with
          | _ :: _ => mret tt
          | [] =>
              modify_self (fun o =>
                set_var_to_fn_map optim_vars_flag
                  (delete i (self_var_to_fn_map optim_vars_flag o)) o);;
              o ← get_self;
              match Var.name variable with
              | Some vname =>
                  if od_mem vname (vars_in c o)
                  then modify_self (fun o => set_vars_in c (od_del vname (vars_in c o)) o)
                  else raise KeyError
              | None => raise KeyError
              end
          end
      end
  end.

Definition _erase_function_variables (function : Fn.t)
    (optim_vars_flag is_cost_weight : bool) : M unit :=
  let fn_var_list :=
    if optim_vars_flag then Fn.optim_vars function else Fn.aux_vars function in
  for_ fn_var_list (_erase_function_variable function optim_vars_flag is_cost_weight).

Definition erase (name : string) : M unit :=
  modify_self (fun o => set_current_version (current_version o + 1) o);;
  o ← get_self;
  match od_get name (cost_functions o) with
  | Some cost_function =>
      _erase_function_variables cost_function true false;;
      _erase_function_variables cost_function false false;;
      let cost_weight := CostFn.weight cost_function in
      o ← get_self;
      match weights_get cost_weight (cost_functions_for_weights o) with
      | None => raise KeyError
      | Some l =>
          match index_of CostFn.same cost_function l with
          | None => raise ValueError
          | Some cost_fn_idx =>
              let l' := delete cost_fn_idx l in
              modify_self (fun o =>
                set_cost_functions_for_weights
                  (weights_set cost_weight l' (cost_functions_for_weights o)) o);;
              (if bool_decide (length l' = 0) then
                 _erase_function_variables cost_weight true true;;
                 _erase_function_variables cost_weight false true;;
                 modify_self (fun o =>
                   set_cost_functions_for_weights
                     (weights_del cost_weight (cost_functions_for_weights o)) o)
               else mret tt);;
              modify_self (fun o => set_cost_functions (od_del name (cost_functions o)) o)
          end
      end
  | None => warn NotInObjective
  end.

(** *** [update] and batch-size resolution *)

(** Entries of one batch element (one index of the leading dimension). *)
Definition row_size (x : Tensor) : nat := foldr Nat.mul 1 (tail (shape x)).

Fixpoint select_rows (n : nat) (mask : list bool) (old new : list Qc) : list Qc :=
  match mask with
  | [] => []
  | keep :: m =>
      (if keep then take n old else take n new)
        ++ select_rows n m (drop n old) (drop n new)
  end.

(** Modelled from the spec: [Variable.update(tensor, batch_ignore_mask)] of
    [theseus/core/variable.py], which is not among the sources. The
    variable takes the new tensor; with a mask, [batch_ignore_mask[i] = 1
    means v[i] will not be updated]. *)
Definition Variable_update (v : Var.t) (new : Tensor)
    (batch_ignore_mask : option (list bool)) : M unit :=
  match batch_ignore_mask with
  | Some mask =>
      if existsb id mask then
        old ← get_tensor v;
        set_tensor v
          (mkTensor (shape new)
             (select_rows (row_size new) mask (entries old) (entries new)))
      else set_tensor v new
  | None => set_tensor v new
  end.

Definition list_min (d : nat) (l : list nat) : nat := foldr Nat.min d l.
Definition list_max (l : list nat) : nat := foldr Nat.max 0 l.

(** [min(s)] and [max(s)] of a non-empty set of naturals. *)
Definition set_min (s : gset nat) : nat :=
  list_min (default 0 (head (elements s))) (elements s).
Definition set_max (s : gset nat) : nat := list_max (elements s).

Definition _get_batch_size (batch_sizes : list nat) : outcome nat :=
  let unique_batch_sizes : gset nat := list_to_set batch_sizes in
  if bool_decide (base.size unique_batch_sizes = 1) then
    match batch_sizes with
    | b :: _ => Ok b
    | [] => Raise IndexError
    end
  else if bool_decide (base.size unique_batch_sizes = 2) then
    let min_bs := set_min unique_batch_sizes in
    let max_bs := set_max unique_batch_sizes in
    if bool_decide (min_bs = 1) then Ok max_bs else Raise ValueError
  else Raise ValueError.

(** [x.shape[0]] *)
Definition shape0 (x : Tensor) : outcome nat :=
  match shape x with
  | n :: _ => Ok n
  | [] => Raise IndexError
  end.

(** The variables whose leading dimension [_resolve_batch_size] consults:
    the optimization variables, then the auxiliary variables. *)
Definition batch_variables (o : t) : list Var.t :=
  od_values (optim_vars o) ++ od_values (aux_vars o).

Definition _resolve_batch_size : M unit :=
  modify_self (set_batch_size None);;
  o ← get_self;
  w ← get;
  batch_sizes ← lift (mapM (fun v => shape0 (tensor w (Var.id v)))
                                   (batch_variables o));
  n ← lift (_get_batch_size batch_sizes);
  modify_self (set_batch_size (Some n)).

(** The vectorization hooks are those the constructor installs (none):
    [self.vectorized] is false and nothing is refreshed. *)
Definition update_vectorization_if_needed : M unit := mret tt.

Definition update_one (batch_ignore_mask : option (list bool))
    (item : string * Tensor) : M unit :=
  let '(var_name, x) := item in
  if bool_decide (ndim x < 2) then raise ValueError
  else
    o ← get_self;
    match od_get var_name (optim_vars o) with
    | Some v => Variable_update v x batch_ignore_mask
    | None =>
        match od_get var_name (aux_vars o) with
        | Some v => Variable_update v x batch_ignore_mask
        | None =>
            match od_get var_name (cost_weight_optim_vars o) with
            | Some v =>
                Variable_update v x batch_ignore_mask;;
                warn (WeightOnlyOptimVar var_name)
            | None => warn (UnknownTensorName var_name)
            end
        end
    end.

Definition update (input_tensors : option (list (string * Tensor)))
    (batch_ignore_mask : option (list bool))
    (_update_vectorization : bool) : M unit :=
  let input_tensors := default [] input_tensors in
  for_ input_tensors (update_one batch_ignore_mask);;
  _resolve_batch_size;;
  if _update_vectorization then update_vectorization_if_needed else mret tt.

(** *** [error], [error_metric], [dim] and [copy]

    What a cost function computes is outside the problem graph: the
    weighted error of a cost function is a function of the tensors its
    variables currently hold, [copy] of a cost function or weight makes a
    new object. *)

(** A batched error vector: one row per batch element. *)
Abbreviation ErrorVector := (list (list Qc)) (only parsing).

(** [torch.cat(ts, dim=1)] *)
Definition cat_dim1 (ts : list ErrorVector) : outcome ErrorVector :=
  match ts with
  | [] => Raise RuntimeError
  | e :: r =>
      foldl (fun acc e' =>
               a ← acc;
               if bool_decide (length a = length e')
               then Ok (zip_with app a e') else Raise RuntimeError)
            (Ok e) r
  end.

Definition sum_Qc (l : list Qc) : Qc := foldr Qcplus 0%Qc l.

Definition error_squared_norm_fn (error_vector : ErrorVector) : list Qc :=
  (fun row => (sum_Qc ((fun e => e * e)%Qc <$> row) / Qc_of_Z 2)%Qc) <$> error_vector.

(** The objective the constructor builds. *)
Definition init (dtype : Dtype) (__allow_mixed_optim_aux_vars__ : bool) : t :=
  mkObjective [] [] [] [] [] [] ∅ ∅ None dtype 0 __allow_mixed_optim_aux_vars__.

Section costs.
Context (weighted_error : CostFn.t -> (nat -> Tensor) -> outcome ErrorVector).
Context (cost_dim : CostFn.t -> nat).
Context (_error_metric_fn : ErrorVector -> list Qc).
Context (copy_cost_weight : Fn.t -> Fn.t).
Context (copy_cost_function : CostFn.t -> CostFn.t).

Definition dim : M nat :=
  o ← get_self;
  mret (foldl (fun err_dim cost_function => err_dim + cost_dim cost_function)
              0 (od_values (cost_functions o))).

Definition error (input_tensors : option (list (string * Tensor)))
    (also_update : bool) : M ErrorVector :=
  old_tensors ←
    match input_tensors with
    | Some _ =>
        old ← (if also_update then mret []
               else o ← get_self; w ← get;
                    mret ((fun '(var, v) => (var, tensor w (Var.id v)))
                            <$> optim_vars o));
        update input_tensors None also_update;;
        mret old
    | None => mret []
    end;
  o ← get_self;
  w ← get;
  errors ← lift (mapM (fun cf => weighted_error cf (tensor w))
                              (od_values (cost_functions o)));
  error_vector ← lift (cat_dim1 errors);
  match input_tensors with
  | Some _ =>
      if also_update then mret tt else update (Some old_tensors) None false
  | None => mret tt
  end;;
  mret error_vector.

Definition error_metric (input_tensors : option (list (string * Tensor)))
    (also_update : bool) : M (list Qc) :=
  e ← error input_tensors also_update;
  mret (_error_metric_fn e).

(** [copy] re-resolves, in each cloned function, the variables already
    registered in the new objective under the same name. *)
Definition resolve_vars (registered : list (string * Var.t)) (vars : list Var.t)
  : list Var.t :=
  (fun var =>
     match Var.name var with
     | Some n => default var (od_get n registered)
     | None => var
     end) <$> vars.

(** One round of the last loop of [copy]: the variables of the cloned
    cost function and of its (shared) cloned weight are re-resolved, then
    the clone is added to the new objective. *)
Definition copy_add_one (item : nat * CostFn.t)
  : ST (World * gmap nat Fn.t) unit :=
  fun st =>
    let '(w, weights) := st in
    let '(key, cost_function) := item in
    let new_objective := self w in
    let weight := default (CostFn.weight cost_function) (weights !! key) in
    let base' :=
      Fn.mk (Fn.id cost_function) (Fn.name cost_function)
        (resolve_vars (optim_vars new_objective) (Fn.optim_vars cost_function))
        (resolve_vars (aux_vars new_objective) (Fn.aux_vars cost_function)) in
    let weight' :=
      Fn.mk (Fn.id weight) (Fn.name weight)
        (resolve_vars (cost_weight_optim_vars new_objective) (Fn.optim_vars weight))
        (resolve_vars (aux_vars new_objective) (Fn.aux_vars weight)) in
    let '(r, w') := add (CostFn.mk base' weight') w in
    (r, (w', <[key := weight']> weights)).

Definition copy : M t :=
  fun w =>
    let o := self w in
    let new_objective := init (dtype o) false in
    let old_to_new_cost_weight_map : gmap nat Fn.t :=
      list_to_map
        ((fun p : Fn.t * list CostFn.t => (Fn.id p.1, copy_cost_weight p.1))
           <$> cost_functions_for_weights o) in
    let assigned :=
      mapM
        (fun cost_function : CostFn.t =>
           let key := Fn.id (CostFn.weight cost_function) in
           match old_to_new_cost_weight_map !! key with
           | Some weight =>
               Ok (key, CostFn.mk (CostFn.base (copy_cost_function cost_function))
                                  weight)
           | None => Raise KeyError
           end)
        (od_values (cost_functions o)) in
    match assigned with
    | Raise e => (Raise e, w)
    | Ok new_cost_functions =>
        let '(r, (w', _)) :=
          for_ new_cost_functions copy_add_one
               (mkWorld new_objective (tensor w) (warned w),
                old_to_new_cost_weight_map) in
        let w'' := mkWorld o (tensor w') (warned w') in
        match r with
        | Ok _ => (Ok (self w'), w'')
        | Raise e => (Raise e, w'')
        end
    end.
End costs.

(** *** Notions used to state the properties of the problem graph *)

(** A different cost function object is registered under the name. *)
Definition name_collision (cost_function : CostFn.t) (o : t) : bool :=
  match od_get (Fn.name cost_function) (cost_functions o) with
  | Some registered => negb (CostFn.same cost_function registered)
  | None => false
  end.

(** A computation keeps the version counter when the counter is the same
    after it, whether it returns or raises. *)
Definition keeps_version {A} (c : M A) : Prop :=
  ∀ w, current_version (self (c w).2) = current_version (self w).

(** The leading dimensions of the tensors of the variables that
    [_resolve_batch_size] consults. *)
Definition leading_dims (w : World) : outcome (list nat) :=
  mapM (fun v => shape0 (tensor w (Var.id v))) (batch_variables (self w)).

Definition with_batch_size (b : option nat) (w : World) : World :=
  mkWorld (set_batch_size b (self w)) (tensor w) (warned w).

End Objective.

(** ** Dense linear algebra over exact rationals

    Tangent-space quantities of [gbp.py] are [torch]/[numpy] arrays. A
    vector is the list of its entries; a matrix is its shape and its
    entries; a batched array is the list of its slices along the leading
    dimension. An operation applied to operands whose shapes do not fit
    raises, as the array libraries do. *)

Abbreviation Vec := (list Qc) (only parsing).

Record Mat : Type := mkMat { nrows : nat; ncols : nat; at_ : nat -> nat -> Qc }.

Abbreviation BVec := (list (list Qc)) (only parsing).
Abbreviation BMat := (list Mat) (only parsing).

Definition Q0 : Qc := 0%Qc.
Definition Q1 : Qc := 1%Qc.

Definition Qc_max (x y : Qc) : Qc := if decide (x < y)%Qc then y else x.
Definition Qc_abs (x : Qc) : Qc := if decide (x < Q0)%Qc then (- x)%Qc else x.

Fixpoint sumn (n : nat) (f : nat -> Qc) : Qc :=
  match n with
  | 0 => Q0
  | S k => (sumn k f + f k)%Qc
  end.

(** Two matrices are equal when they have the same shape and entries. *)
Definition mat_eq (A B : Mat) : Prop :=
  nrows A = nrows B ∧ ncols A = ncols B ∧
  ∀ i j, i < nrows A -> j < ncols A -> at_ A i j = at_ B i j.

Definition to_rows (A : Mat) : list (list Qc) :=
  (fun i => at_ A i <$> seq 0 (ncols A)) <$> seq 0 (nrows A).

Definition of_rows (r c : nat) (rows : list (list Qc)) : Mat :=
  mkMat r c (fun i j => nth j (nth i rows []) Q0).

Definition mat_eqb (A B : Mat) : bool :=
  bool_decide (nrows A = nrows B) && bool_decide (ncols A = ncols B)
  && bool_decide (to_rows A = to_rows B).

Definition zeros (r c : nat) : Mat := mkMat r c (fun _ _ => Q0).
Definition eye (n : nat) : Mat :=
  mkMat n n (fun i j => if bool_decide (i = j) then Q1 else Q0).

Definition transpose (A : Mat) : Mat :=
  mkMat (ncols A) (nrows A) (fun i j => at_ A j i).

Definition mmul (A B : Mat) : Mat :=
  mkMat (nrows A) (ncols B)
        (fun i j => sumn (ncols A) (fun k => (at_ A i k * at_ B k j)%Qc)).

Definition same_shape (A B : Mat) : bool :=
  bool_decide (nrows A = nrows B) && bool_decide (ncols A = ncols B).

(** [A @ B] *)
Definition matmul (A B : Mat) : outcome Mat :=
  if bool_decide (ncols A = nrows B) then Ok (mmul A B) else Raise RuntimeError.

Definition mzip (op : Qc -> Qc -> Qc) (A B : Mat) : Mat :=
  mkMat (nrows A) (ncols A) (fun i j => op (at_ A i j) (at_ B i j)).

Definition madd (A B : Mat) : outcome Mat :=
  if same_shape A B then Ok (mzip Qcplus A B) else Raise RuntimeError.
Definition msub (A B : Mat) : outcome Mat :=
  if same_shape A B then Ok (mzip Qcminus A B) else Raise RuntimeError.

(** [A @ v] for a vector [v] *)
Definition mvmul (A : Mat) (v : Vec) : outcome Vec :=
  if bool_decide (ncols A = length v)
  then Ok ((fun i => sumn (ncols A) (fun k => (at_ A i k * nth k v Q0)%Qc))
             <$> seq 0 (nrows A))
  else Raise RuntimeError.

Definition vzip (op : Qc -> Qc -> Qc) (u v : Vec) : outcome Vec :=
  if bool_decide (length u = length v) then Ok (zip_with op u v)
  else Raise RuntimeError.

Definition vscale (c : Qc) (v : Vec) : Vec := (fun x => (c * x)%Qc) <$> v.

(** [x.count_nonzero()] *)
Definition vcount_nonzero (v : Vec) : nat :=
  length (filter (fun x => x ≠ Q0) v).
Definition count_nonzero (A : Mat) : nat :=
  sum_list (vcount_nonzero <$> to_rows A).
Definition bcount_nonzero (A : BMat) : nat := sum_list (count_nonzero <$> A).

(** Python slices [v[a:b]], [A[a:b, c:d]]; the bounds are clipped. *)
Definition vslice (a b : nat) (v : Vec) : Vec := take (b - a) (drop a v).
Definition mslice (r0 r1 c0 c1 : nat) (A : Mat) : Mat :=
  mkMat (Nat.min r1 (nrows A) - r0) (Nat.min c1 (ncols A) - c0)
        (fun i j => at_ A (r0 + i) (c0 + j)).

(** [np.concatenate((A, B), axis=1)] and [axis=0] *)
Definition concat_cols (A B : Mat) : outcome Mat :=
  if bool_decide (nrows A = nrows B)
  then Ok (mkMat (nrows A) (ncols A + ncols B)
             (fun i j => if bool_decide (j < ncols A) then at_ A i j
                         else at_ B i (j - ncols A)))
  else Raise ValueError.
Definition concat_rows (A B : Mat) : outcome Mat :=
  if bool_decide (ncols A = ncols B)
  then Ok (mkMat (nrows A + nrows B) (ncols A)
             (fun i j => if bool_decide (i < nrows A) then at_ A i j
                         else at_ B (i - nrows A) j))
  else Raise ValueError.

(** [v[start : start + n] += u] and [A[s : s + n, s : s + n] += B] *)
Definition vadd_at (start n : nat) (u v : Vec) : outcome Vec :=
  new ← vzip Qcplus (vslice start (start + n) v) u;
  mret (take start v ++ new ++ drop (start + length new) v).
Definition madd_at (start n : nat) (B A : Mat) : outcome Mat :=
  if same_shape (mslice start (start + n) start (start + n) A) B
  then Ok (mkMat (nrows A) (ncols A)
             (fun i j =>
                if bool_decide (start ≤ i < start + nrows B)
                   && bool_decide (start ≤ j < start + ncols B)
                then (at_ A i j + at_ B (i - start) (j - start))%Qc
                else at_ A i j))
  else Raise RuntimeError.

Definition is_square (d : nat) (A : Mat) : Prop := nrows A = d ∧ ncols A = d.

(** [Ji] is a left inverse of the [d x d] matrix [J], and [P] is [d x d]. *)
Definition inverse_of (d : nat) (J Ji P : Mat) : Prop :=
  is_square d J ∧ is_square d Ji ∧ is_square d P ∧ mat_eq (mmul Ji J) (eye d).

(** Batched operations. *)
Fixpoint zipM {A B C} (f : A -> B -> outcome C) (l : list A) (k : list B)
  : outcome (list C) :=
  match l, k with
  | [], [] => Ok []
  | x :: l', y :: k' => z ← f x y; zs ← zipM f l' k'; mret (z :: zs)
  | _, _ => Raise RuntimeError
  end.

(** [torch.bmm(A, B)] *)
Definition bmm (A B : BMat) : outcome BMat := zipM matmul A B.
Definition btranspose (A : BMat) : BMat := transpose <$> A.
(** [torch.matmul(A, v.unsqueeze(-1)).squeeze(-1)] *)
Definition bmvmul (A : BMat) (v : BVec) : outcome BVec := zipM mvmul A v.

(** The shape of a batched matrix: one [(rows, columns)] per slice. *)
Definition bshape (A : BMat) : list (nat * nat) :=
  (fun M => (nrows M, ncols M)) <$> A.

(** [x[0]] *)
Definition first {A} (l : list A) : outcome A :=
  match l with
  | x :: _ => Ok x
  | [] => Raise IndexError
  end.

(** Sum, along a new leading dimension, of arrays of one shape
    ([torch.cat(xs).sum(dim=0)]). *)
Definition bmat_sum (shape : list (nat * nat)) (xs : list BMat) : BMat :=
  foldl (zip_with (mzip Qcplus)) ((fun s => zeros s.1 s.2) <$> shape) xs.

(** ** Gaussian belief propagation ([gbp.py]) *)

Module GBP.

(** The capability contract of a manifold-valued variable: the operations
    [gbp.py] calls on [th.Manifold] / [th.LieGroup] objects and
    [th.exp_map]. A value of [Mf] is the (batched) tensor of a variable. *)
Class Manifold (Mf : Type) : Type := {
  dof : Mf -> nat;                        (* var.dof() *)
  shape0 : Mf -> nat;                     (* var.shape[0] *)
  data : Mf -> BVec;                      (* var.data *)
  local : Mf -> Mf -> BVec;               (* var.local(other) *)
  retract : Mf -> BVec -> Mf;             (* var.retract(delta) *)
  (* jac[0] after th.exp_map(var, tangent_vector, jacobians=jac) *)
  exp_map_jacobian : Mf -> BVec -> BMat;
  zero_data : Mf -> Mf;                   (* var.data[:] = 0 *)
}.

Section gbp.
Context {Mf : Type} `{!Manifold Mf}.
(** [torch.inverse] and [np.linalg.inv], on one matrix. *)
Context (torch_inverse np_linalg_inv : Mat -> outcome Mat).
(** [theseus.constants.EPS] *)
Context (EPS : Qc).

(** *** [ManifoldGaussian], [Message], [Marginal] *)

Record ManifoldGaussian : Type := mkGaussian {
  mean : list Mf;
  precision : BMat;
}.

Abbreviation Message := ManifoldGaussian (only parsing).
Abbreviation Marginal := ManifoldGaussian (only parsing).

(** [ManifoldGaussian(mean)]: the precision starts at zero. *)
Definition new_gaussian (mean : list Mf) : outcome ManifoldGaussian :=
  let dof := sum_list (dof <$> mean) in
  m0 ← first mean;
  mret (mkGaussian mean (replicate (shape0 m0) (zeros dof dof))).

(** [ManifoldGaussian.update(mean, precision)]; on an exception the
    gaussian keeps the mean written before the failing check. *)
Definition gaussian_update (new_mean : list Mf) (new_precision : BMat)
    (g : ManifoldGaussian) : outcome ManifoldGaussian :=
  if bool_decide (length new_mean ≠ length (mean g)) then Raise ValueError
  else if bool_decide (bshape new_precision ≠ bshape (precision g))
  then Raise ValueError
  else Ok (mkGaussian new_mean new_precision).

(** *** [local_gaussian] and [retract_gaussian] *)

Definition local_gaussian (mess : Message) (var : Mf) (return_mean : bool)
  : outcome (BVec * BMat) :=
  m0 ← first (mean mess);
  let mean_tp := local var m0 in
  let jac := exp_map_jacobian var mean_tp in
  x ← bmm (btranspose jac) (precision mess);
  lam_tp ← bmm x jac;
  if return_mean then mret (mean_tp, lam_tp)
  else
    eta_tp ← bmvmul lam_tp mean_tp;
    mret (eta_tp, lam_tp).

Definition retract_gaussian (mean_tp : BVec) (precision_tp : BMat)
    (var : Mf) (out_gauss : ManifoldGaussian) : outcome ManifoldGaussian :=
  let mean := retract var mean_tp in
  let jac := exp_map_jacobian var mean_tp in
  inv_jac ← mapM torch_inverse jac;
  x ← bmm (btranspose inv_jac) precision_tp;
  precision ← bmm x inv_jac;
  gaussian_update [mean] precision out_gauss.

(** *** [Factor] *)

(** What a factor needs of its cost function: the position, in the
    variable ordering, of each of its optimization variables, and the
    weighted Jacobians and error at given values of these variables. *)
Record CostFunction : Type := mkCost {
  var_ixs : list nat;
  weighted_jacobians_error : list Mf -> outcome (list BMat * BVec);
}.

Definition num_optim_vars (cf : CostFunction) : nat := length (var_ixs cf).

Record Factor : Type := mkFactor {
  cf : CostFunction;
  potential_eta : BVec;
  potential_lam : BMat;
  lin_point : list Mf;
}.

(** The current values of the optimization variables of a cost function.
    The variables are the objects the beliefs hold as their means. *)
Definition optim_vars (beliefs : list Marginal) (cf : CostFunction)
  : outcome (list Mf) :=
  mapM (fun ix =>
          match beliefs !! ix with
          | Some b => first (mean b)
          | None => Raise IndexError
          end) (var_ixs cf).

(** [torch.cat(xs, dim=-1)] of batched matrices and of batched vectors *)
Definition bcat_cols (xs : list BMat) : outcome BMat :=
  match xs with
  | [] => Raise RuntimeError
  | x :: r => foldl (fun acc y => a ← acc; zipM concat_cols a y) (Ok x) r
  end.
Definition bcat_vec (xs : list BVec) : outcome BVec :=
  match xs with
  | [] => Raise RuntimeError
  | x :: r =>
      foldl (fun acc y => a ← acc; zipM (fun u v => Ok (u ++ v)) a y) (Ok x) r
  end.

Definition sumsq (x : BVec) : Qc :=
  foldr Qcplus Q0
    ((fun v => foldr Qcplus Q0 ((fun e => e * e)%Qc <$> v)) <$> x).

Definition bneg (x : BVec) : BVec := (fun v : Vec => Qcopp <$> v) <$> x.

(** [Factor.linearize(relin_threshold, lie)]. [vars] are the current
    values of the cost function's optimization variables. The distance
    test [norm > t] is decided on squares. *)
Definition linearize (relin_threshold : option Qc) (lie : bool)
    (vars : list Mf) (f : Factor) : outcome Factor :=
  do_lin ←
    match relin_threshold with
    | None => Ok true
    | Some t =>
        let lp_dists := zip_with (fun lp var => sumsq (local lp var))
                                 (lin_point f) vars in
        match lp_dists with
        | [] => Raise ValueError
        | d :: r =>
            let m := foldr Qc_max d r in
            Ok (bool_decide (t < Q0)%Qc || bool_decide (t * t < m)%Qc)
        end
    end;
  if do_lin : bool then
    '(J, error) ← weighted_jacobians_error (cf f) vars;
    J_stk ← bcat_cols J;
    lam ← bmm (btranspose J_stk) J_stk;
    optim_vars_stk ← bcat_vec (data <$> vars);
    e ← bmvmul (btranspose J_stk) error;
    let eta := bneg e in
    eta ← (if lie then Ok eta
           else x ← bmvmul lam optim_vars_stk; zipM (vzip Qcplus) eta x);
    mret (mkFactor (cf f) eta lam vars)
  else mret f.

(** [Factor(cf)] *)
Definition new_factor (cf : CostFunction) (vars : list Mf) : outcome Factor :=
  v0 ← first vars;
  let batch_size := shape0 v0 in
  let dof := sum_list (dof <$> vars) in
  linearize None true vars
    (mkFactor cf (replicate batch_size (replicate dof Q0))
                 (replicate batch_size (zeros dof dof)) vars).

(** *** [Factor.comp_mess] *)

Definition is_zero (A : Mat) : bool := bool_decide (count_nonzero A = 0).

(** The product of the factor with the incoming messages of all
    variables but [v]: the inner loop over [i]. *)
Fixpoint take_product (v : nat) (vtof_msgs : list Message) (lin_point : list Mf)
    (dofs : list nat) (i start : nat) (eta_factor : Vec) (lam_factor : Mat)
  : outcome (Vec * Mat) :=
  match dofs with
  | [] => Ok (eta_factor, lam_factor)
  | var_dofs :: dofs' =>
      '(eta_factor, lam_factor) ←
        (if bool_decide (i ≠ v) then
           msg ← first (drop i vtof_msgs);
           lp ← first (drop i lin_point);
           '(eta_mess, lam_mess) ← local_gaussian msg lp false;
           eta0 ← first eta_mess;
           lam0 ← first lam_mess;
           eta' ← vadd_at start var_dofs eta0 eta_factor;
           lam' ← madd_at start var_dofs lam0 lam_factor;
           mret (eta', lam')
         else mret (eta_factor, lam_factor));
      take_product v vtof_msgs lin_point dofs' (S i) (start + var_dofs)
                   eta_factor lam_factor
  end.

(** The factor times the incoming messages of the other variables,
    marginalized onto variable [v], whose block starts at [sdim]: the
    precision and information vector of the Schur complement. *)
Definition marginalize (f : Factor) (vars : list Mf)
    (vtof_msgs : list Message) (v sdim : nat) : outcome (Mat * Vec) :=
  e0 ← first (potential_eta f);
  l0 ← first (potential_lam f);
  '(eta_factor, lam_factor) ←
    take_product v vtof_msgs (lin_point f) (dof <$> vars) 0 0 e0 l0;
  var_v ← first (drop v vars);
  let dofs := dof var_v in
  let n := length eta_factor in
  let eo := vslice sdim (sdim + dofs) eta_factor in
  let eno := vslice 0 sdim eta_factor ++ vslice (sdim + dofs) n eta_factor in
  let r := nrows lam_factor in
  let c := ncols lam_factor in
  let loo := mslice sdim (sdim + dofs) sdim (sdim + dofs) lam_factor in
  lono ← concat_cols (mslice sdim (sdim + dofs) 0 sdim lam_factor)
                     (mslice sdim (sdim + dofs) (sdim + dofs) c lam_factor);
  lnoo ← concat_rows (mslice 0 sdim sdim (sdim + dofs) lam_factor)
                     (mslice (sdim + dofs) r sdim (sdim + dofs) lam_factor);
  top ← concat_cols (mslice 0 sdim 0 sdim lam_factor)
                    (mslice 0 sdim (sdim + dofs) c lam_factor);
  bottom ← concat_cols (mslice (sdim + dofs) r 0 sdim lam_factor)
                       (mslice (sdim + dofs) r (sdim + dofs) c lam_factor);
  lnono ← concat_rows top bottom;
  inv_lnono ← np_linalg_inv lnono;
  x ← matmul lono inv_lnono;
  y ← matmul x lnoo;
  new_mess_lam ← msub loo y;
  z ← mvmul x eno;
  new_mess_eta ← vzip Qcminus eo z;
  mret (new_mess_lam, new_mess_eta).

(** The outgoing message to variable [v]: marginalization, damping of
    the mean towards the previous message, and the new message. *)
Definition comp_mess_one (f : Factor) (vars : list Mf)
    (vtof_msgs ftov_msgs : list Message) (damping : list Qc)
    (v sdim : nat) : outcome Message :=
  '(new_mess_lam, new_mess_eta) ← marginalize f vars vtof_msgs v sdim;
  var_v ← first (drop v vars);
  prev ← first (drop v ftov_msgs);
  lp_v ← first (drop v (lin_point f));
  '(prev_mess_mean, prev_mess_lam) ← local_gaussian prev lp_v true;
  (* mean damping *)
  new_mess_eta ←
    (if negb (is_zero new_mess_lam) then
       inv ← torch_inverse new_mess_lam;
       new_mess_mean ← mvmul inv new_mess_eta;
       d ← first (drop v damping);
       prev0 ← first prev_mess_mean;
       new_mess_mean ← vzip Qcplus (vscale (Q1 - d)%Qc new_mess_mean)
                                   (vscale d prev0);
       mvmul new_mess_lam new_mess_mean
     else mret new_mess_eta);
  if is_zero new_mess_lam then
    new_mess ← new_gaussian [var_v];
    mret (mkGaussian (zero_data <$> mean new_mess) (precision new_mess))
  else
    inv ← torch_inverse new_mess_lam;
    new_mess_mean ← mvmul inv new_mess_eta;
    new_mess ← new_gaussian [var_v];
    retract_gaussian [new_mess_mean] [new_mess_lam] lp_v new_mess.

(** The loop over [v] of [comp_mess]. *)
Fixpoint comp_mess_loop (f : Factor) (vars : list Mf)
    (vtof_msgs ftov_msgs : list Message) (damping : list Qc)
    (todo : list Mf) (v sdim : nat) : outcome (list Message) :=
  match todo with
  | [] => Ok []
  | var_v :: todo' =>
      new_mess ← comp_mess_one f vars vtof_msgs ftov_msgs damping v sdim;
      rest ← comp_mess_loop f vars vtof_msgs ftov_msgs damping todo'
                            (S v) (sdim + dof var_v);
      mret (new_mess :: rest)
  end.

(** [Factor.comp_mess]: returns the messages [ftov_msgs] holds after the
    final update loop. *)
Definition comp_mess (f : Factor) (vars : list Mf)
    (vtof_msgs ftov_msgs : list Message) (damping : list Qc)
  : outcome (list Message) :=
  new_messages ← comp_mess_loop f vars vtof_msgs ftov_msgs damping vars 0 0;
  mapM (fun p : nat * Message =>
          old ← first (drop p.1 ftov_msgs);
          gaussian_update (mean p.2) (precision p.2) old)
       (imap pair new_messages).

(** *** The two message passes of [GaussianBeliefPropagation] *)

(** The messages and beliefs the variable-to-factor pass writes. *)
Record PassState : Type := mkPass {
  vtof_msgs : list Message;
  beliefs : list Marginal;
}.

(** The edges [j] with [var_ix_for_edges[j] == i], with their messages. *)
Fixpoint incident (var_ix_for_edges : list nat) (ftov_msgs : list Message)
    (i j : nat) : outcome (list (nat * Message)) :=
  match ftov_msgs with
  | [] => Ok []
  | msg :: msgs =>
      match var_ix_for_edges with
      | [] => Raise IndexError
      | ix :: ixs =>
          rest ← incident ixs msgs i (S j);
          mret (if bool_decide (ix = i) then (j, msg) :: rest else rest)
      end
  end.

(** [torch.cat(xs)] of arrays [x[None, ...]]: they must have one shape. *)
Definition stack {A Sh} `{EqDecision Sh} (shape : A -> Sh) (xs : list A)
  : outcome (list A) :=
  match xs with
  | [] => Raise RuntimeError
  | x :: r =>
      if forallb (fun y => bool_decide (shape y = shape x)) r then Ok xs
      else Raise RuntimeError
  end.

Definition bvec_sum (shape : list nat) (xs : list BVec) : BVec :=
  foldl (zip_with (zip_with Qcplus)) ((fun n => replicate n Q0) <$> shape) xs.

(** The information-form mean of the product of the given tangent-space
    Gaussians: [inverse(lam) @ sum(lams @ taus)]. *)
Definition combine (lam : BMat) (lams : list BMat) (taus : list BVec)
  : outcome BVec :=
  inv_lam ← mapM torch_inverse lam;
  prods ← zipM bmvmul lams taus;
  let sum_taus := bvec_sum (nrows <$> lam) prods in
  bmvmul inv_lam sum_taus.

(** The outgoing message on the [ix]-th incident edge of a variable. *)
Definition outgoing_vtof (var : Mf) (taus : list BVec) (lams_tp : list BMat)
    (shape : list (nat * nat)) (ix : nat) (msg : Message) : outcome Message :=
  let taus_inc := delete ix taus in
  let lams_inc := delete ix lams_tp in
  let lam_a := bmat_sum shape lams_inc in
  if bool_decide (bcount_nonzero lam_a = 0) then
    Ok (mkGaussian ((zero_data <$> take 1 (mean msg)) ++ drop 1 (mean msg)) lam_a)
  else
    tau_a ← combine lam_a lams_inc taus_inc;
    retract_gaussian tau_a lam_a var msg.

Fixpoint outgoing_loop (var : Mf) (taus : list BVec) (lams_tp : list BMat)
    (shape : list (nat * nat)) (edges : list nat) (ix : nat)
  : ST PassState unit :=
  match edges with
  | [] => mret tt
  | j :: edges' =>
      st ← get;
      msg ← lift (first (drop j (vtof_msgs st)));
      new ← lift (outgoing_vtof var taus lams_tp shape ix msg);
      modify (fun st => mkPass (<[j := new]> (vtof_msgs st)) (beliefs st));;
      outgoing_loop var taus lams_tp shape edges' (S ix)
  end.

(** The incoming messages of variable [var], of index [i], in its own
    tangent space: the incident edges, the means, the precisions and the
    shape of one precision. *)
Definition gather (var_ix_for_edges : list nat) (ftov_msgs : list Message)
    (var : Mf) (i : nat)
  : outcome (list nat * list BVec * list BMat * list (nat * nat)) :=
  inc ← incident var_ix_for_edges ftov_msgs i 0;
  locals ← mapM (fun e : nat * Message => local_gaussian e.2 var true) inc;
  taus ← stack (fun x : BVec => length <$> x) (fst <$> locals);
  lams_tp ← stack bshape (snd <$> locals);
  lam0 ← first lams_tp;
  mret (fst <$> inc, taus, lams_tp, bshape lam0).

(** The body of the loop of [_pass_var_to_fac_messages] for variable
    [i], the object [self.beliefs[i]] holds as its mean. *)
Definition var_to_fac_one (var_ix_for_edges : list nat)
    (ftov_msgs : list Message) (update_belief : bool) (i : nat)
  : ST PassState unit :=
  st ← get;
  belief ← lift (first (drop i (beliefs st)));
  var ← lift (first (mean belief));
  '(edges, taus, lams_tp, shape) ← lift (gather var_ix_for_edges ftov_msgs var i);
  let lam_tau := bmat_sum shape lams_tp in
  outgoing_loop var taus lams_tp shape edges 0;;
  if update_belief && negb (bool_decide (bcount_nonzero lam_tau = 0)) then
    tau ← lift (combine lam_tau lams_tp taus);
    new ← lift (retract_gaussian tau lam_tau var belief);
    modify (fun st => mkPass (vtof_msgs st) (<[i := new]> (beliefs st)))
  else mret tt.

Definition _pass_var_to_fac_messages (var_ix_for_edges : list nat)
    (ftov_msgs : list Message) (update_belief : bool) : ST PassState unit :=
  st ← get;
  for_ (seq 0 (length (beliefs st)))
       (var_to_fac_one var_ix_for_edges ftov_msgs update_belief).

(** [_pass_fac_to_var_messages]: every factor is relinearized at the
    current values of its variables and sends all its messages. The
    result is the factors and the factor-to-variable messages after the
    pass. *)
Fixpoint _pass_fac_to_var_messages (beliefs : list Marginal)
    (factors : list Factor) (vtof_msgs ftov_msgs : list Message)
    (schedule : list bool) (damping : list Qc) (start : nat)
  : outcome (list Factor * list Message) :=
  match factors with
  | [] => Ok ([], ftov_msgs)
  | factor :: factors' =>
      let num_optim_vars := num_optim_vars (cf factor) in
      vars ← optim_vars beliefs (cf factor);
      factor ← linearize None true vars factor;
      new ← comp_mess factor vars
               (take num_optim_vars (drop start vtof_msgs))
               (take num_optim_vars (drop start ftov_msgs))
               (take num_optim_vars (drop start damping));
      let ftov_msgs :=
        take start ftov_msgs ++ new ++ drop (start + length new) ftov_msgs in
      '(fs, ftov_msgs) ←
        _pass_fac_to_var_messages beliefs factors' vtof_msgs ftov_msgs
                                  schedule damping (start + num_optim_vars);
      mret (factor :: fs, ftov_msgs)
  end.

(** *** Convergence check and optimizer info *)

Record GBPOptimizerParams : Type := mkParams {
  abs_err_tolerance : Qc;
  rel_err_tolerance : Qc;
  max_iterations : nat;
}.

Inductive NonlinearOptimizerStatus : Type := START | CONVERGED | MAX_ITERATIONS.

(** [err.abs().mean() < EPS]; the mean of an empty tensor is [nan]. *)
Definition mean_abs_below (eps : Qc) (err : list Qc) : bool :=
  match err with
  | [] => false
  | _ :: _ =>
      bool_decide (foldr Qcplus Q0 (Qc_abs <$> err)
                     / Qc_of_Z (Z.of_nat (length err)) < eps)%Qc
  end.

(** [a / d < t] for floating-point numbers: dividing by zero gives [inf]
    or [nan], for which the test is false. *)
Definition div_lt (a d t : Qc) : bool :=
  if decide (d = Q0) then false else bool_decide (a / d < t)%Qc.

Definition _check_convergence (params : GBPOptimizerParams)
    (err last_err : list Qc) : list bool :=
  if mean_abs_below EPS err then (fun _ => true) <$> err
  else
    zip_with (fun e l =>
                let abs_error := Qc_abs (l - e)%Qc in
                let rel_error_below := div_lt abs_error l (rel_err_tolerance params) in
                bool_decide (abs_error < abs_err_tolerance params)%Qc
                || rel_error_below)
             err last_err.

(** What the check computes for one batch element with error [e] and
    previous error [l]. *)
Definition converged_element (params : GBPOptimizerParams)
    (err : list Qc) (e l : Qc) : bool :=
  mean_abs_below EPS err
  || bool_decide (Qc_abs (l - e) < abs_err_tolerance params)%Qc
  || div_lt (Qc_abs (l - e)%Qc) l (rel_err_tolerance params).

(** The criterion in the words of the specification: [|err| < EPS], or
    [|prevErr - err| < absTol], or [|prevErr - err| / |prevErr| < relTol]. *)
Definition converged_as_specified (params : GBPOptimizerParams)
    (err prev_err : Qc) : bool :=
  bool_decide (Qc_abs err < EPS)%Qc
  || bool_decide (Qc_abs (prev_err - err) < abs_err_tolerance params)%Qc
  || div_lt (Qc_abs (prev_err - err)%Qc) (Qc_abs prev_err)
            (rel_err_tolerance params).

(** [inf] is [None] in the error history. *)
Record NonlinearOptimizerInfo : Type := mkInfo {
  best_solution : option (list BVec);
  last_err : list Qc;
  best_err : option (list Qc);
  status : list NonlinearOptimizerStatus;
  converged_iter : list Z;
  best_iter : list Z;
  err_history : option (list (list (option Qc)));
}.

(** [x[mask] = new[mask]] along the batch dimension *)
Definition mask_set {A} (mask : list bool) (new old : list A) : list A :=
  imap (fun i x => if default false (mask !! i) then default x (new !! i) else x)
       old.

(** [status[converged_indices] = CONVERGED] *)
Definition mark_converged (converged_indices : list bool)
    (status : list NonlinearOptimizerStatus) : list NonlinearOptimizerStatus :=
  imap (fun i s => if default false (converged_indices !! i) then CONVERGED else s)
       status.

Definition half (err : list Qc) : list Qc := (fun e => e / Qc_of_Z 2)%Qc <$> err.

Section optimizer.
(** The problem the optimizer was built for: the cost functions in
    their order, and the objective's error, which the optimizer reads
    through [error_squared_norm]. *)
Context (cf_ordering : list CostFunction).
Context (error_squared_norm : list Mf -> outcome (list Qc)).
Context (params : GBPOptimizerParams).

Definition n_edges : nat := sum_list (num_optim_vars <$> cf_ordering).
Definition var_ix_for_edges : list nat := mjoin (var_ixs <$> cf_ordering).

Definition _init_info (vars : list Mf)
    (track_best_solution track_err_history : bool)
  : outcome NonlinearOptimizerInfo :=
  e ← error_squared_norm vars;
  let last_err := half e in
  let batch_size := length last_err in
  mret (mkInfo
          (if track_best_solution then Some (data <$> vars) else None)
          last_err
          (if track_best_solution then Some last_err else None)
          (replicate batch_size START)
          ((fun _ => 0%Z) <$> last_err)
          ((fun _ => 0%Z) <$> last_err)
          (if track_err_history
           then Some ((fun e => Some e :: replicate (max_iterations params) None)
                        <$> last_err)
           else None)).

Definition _update_info (vars : list Mf) (info : NonlinearOptimizerInfo)
    (current_iter : nat) (err : list Qc) (converged_indices : list bool)
  : outcome NonlinearOptimizerInfo :=
  let converged_iter :=
    zip_with (fun c (b : bool) => (c + (1 - (if b then 1 else 0)))%Z)
             (converged_iter info) converged_indices in
  let err_history :=
    (fun h => zip_with (fun row e => <[S current_iter := Some e]> row) h err)
      <$> err_history info in
  '(best_solution, best_err, best_iter) ←
    match best_solution info with
    | None => Ok (None, best_err info, best_iter info)
    | Some sol =>
        match best_err info with
        | None => Raise AssertionError
        | Some best =>
            let good_indices :=
              zip_with (fun e b => bool_decide (e < b)%Qc) err best in
            Ok (Some (zip_with (fun var old => mask_set good_indices (data var) old)
                               vars sol),
                Some (zip_with (fun b e => if decide (e < b)%Qc then e else b)
                               best err),
                mask_set good_indices
                         ((fun _ => Z.of_nat current_iter) <$> best_iter info)
                         (best_iter info))
        end
    end;
  let converged_indices := _check_convergence params err (last_err info) in
  mret (mkInfo best_solution (last_err info) best_err
               (mark_converged converged_indices (status info))
               converged_iter best_iter err_history).

(** *** The optimization loop *)

Record ScheduleTensor : Type := mkSchedule {
  is_bool : bool;                 (* schedule.dtype == torch.bool *)
  rows : list (list bool);
}.

Definition synchronous_schedule (max_iters n_edges : nat) : list (list bool) :=
  replicate max_iters (replicate n_edges true).

(** [random_schedule], given the indices [torch.randint] draws. *)
Definition random_schedule (n_edges : nat) (ixs : list nat) : list (list bool) :=
  (fun ix => <[ix := true]> (replicate n_edges false)) <$> ixs.

Record LoopState : Type := mkLoop {
  l_vtof : list Message;
  l_ftov : list Message;
  l_beliefs : list Marginal;
  l_factors : list Factor;
  l_info : NonlinearOptimizerInfo;
  l_converged : list bool;
}.

Definition current_vars (beliefs : list Marginal) : outcome (list Mf) :=
  mapM (fun b : Marginal => first (mean b)) beliefs.

(** One round of the loop of [_optimize_loop]; the result tells whether
    the loop runs on. [draws] are the numbers [torch.rand] returns. *)
Definition iteration (schedule : list (list bool)) (damping dropout : Qc)
    (draws : nat -> list Qc) (it_ : nat) : ST LoopState bool :=
  let damping_arr := replicate n_edges damping in
  let damping_arr :=
    if bool_decide (dropout ≠ Q0) then
      mask_set ((fun r => bool_decide (r < dropout)%Qc) <$> draws it_)
               (replicate n_edges Q1) damping_arr
    else damping_arr in
  st ← get;
  row ← lift (first (drop it_ schedule));
  '(factors, ftov) ←
    lift (_pass_fac_to_var_messages (l_beliefs st) (l_factors st)
            (l_vtof st) (l_ftov st) row damping_arr 0);
  modify (fun st => mkLoop (l_vtof st) ftov (l_beliefs st) factors
                           (l_info st) (l_converged st));;
  (fun st =>
     let '(r, p) :=
       _pass_var_to_fac_messages var_ix_for_edges ftov true
         (mkPass (l_vtof st) (l_beliefs st)) in
     (r, mkLoop (vtof_msgs p) (l_ftov st) (beliefs p) (l_factors st)
                (l_info st) (l_converged st)));;
  if bool_decide (0 < it_) then
    st ← get;
    vars ← lift (current_vars (l_beliefs st));
    e ← lift (error_squared_norm vars);
    let err := half e in
    info ← lift (_update_info vars (l_info st) it_ err (l_converged st));
    let converged_indices := _check_convergence params err (last_err info) in
    let info :=
      mkInfo (best_solution info) (last_err info) (best_err info)
             (mark_converged converged_indices (status info))
             (converged_iter info) (best_iter info) (err_history info) in
    if forallb id converged_indices && bool_decide (1 < it_) then
      modify (fun st => mkLoop (l_vtof st) (l_ftov st) (l_beliefs st)
                               (l_factors st) info converged_indices);;
      mret false
    else
      let info :=
        mkInfo (best_solution info) err (best_err info) (status info)
               (converged_iter info) (best_iter info) (err_history info) in
      modify (fun st => mkLoop (l_vtof st) (l_ftov st) (l_beliefs st)
                               (l_factors st) info converged_indices);;
      mret true
  else mret true.

Fixpoint iterate (schedule : list (list bool)) (damping dropout : Qc)
    (draws : nat -> list Qc) (its : list nat) : ST LoopState unit :=
  match its with
  | [] => mret tt
  | it_ :: its' =>
      go_on ← iteration schedule damping dropout draws it_;
      if go_on : bool then iterate schedule damping dropout draws its'
      else mret tt
  end.

(** The messages, beliefs and factors the loop starts from. *)
Definition initial_state (vars : list Mf) (info : NonlinearOptimizerInfo)
  : outcome LoopState :=
  msgs ← mapM (fun ix =>
                 var ← first (drop ix vars);
                 new_gaussian [zero_data var])
              var_ix_for_edges;
  beliefs ← mapM (fun var => new_gaussian [var]) vars;
  factors ← mapM (fun cf => vs ← optim_vars beliefs cf; new_factor cf vs)
                 cf_ordering;
  mret (mkLoop msgs msgs beliefs factors info ((fun _ => false) <$> last_err info)).

Definition finish (info : NonlinearOptimizerInfo) : NonlinearOptimizerInfo :=
  mkInfo (best_solution info) (last_err info) (best_err info)
         ((fun s => match s with START => MAX_ITERATIONS | _ => s end)
            <$> status info)
         (converged_iter info) (best_iter info) (err_history info).

(** [_optimize_loop]. The result is the info and the final values of
    the variables; [ixs] are the edges [torch.randint] draws when no
    schedule is given. *)
Definition _optimize_loop (vars : list Mf) (start_iter num_iter : nat)
    (info : NonlinearOptimizerInfo) (damping dropout : Qc)
    (schedule : option ScheduleTensor)
    (ixs : list nat) (draws : nat -> list Qc)
  : outcome (NonlinearOptimizerInfo * list Marginal) :=
  if bool_decide (Q1 < damping)%Qc || bool_decide (damping < Q0)%Qc
  then Raise ValueError
  else if bool_decide (Q1 < dropout)%Qc || bool_decide (dropout < Q0)%Qc
  then Raise ValueError
  else
    schedule ←
      match schedule with
      | None => Ok (random_schedule n_edges ixs)
      | Some s =>
          if negb (is_bool s) then Raise ValueError
          else if bool_decide
                    (length <$> rows s = replicate (max_iterations params) n_edges)
          then Ok (rows s)
          else Raise ValueError
      end;
    st ← initial_state vars info;
    let '(r, st) :=
      iterate schedule damping dropout draws (seq start_iter num_iter) st in
    _ ← r;
    mret (finish (l_info st), l_beliefs st).

Definition _optimize_impl (vars : list Mf)
    (track_best_solution track_err_history : bool)
    (damping dropout : Qc) (schedule : option ScheduleTensor)
    (ixs : list nat) (draws : nat -> list Qc)
  : outcome (NonlinearOptimizerInfo * list Marginal) :=
  info ← _init_info vars track_best_solution track_err_history;
  '(info, beliefs) ←
    _optimize_loop vars 0 (max_iterations params) info damping dropout
                   schedule ixs draws;
  mret (mkInfo (best_solution info) (last_err info) (best_err info)
               (status info)
               (zip_with (fun s c => match s with
                                     | MAX_ITERATIONS => (-1)%Z
                                     | _ => c
                                     end)
                         (status info) (converged_iter info))
               (best_iter info) (err_history info),
        beliefs).
End optimizer.
End gbp.

Arguments ManifoldGaussian Mf : clear implicits.
Arguments CostFunction Mf : clear implicits.
Arguments Factor Mf : clear implicits.
Arguments PassState Mf : clear implicits.
Arguments LoopState Mf : clear implicits.
End GBP.

(** ** A concrete setting to run the model in

    The flat vector space as an instance of the manifold contract, and
    Gauss-Jordan elimination as the matrix inversion routine. *)

Module Euclid.

(** A batch of points of a vector space: one row per batch element. *)
Abbreviation Point := (list (list Qc)) (only parsing).

(** Elementwise operation on two batches; a batch of one row is
    broadcast against the other operand. *)
Definition bzip (op : Qc -> Qc -> Qc) (a b : Point) : Point :=
  match a, b with
  | [x], _ :: _ :: _ => (fun y => zip_with op x y) <$> b
  | _ :: _ :: _, [y] => (fun x => zip_with op x y) <$> a
  | _, _ => zip_with (zip_with op) a b
  end.

Global Instance vector_space : GBP.Manifold Point := {|
  GBP.dof x := length (default [] (head x));
  GBP.shape0 x := length x;
  GBP.data x := x;
  GBP.local x other := bzip Qcminus other x;
  GBP.retract x delta := bzip Qcplus x delta;
  GBP.exp_map_jacobian x tangent_vector :=
    (fun v : list Qc => eye (length v)) <$> tangent_vector;
  GBP.zero_data x := (fun v : list Qc => (fun _ => Q0) <$> v) <$> x;
|}.

(** Gauss-Jordan elimination on the rows of [A | I]. *)
Fixpoint find_pivot (col : nat) (rows : list (list Qc)) (i : nat) : option nat :=
  match rows with
  | [] => None
  | r :: rows' =>
      if bool_decide (col ≤ i) && negb (bool_decide (nth col r Q0 = Q0))
      then Some i else find_pivot col rows' (S i)
  end.

Definition eliminate (col : nat) (rows : list (list Qc)) : option (list (list Qc)) :=
  p ← find_pivot col rows 0;
  let pivot_row := nth p rows [] in
  let scaled := (fun x => x / nth col pivot_row Q0)%Qc <$> pivot_row in
  let swapped := <[col := scaled]> (<[p := nth col rows []]> rows) in
  Some (imap (fun i r =>
                if bool_decide (i = col) then r
                else zip_with (fun x y => x - nth col r Q0 * y)%Qc r scaled)
             swapped).

Fixpoint gauss_jordan (cols : list nat) (rows : list (list Qc))
  : option (list (list Qc)) :=
  match cols with
  | [] => Some rows
  | col :: cols' => rows' ← eliminate col rows; gauss_jordan cols' rows'
  end.

Definition inverse (singular : exn) (A : Mat) : outcome Mat :=
  let n := nrows A in
  if bool_decide (ncols A = n) then
    match gauss_jordan (seq 0 n)
            (zip_with app (to_rows A) (to_rows (eye n))) with
    | Some rows => Ok (of_rows n n (drop n <$> rows))
    | None => Raise singular
    end
  else Raise singular.

Definition torch_inverse : Mat -> outcome Mat := inverse RuntimeError.
Definition np_linalg_inv : Mat -> outcome Mat := inverse LinAlgError.

End Euclid.

(** ** Concrete problems *)

Module Scenario.
Import Objective.

Definition qz (z : Z) : Qc := Qc_of_Z z.

(** *** A problem graph with one cost function *)

Definition x : Var.t := Var.mk 1 (Some "x"%string) float32.
Definition a : Var.t := Var.mk 2 (Some "a"%string) float32.
Definition weight : Fn.t := Fn.mk 10 "w" [] [].
(** A cost function on the optimization variable [x] and the auxiliary
    variable [a]. *)
Definition f : CostFn.t := CostFn.mk (Fn.mk 11 "f" [x] [a]) weight.
(** Another object with the same name. *)
Definition f_other : CostFn.t := CostFn.mk (Fn.mk 12 "f" [x] [a]) weight.

Definition scalar (z : Z) : Tensor := mkTensor [1; 1] [qz z].

(** [x] holds 1 and [a] holds 2. *)
Definition tensors : nat -> Tensor :=
  <[1 := scalar 1]> (<[2 := scalar 2]> (fun _ => scalar 0)).

Definition empty : World := mkWorld (init float32 false) tensors [].

(** The weighted error of [f] is [x - a]. *)
Definition weighted_error (cf : CostFn.t) (tensor : nat -> Tensor)
  : outcome (list (list Qc)) :=
  Ok [zip_with Qcminus (entries (tensor 1)) (entries (tensor 2))].

(** Three variables of batch size 3. *)
Definition three : World :=
  mkWorld
    (mkObjective [("u"%string, Var.mk 1 (Some "u"%string) float32);
                  ("v"%string, Var.mk 2 (Some "v"%string) float32)] []
                 [("c"%string, Var.mk 3 (Some "c"%string) float32)]
                 [] [] [] ∅ ∅ None float32 0 false)
    (fun _ => mkTensor [3; 1] [qz 0; qz 0; qz 0]) [].

(** *** A one-variable problem for belief propagation *)

Import GBP Euclid.

(** A prior on a scalar variable: the error is [x - target]. *)
Definition prior (target : Z) : CostFunction (list (list Qc)) :=
  mkCost [0]
    (fun vars =>
       match vars with
       | [x] => Ok ([(fun _ : list Qc => eye 1) <$> x],
                    (fun v : list Qc => (fun e => e - qz target)%Qc <$> v) <$> x)
       | _ => Raise ValueError
       end).

(** The error of two scalar variables is [x1 - x0 - 1]. *)
Definition between : CostFunction (list (list Qc)) :=
  mkCost [0; 1]
    (fun vars =>
       match vars with
       | [x0; x1] =>
           Ok ([(fun _ : list Qc => of_rows 1 1 [[qz (-1)]]) <$> x0;
                (fun _ : list Qc => eye 1) <$> x1],
               zip_with (zip_with (fun u v => v - u - qz 1)%Qc) x0 x1)
       | _ => Raise ValueError
       end).

Definition x0 : list (list Qc) := [[qz 0]].
(** A zero-mean, zero-precision message or belief on a scalar. *)
Definition zero_gaussian : ManifoldGaussian (list (list Qc)) :=
  mkGaussian [x0] [zeros 1 1].
(** The factor of [prior 3], not yet linearized. *)
Definition prior_factor : Factor (list (list Qc)) :=
  mkFactor (prior 3) [[qz 0]] [zeros 1 1] [x0].

(** A batch of two scalars, and zero gaussians on it. *)
Definition x2 : list (list Qc) := [[qz 0]; [qz 10]].
Definition zero_gaussian2 : ManifoldGaussian (list (list Qc)) :=
  mkGaussian [x2] [zeros 1 1; zeros 1 1].

(** What can be compared of a gaussian: its means, and the shape and
    rows of its precisions. *)
Definition view (g : ManifoldGaussian (list (list Qc)))
  : list (list (list Qc)) * list (nat * nat * list (list Qc)) :=
  (mean g, (fun A => (nrows A, ncols A, to_rows A)) <$> precision g).

Definition views (r : outcome (list (ManifoldGaussian (list (list Qc)))))
  : outcome (list (list (list (list Qc)) * list (nat * nat * list (list Qc)))) :=
  (fun l : list (ManifoldGaussian (list (list Qc))) => view <$> l) <$> r.

Definition eps : Qc := Q2Qc (1 # 10000000000).
Definition params : GBPOptimizerParams := mkParams eps eps 3.

(** The objective's error for the prior: [(x - 3)^2]. *)
Definition squared_error (vars : list (list (list Qc))) : outcome (list Qc) :=
  match vars with
  | [x] => Ok ((fun v : list Qc =>
                  foldr Qcplus Q0 ((fun e => (e - qz 3) * (e - qz 3))%Qc <$> v))
                 <$> x)
  | _ => Raise ValueError
  end.

(** The state of the optimization loop before its first round. *)
Definition loop_start : LoopState (list (list Qc)) :=
  mkLoop [zero_gaussian] [zero_gaussian] [zero_gaussian] [prior_factor]
         (mkInfo None [(qz 9 / qz 2)%Qc] None [START] [0%Z] [0%Z] None)
         [false].

(** A vector space in stretched coordinates: a tangent vector moves a
    point by twice its length, so the Jacobian of the exponential map is
    twice the identity. *)
Definition stretched : Manifold (list (list Qc)) := {|
  dof x := length (default [] (head x));
  shape0 x := length x;
  data x := x;
  local x other :=
    (fun v : list Qc => (fun e => e / qz 2)%Qc <$> v) <$> bzip Qcminus other x;
  retract x delta :=
    bzip Qcplus x ((fun v : list Qc => (fun e => qz 2 * e)%Qc <$> v) <$> delta);
  exp_map_jacobian x tangent_vector :=
    (fun v : list Qc =>
       mkMat (length v) (length v)
             (fun i j => if bool_decide (i = j) then qz 2 else Q0))
      <$> tangent_vector;
  zero_data x := (fun v : list Qc => (fun _ => Q0) <$> v) <$> x;
|}.
End Scenario.

(** ** The Gaussian transforms on manifold objects

    A [ManifoldGaussian] holds manifold objects, and
    [ManifoldGaussian.update] writes the new mean into the objects it
    holds ([self.mean[i].update(mean[i])]): [retract_gaussian] moves the
    base point when [out_gauss] holds it. Where it matters which object
    a Gaussian holds, a manifold object is an address into a store of
    the values of the objects. *)

Module InPlace.
Section in_place.
Context {Mf : Type} {Manifold0 : GBP.Manifold Mf}.
Context (torch_inverse : Mat -> outcome Mat).

Record ManifoldGaussian : Type := mkGaussian {
  mean : list nat;
  precision : BMat;
}.

(** The Gaussian with the values its mean objects hold. *)
Definition value (s : nat -> Mf) (g : ManifoldGaussian) : GBP.ManifoldGaussian Mf :=
  GBP.mkGaussian (s <$> mean g) (precision g).

(** [ManifoldGaussian.update(mean, precision)]: the means are written
    before the shape of the precision is checked. There is one dtype,
    the exact rationals, so the check of the dtype always passes. *)
Definition update (new_mean : list Mf) (new_precision : BMat)
    (g : ManifoldGaussian) : ST (nat -> Mf) ManifoldGaussian :=
  if bool_decide (length new_mean ≠ length (mean g)) then raise ValueError
  else
    for_ (zip (mean g) new_mean)
         (fun item : nat * Mf => modify (<[item.1 := item.2]>));;
    if bool_decide (bshape new_precision ≠ bshape (precision g))
    then raise ValueError
    else mret (mkGaussian (mean g) new_precision).

Definition local_gaussian (mess : ManifoldGaussian) (var : nat)
    (return_mean : bool) : ST (nat -> Mf) (BVec * BMat) :=
  s ← get;
  lift (GBP.local_gaussian (value s mess) (s var) return_mean).

Definition retract_gaussian (mean_tp : BVec) (precision_tp : BMat)
    (var : nat) (out_gauss : ManifoldGaussian)
  : ST (nat -> Mf) ManifoldGaussian :=
  s ← get;
  let mean := GBP.retract (s var) mean_tp in
  let jac := GBP.exp_map_jacobian (s var) mean_tp in
  inv_jac ← lift (mapM torch_inverse jac);
  x ← lift (bmm (btranspose inv_jac) precision_tp);
  precision ← lift (bmm x inv_jac);
  update [mean] precision out_gauss.

(** [local_gaussian(out_gauss, p)] after
    [retract_gaussian(mean_tp, precision_tp, p, out_gauss)]. *)
Definition round_trip (mean_tp : BVec) (precision_tp : BMat) (p : nat)
    (out_gauss : ManifoldGaussian) : ST (nat -> Mf) (BVec * BMat) :=
  gauss ← retract_gaussian mean_tp precision_tp p out_gauss;
  local_gaussian gauss p true.
End in_place.

Arguments ManifoldGaussian : clear implicits.
End InPlace.

(** ** Angles

    A manifold that wraps around: an angle, in turns, is kept in
    [[-1/2, 1/2)]; the Jacobian of the exponential map is the identity. *)

Module Circle.
Definition wrap (t : Qc) : Qc :=
  (t - Qc_of_Z (Qfloor (t + Q2Qc (1 # 2))))%Qc.

Definition bwrap (x : list (list Qc)) : list (list Qc) :=
  (fun v : list Qc => wrap <$> v) <$> x.

Definition angle : GBP.Manifold (list (list Qc)) := {|
  GBP.dof x := length (default [] (head x));
  GBP.shape0 x := length x;
  GBP.data x := x;
  GBP.local x other := bwrap (Euclid.bzip Qcminus other x);
  GBP.retract x delta := bwrap (Euclid.bzip Qcplus x delta);
  GBP.exp_map_jacobian x tangent_vector :=
    (fun v : list Qc => eye (length v)) <$> tangent_vector;
  GBP.zero_data x := (fun v : list Qc => (fun _ => Q0) <$> v) <$> x;
|}.
End Circle.

(** ** Problems without information *)

Module Uninformative.
Import GBP Euclid Scenario.

(** The cost function [between] under a cost weight 0: the weighted
    Jacobians and the weighted error are zero. *)
Definition muted : CostFunction (list (list Qc)) :=
  mkCost [0; 1]
    (fun vars =>
       match vars with
       | [x0; x1] =>
           Ok ([(fun _ : list Qc => zeros 1 1) <$> x0;
                (fun _ : list Qc => zeros 1 1) <$> x1],
               (fun _ : list Qc => [Q0]) <$> x0)
       | _ => Raise ValueError
       end).

(** The objective's error under the weight 0. *)
Definition no_error (vars : list (list (list Qc))) : outcome (list Qc) :=
  Ok [Q0].

(** A message left from an earlier round: mean 7, precision 2. *)
Definition stale : ManifoldGaussian (list (list Qc)) :=
  mkGaussian [[[qz 7]]] [of_rows 1 1 [[qz 2]]].

(** A belief with mean 5 and precision 3. *)
Definition informed : ManifoldGaussian (list (list Qc)) :=
  mkGaussian [[[qz 5]]] [of_rows 1 1 [[qz 3]]].

(** An inversion routine that cannot be called without raising. *)
Definition never : Mat -> outcome Mat := fun _ => Raise RuntimeError.
End Uninformative.

(** ** Frame conditions

    A computation preserves an observation [g] of the world when [g] is
    the same after the computation, whether it returns or raises. *)
Definition preserves {A X} (g : Objective.World -> X)
    (c : ST Objective.World A) : Prop :=
  ∀ w, g (c w).2 = g w.

(** The variable to which [update] gives the tensor found under [name]:
    an optimization variable, else an auxiliary variable, else an
    optimization variable of a cost weight. *)
Definition updated_variable (name : string) (o : Objective.t) : option Var.t :=
  match od_get name (Objective.optim_vars o) with
  | Some v => Some v
  | None =>
      match od_get name (Objective.aux_vars o) with
      | Some v => Some v
      | None => od_get name (Objective.cost_weight_optim_vars o)
      end
  end.

(** ** The order of the cost functions ([class CostFunctionOrdering])

    The ordering keeps a reference to the objective; an operation that
    reads the objective takes the objective as it is when the operation
    is called. *)

Module CostFunctionOrdering.

Record t : Type := mk {
  _cf_order : list CostFn.t;
  _cf_name_to_index : gmap string nat;
}.

(** The loop of [_compute_default_order]; [cur_idx] is the next index. *)
Fixpoint default_order_loop (items : list (string * CostFn.t)) (cur_idx : nat)
  : ST t unit :=
  match items with
  | [] => mret tt
  | (cf_name, cf) :: items' =>
      self ← get;
      if bool_decide (is_Some (_cf_name_to_index self !! cf_name))
      then default_order_loop items' cur_idx
      else
        modify (fun self =>
                  mk (_cf_order self ++ [cf])
                     (<[cf_name := cur_idx]> (_cf_name_to_index self)));;
        default_order_loop items' (S cur_idx)
  end.

Definition _compute_default_order (objective : Objective.t) : ST t unit :=
  self ← get;
  match _cf_order self with
  | [] =>
      if bool_decide (_cf_name_to_index self = ∅)
      then default_order_loop (Objective.cost_functions objective) 0
      else raise AssertionError
  | _ :: _ => raise AssertionError
  end.

(** [CostFunctionOrdering(objective, default_order)] *)
Definition init (objective : Objective.t) (default_order : bool) : outcome t :=
  let self := mk [] ∅ in
  if default_order then
    let '(r, self) := _compute_default_order objective self in
    _ ← r; mret self
  else Ok self.


Definition append (objective : Objective.t) (cf : CostFn.t) : ST t unit :=
  self ← get;
  if existsb (CostFn.same cf) (_cf_order self) then raise ValueError
  else if negb (od_mem (Fn.name cf) (Objective.cost_functions objective))
  then raise ValueError
  else
    modify (fun self => mk (_cf_order self ++ [cf]) (_cf_name_to_index self));;
    modify (fun self =>
              mk (_cf_order self)
                 (<[Fn.name cf := length (_cf_order self) - 1]>
                    (_cf_name_to_index self))).

Definition extend (objective : Objective.t) (cfs : list CostFn.t) : ST t unit :=
  for_ cfs (append objective).

(** [complete] compares with the number of optimization variables. *)
Definition complete (objective : Objective.t) (self : t) : bool :=
  bool_decide (length (_cf_order self)
               = length (Objective.optim_vars objective)).

Definition index_of (key : string) (self : t) : outcome nat :=
  match _cf_name_to_index self !! key with
  | Some i => Ok i
  | None => Raise KeyError
  end.

(** [self[index]] for an integer [index]; a negative index counts from
    the end. *)
Definition getitem (index : Z) (self : t) : outcome CostFn.t :=
  let n := Z.of_nat (length (_cf_order self)) in
  let i := if (index <? 0)%Z then (index + n)%Z else index in
  if (0 <=? i)%Z && (i <? n)%Z then
    match _cf_order self !! Z.to_nat i with
    | Some cf => Ok cf
    | None => Raise IndexError
    end
  else Raise IndexError.
End CostFunctionOrdering.

(** * Properties

    The rest of the file states and proves what the model does. A claim
    of the specification is named in the comment of its theorem. *)

Lemma st_bind_run {S A B} (c : ST S A) (k : A -> ST S B) s :
  (c ≫= k) s = match c s with
               | (Ok a, s') => k a s'
               | (Raise e, s') => (Raise e, s')
               end.
Proof. reflexivity. Qed.

Lemma first_drop {A} (l : list A) i :
  first (drop i l)
  = match l !! i with Some x => Ok x | None => Raise IndexError end.
Proof. revert i. induction l as [|x l IH]; intros [|i]; simpl; auto. Qed.

(** Closes a goal that is decided by evaluation. *)
Ltac by_computation := apply (bool_decide_unpack _); vm_compute; exact I.

(** ** The problem graph *)

Section objective.
Import Objective Scenario.

(** *** The version counter *)

Lemma keeps_ret {A} (a : A) : keeps_version (mret a).
Proof. by intros w. Qed.

Lemma keeps_raise {A} e : keeps_version (raise e : M A).
Proof. by intros w. Qed.

Lemma keeps_lift {A} (r : outcome A) : keeps_version (lift r).
Proof. by intros w. Qed.

Lemma keeps_bind {A B} (c : M A) (k : A -> M B) :
  keeps_version c -> (∀ a, keeps_version (k a)) -> keeps_version (c ≫= k).
Proof.
  intros Hc Hk w. rewrite st_bind_run. specialize (Hc w).
  destruct (c w) as [[a|e] w']; simpl in *; [|done].
  by rewrite Hk.
Qed.

Lemma keeps_for {A} (l : list A) (body : A -> M unit) :
  (∀ x, keeps_version (body x)) -> keeps_version (for_ l body).
Proof.
  intros Hb. induction l as [|x l IH]; [apply keeps_ret|].
  apply (keeps_bind (body x) (fun _ => for_ l body)); auto.
Qed.

Lemma keeps_get_self : keeps_version get_self.
Proof. by intros w. Qed.

Lemma keeps_get : keeps_version (get : M World).
Proof. by intros w. Qed.

Lemma keeps_warn x : keeps_version (warn x).
Proof. by intros w. Qed.

Lemma keeps_get_tensor v : keeps_version (get_tensor v).
Proof. by intros w. Qed.

Lemma keeps_set_tensor v x : keeps_version (set_tensor v x).
Proof. by intros w. Qed.

Lemma keeps_modify_self (f : t -> t) :
  (∀ o, current_version (f o) = current_version o) ->
  keeps_version (modify_self f).
Proof. intros Hf w. apply Hf. Qed.

Lemma version_set_vars_in c v o :
  current_version (set_vars_in c v o) = current_version o.
Proof. by destruct c. Qed.

Lemma version_set_var_to_fn_map b m o :
  current_version (set_var_to_fn_map b m o) = current_version o.
Proof. by destruct b. Qed.

Create HintDb version discriminated.
#[local] Hint Resolve keeps_ret keeps_raise keeps_lift keeps_get_self keeps_get
  keeps_warn keeps_get_tensor keeps_set_tensor : version.
#[local] Hint Extern 1 (keeps_version (modify_self _)) =>
  apply keeps_modify_self; intros;
  rewrite ?version_set_vars_in, ?version_set_var_to_fn_map; reflexivity : version.

(** Walks through a computation built from binds, loops and case
    distinctions whose leaves keep the version. *)
Ltac keeps :=
  repeat first
    [ progress auto with version
    | apply keeps_bind; [|intros]
    | apply keeps_for; intros
    | match goal with
      | |- keeps_version (match ?x with _ => _ end) => destruct x
      | |- keeps_version (if ?x then _ else _) => destruct x
      | |- keeps_version (let '(_, _) := ?x in _) => destruct x
      end ].

Lemma keeps_add_function_variables f b1 b2 :
  keeps_version (_add_function_variables f b1 b2).
Proof.
  unfold _add_function_variables. apply keeps_for. intros variable.
  unfold _add_function_variable. keeps.
Qed.

Lemma keeps_erase_function_variables f b1 b2 :
  keeps_version (_erase_function_variables f b1 b2).
Proof.
  unfold _erase_function_variables. apply keeps_for. intros variable.
  unfold _erase_function_variable. keeps.
Qed.

#[local] Hint Resolve keeps_add_function_variables
  keeps_erase_function_variables : version.

(** If the continuation keeps the version, the version after a bind is
    the version after its first computation. *)
Lemma version_after {A B} (c : M A) (k : A -> M B) w :
  (∀ a, keeps_version (k a)) ->
  current_version (self ((c ≫= k) w).2) = current_version (self (c w).2).
Proof.
  intros Hk. rewrite st_bind_run.
  destruct (c w) as [[a|e] w']; simpl; [apply Hk|done].
Qed.

(** A cost function whose name belongs to another object is rejected
    before anything is written. *)
Lemma add_name_collision cost_function w :
  name_collision cost_function (self w) = true ->
  add cost_function w = (Raise ValueError, w).
Proof.
  unfold name_collision, add. intros H. rewrite st_bind_run. simpl.
  destruct (od_get _ _) as [registered|]; [|done].
  destruct (CostFn.same _ _); [done|]. reflexivity.
Qed.

Lemma add_version cost_function w :
  current_version (self (add cost_function w).2) =
    if name_collision cost_function (self w) then current_version (self w)
    else current_version (self w) + 1.
Proof.
  destruct (name_collision cost_function (self w)) eqn:Hc.
  { by rewrite add_name_collision. }
  unfold name_collision in Hc. unfold add. rewrite st_bind_run. simpl.
  destruct (od_get _ _) as [registered|].
  - destruct (CostFn.same _ _); [|done].
    rewrite st_bind_run. simpl. rewrite version_after; [done|]. intros; keeps.
  - rewrite st_bind_run. simpl. rewrite version_after; [done|]. intros; keeps.
Qed.

Lemma erase_version name w :
  current_version (self (erase name w).2) = current_version (self w) + 1.
Proof.
  unfold erase. rewrite version_after; [done|]. intros; keeps.
Qed.

Lemma keeps_resolve_batch_size : keeps_version _resolve_batch_size.
Proof. unfold _resolve_batch_size. keeps. Qed.

Lemma keeps_update input_tensors batch_ignore_mask uv :
  keeps_version (update input_tensors batch_ignore_mask uv).
Proof.
  pose proof keeps_resolve_batch_size.
  unfold update, update_one, Variable_update, update_vectorization_if_needed.
  keeps.
Qed.

Lemma keeps_error weighted_error input_tensors also_update :
  keeps_version (error weighted_error input_tensors also_update).
Proof. pose proof keeps_update. unfold error. keeps. Qed.

Lemma keeps_error_metric weighted_error metric input_tensors also_update :
  keeps_version (error_metric weighted_error metric input_tensors also_update).
Proof. pose proof keeps_error. unfold error_metric. keeps. Qed.

Lemma keeps_copy copy_cost_weight copy_cost_function :
  keeps_version (copy copy_cost_weight copy_cost_function).
Proof.
  intros w. unfold copy.
  destruct (mapM _ _) as [new_cost_functions|e]; [|done].
  destruct (for_ _ _ _) as [r [w' m]]. by destruct r.
Qed.

Lemma keeps_queries name cost_dim :
  keeps_version (get_cost_function name) ∧
  keeps_version (has_cost_function name) ∧
  keeps_version (has_optim_var name) ∧
  keeps_version (get_optim_var name) ∧
  keeps_version (has_aux_var name) ∧
  keeps_version (get_aux_var name) ∧
  keeps_version (get_functions_connected_to_optim_var name) ∧
  keeps_version (get_functions_connected_to_aux_var name) ∧
  keeps_version batch_size ∧
  keeps_version (dim cost_dim) ∧
  keeps_version Objective.size ∧
  keeps_version size_cost_functions ∧
  keeps_version size_variables ∧
  keeps_version size_aux_vars.
Proof.
  repeat split;
    unfold get_cost_function, has_cost_function, has_optim_var, get_optim_var,
      has_aux_var, get_aux_var, get_functions_connected_to_optim_var,
      get_functions_connected_to_aux_var, _get_functions_connected_to_var,
      batch_size, dim, Objective.size, size_cost_functions, size_variables,
      size_aux_vars;
    keeps.
Qed.

(** C10, as stated, fails: an [add] that is rejected because another
    cost function object has the name raises before the counter is
    incremented. *)
Lemma rejected_add_keeps_version :
  let w := (add f empty).2 in
  (add f_other w).1 = Raise ValueError ∧
  current_version (self (add f_other w).2) = current_version (self w) ∧
  current_version (self (add f_other w).2) ≠ current_version (self w) + 1.
Proof. vm_compute. repeat split. lia. Qed.

(** C10 (amended): every call of [add], except one rejected because a
    different cost function object already has the name (which leaves
    the counter as it is), and every call of [erase] increments the
    version counter by exactly one, whether or not the call changes the
    structure or completes; [update], [error], [error_metric], [copy]
    and the queries leave the counter unchanged. The counter never
    decreases. *)
Theorem version_counter :
  (∀ cost_function w,
     current_version (self (add cost_function w).2) =
       if name_collision cost_function (self w) then current_version (self w)
       else current_version (self w) + 1) ∧
  (∀ name w,
     current_version (self (erase name w).2) = current_version (self w) + 1) ∧
  (∀ input_tensors batch_ignore_mask update_vectorization,
     keeps_version (update input_tensors batch_ignore_mask update_vectorization)) ∧
  (∀ weighted_error input_tensors also_update,
     keeps_version (error weighted_error input_tensors also_update)) ∧
  (∀ weighted_error metric input_tensors also_update,
     keeps_version (error_metric weighted_error metric input_tensors also_update)) ∧
  (∀ copy_cost_weight copy_cost_function,
     keeps_version (copy copy_cost_weight copy_cost_function)) ∧
  (∀ name cost_dim,
     keeps_version (get_cost_function name) ∧
     keeps_version (has_cost_function name) ∧
     keeps_version (has_optim_var name) ∧
     keeps_version (get_optim_var name) ∧
     keeps_version (has_aux_var name) ∧
     keeps_version (get_aux_var name) ∧
     keeps_version (get_functions_connected_to_optim_var name) ∧
     keeps_version (get_functions_connected_to_aux_var name) ∧
     keeps_version batch_size ∧
     keeps_version (dim cost_dim) ∧
     keeps_version Objective.size ∧
     keeps_version size_cost_functions ∧
     keeps_version size_variables ∧
     keeps_version size_aux_vars).
Proof.
  split; [apply add_version|].
  split; [apply erase_version|].
  split; [apply keeps_update|].
  split; [apply keeps_error|].
  split; [apply keeps_error_metric|].
  split; [apply keeps_copy|].
  apply keeps_queries.
Qed.

(** *** Batch-size resolution *)

Lemma list_min_spec d l :
  (list_min d l = d ∨ list_min d l ∈ l) ∧
  list_min d l ≤ d ∧ ∀ x, x ∈ l -> list_min d l ≤ x.
Proof.
  unfold list_min. induction l as [|y l (Hin & Hd & Hall)]; simpl.
  - split; [by left|]. split; [lia|]. intros x Hx. by apply elem_of_nil in Hx.
  - split; [|split].
    + destruct (Nat.min_spec y (foldr Nat.min d l)) as [[_ ->]|[_ ->]].
      * right. left.
      * destruct Hin as [->|?]; [by left|right; by right].
    + lia.
    + intros x [->|Hx]%elem_of_cons; [lia|]. specialize (Hall x Hx). lia.
Qed.

Lemma list_max_spec l :
  (l = [] ∨ list_max l ∈ l) ∧ ∀ x, x ∈ l -> x ≤ list_max l.
Proof.
  unfold list_max. induction l as [|y l (Hin & Hall)]; simpl.
  - split; [by left|]. intros x Hx. by apply elem_of_nil in Hx.
  - split.
    + right. destruct (Nat.max_spec y (foldr Nat.max 0 l)) as [[Hlt ->]|[_ ->]].
      * destruct Hin as [->|?]; [simpl in Hlt; lia|by right].
      * left.
    + intros x [->|Hx]%elem_of_cons; [lia|]. specialize (Hall x Hx). lia.
Qed.

Lemma set_min_spec (s : gset nat) x :
  x ∈ s -> set_min s ∈ s ∧ ∀ y, y ∈ s -> set_min s ≤ y.
Proof.
  intros Hx. unfold set_min.
  destruct (elements s) as [|e l] eqn:He.
  { apply elem_of_elements in Hx. rewrite He in Hx. by apply elem_of_nil in Hx. }
  change (default 0 (head (e :: l))) with e.
  destruct (list_min_spec e (e :: l)) as (Hin & _ & Hall).
  split.
  - apply elem_of_elements. rewrite He. destruct Hin as [->|?]; [left|done].
  - intros y Hy. apply Hall. rewrite <- He. by apply elem_of_elements.
Qed.

Lemma set_max_spec (s : gset nat) x :
  x ∈ s -> set_max s ∈ s ∧ ∀ y, y ∈ s -> y ≤ set_max s.
Proof.
  intros Hx. unfold set_max.
  destruct (list_max_spec (elements s)) as (Hin & Hall).
  split.
  - apply elem_of_elements. destruct Hin as [Hnil|?]; [|done].
    apply elem_of_elements in Hx. rewrite Hnil in Hx. by apply elem_of_nil in Hx.
  - intros y Hy. apply Hall. by apply elem_of_elements.
Qed.

(** A set of two elements is the pair of its minimum and its maximum. *)
Lemma size_two_min_max (s : gset nat) :
  base.size s = 2 -> set_min s < set_max s ∧ s = {[set_min s; set_max s]}.
Proof.
  intros Hs. unfold base.size, set_size in Hs. simpl in Hs.
  destruct (elements s) as [|a [|b [|? ?]]] eqn:He; try done.
  assert (Hab : a ≠ b).
  { pose proof (NoDup_elements s) as Hnd. rewrite He in Hnd.
    apply NoDup_cons_1_1 in Hnd. intros ->. apply Hnd. left. }
  assert (Hmem : ∀ x, x ∈ s ↔ x = a ∨ x = b).
  { intros x. rewrite <- elem_of_elements, He.
    rewrite elem_of_cons, list_elem_of_singleton. done. }
  destruct (set_min_spec s a) as [Hmin Hle]; [apply Hmem; by left|].
  destruct (set_max_spec s a) as [Hmax Hge]; [apply Hmem; by left|].
  pose proof (Hle a) as Hla. pose proof (Hle b) as Hlb.
  pose proof (Hge a) as Hga. pose proof (Hge b) as Hgb.
  rewrite !Hmem in *.
  split.
  - destruct Hmin as [?|?], Hmax as [?|?]; lia.
  - apply set_eq. intros x. rewrite Hmem, elem_of_union, !elem_of_singleton.
    destruct Hmin as [?|?], Hmax as [?|?]; lia.
Qed.

Lemma get_batch_size_same (batch_sizes : list nat) n :
  list_to_set (C := gset nat) batch_sizes = {[n]} ->
  _get_batch_size batch_sizes = Ok n.
Proof.
  intros Hs. unfold _get_batch_size. rewrite Hs, size_singleton. simpl.
  destruct batch_sizes as [|b l].
  - simpl in Hs. symmetry in Hs. by apply non_empty_singleton_L in Hs.
  - f_equal. assert (Hb : b ∈ ({[n]} : gset nat)).
    { rewrite <- Hs. apply elem_of_list_to_set. left. }
    by apply elem_of_singleton in Hb.
Qed.

Lemma get_batch_size_broadcast (batch_sizes : list nat) n :
  1 < n ->
  list_to_set (C := gset nat) batch_sizes = {[1; n]} ->
  _get_batch_size batch_sizes = Ok n.
Proof.
  intros Hn Hs. unfold _get_batch_size. rewrite Hs.
  assert (Hsz : base.size ({[1; n]} : gset nat) = 2).
  { rewrite size_union, !size_singleton; [done|].
    apply disjoint_singleton_l. rewrite elem_of_singleton. lia. }
  rewrite Hsz. simpl.
  assert (H1 : 1 ∈ ({[1; n]} : gset nat)).
  { apply elem_of_union_l. by apply elem_of_singleton. }
  assert (Hn' : n ∈ ({[1; n]} : gset nat)).
  { apply elem_of_union_r. by apply elem_of_singleton. }
  destruct (set_min_spec {[1; n]} 1 H1) as [Hmin Hle].
  destruct (set_max_spec {[1; n]} 1 H1) as [Hmax Hge].
  apply elem_of_union in Hmin, Hmax. rewrite !elem_of_singleton in Hmin, Hmax.
  pose proof (Hle 1 H1). pose proof (Hge n Hn').
  assert (set_min ({[1; n]} : gset nat) = 1) as -> by lia.
  simpl. f_equal. lia.
Qed.

Lemma get_batch_size_inconsistent (batch_sizes : list nat) :
  2 ≤ base.size (list_to_set (C := gset nat) batch_sizes) ->
  (∀ n, 1 < n -> list_to_set (C := gset nat) batch_sizes ≠ {[1; n]}) ->
  _get_batch_size batch_sizes = Raise ValueError.
Proof.
  intros Hsz Hne. unfold _get_batch_size.
  rewrite bool_decide_eq_false_2 by lia.
  case_bool_decide as H2; [|done]. simpl.
  case_bool_decide as Hmin; [|done]. exfalso.
  destruct (size_two_min_max _ H2) as [Hlt Heq].
  apply (Hne (set_max (list_to_set batch_sizes))); [lia|].
  by rewrite Hmin in Heq.
Qed.

Ltac step :=
  rewrite st_bind_run;
  cbn [modify_self get_self get lift warn self tensor warned].

Lemma resolve_batch_size_run w :
  _resolve_batch_size w =
    match leading_dims w ≫= _get_batch_size with
    | Ok n => (Ok tt, with_batch_size (Some n) w)
    | Raise e => (Raise e, with_batch_size None w)
    end.
Proof.
  unfold _resolve_batch_size, leading_dims. do 4 step.
  change (batch_variables (set_batch_size None (self w)))
    with (batch_variables (self w)).
  destruct (mapM _ _) as [dims|e]; [|reflexivity].
  step. change (Ok dims ≫= _get_batch_size) with (_get_batch_size dims).
  by destruct (_get_batch_size dims).
Qed.

(** [update], once its assignments are made, resolves the batch size. *)
Lemma update_run input_tensors batch_ignore_mask uv w w1 :
  for_ (default [] input_tensors) (update_one batch_ignore_mask) w = (Ok tt, w1) ->
  update input_tensors batch_ignore_mask uv w =
    match leading_dims w1 ≫= _get_batch_size with
    | Ok n => (Ok tt, with_batch_size (Some n) w1)
    | Raise e => (Raise e, with_batch_size None w1)
    end.
Proof.
  intros Hw. unfold update. rewrite st_bind_run, Hw, st_bind_run.
  rewrite resolve_batch_size_run.
  destruct (leading_dims w1 ≫= _get_batch_size); [|reflexivity].
  by destruct uv.
Qed.

(** C9: let [dims] be the leading dimensions of the tensors that the
    optimization and auxiliary variables hold once [update] has written
    the given tensors. If the set of these dimensions is [{n}], [update]
    returns and the batch size is [n]; if it is [{1, n}] with [n > 1],
    the batch size is [n]; for any other set of two or more values
    [update] raises [ValueError]. *)
Theorem update_resolves_batch_size input_tensors batch_ignore_mask uv w w1 dims :
  for_ (default [] input_tensors) (update_one batch_ignore_mask) w = (Ok tt, w1) ->
  leading_dims w1 = Ok dims ->
  let unique : gset nat := list_to_set dims in
  let r := update input_tensors batch_ignore_mask uv w in
  (∀ n, unique = {[n]} -> r.1 = Ok tt ∧ _batch_size (self r.2) = Some n) ∧
  (∀ n, 1 < n -> unique = {[1; n]} ->
        r.1 = Ok tt ∧ _batch_size (self r.2) = Some n) ∧
  (2 ≤ base.size unique -> (∀ n, 1 < n -> unique ≠ {[1; n]}) ->
   r.1 = Raise ValueError).
Proof.
  intros Hw Hd unique r. subst r. rewrite (update_run _ _ _ _ _ Hw), Hd.
  change (Ok dims ≫= _get_batch_size) with (_get_batch_size dims).
  split; [|split].
  - intros n Hn. by rewrite (get_batch_size_same _ _ Hn).
  - intros n Hn Hu. by rewrite (get_batch_size_broadcast _ _ Hn Hu).
  - intros Hsz Hne. by rewrite (get_batch_size_inconsistent _ Hsz Hne).
Qed.

(** The theorem at three variables of batch size 3, and after an update
    that gives one of them batch size 1, then 2. *)
Lemma update_resolves_batch_size_witness :
  _batch_size (self (update None None true three).2) = Some 3 ∧
  _batch_size
    (self (update (Some [("u"%string, mkTensor [1; 1] [qz 0])]) None true three).2)
    = Some 3 ∧
  (update (Some [("u"%string, mkTensor [2; 1] [qz 0; qz 0])]) None true three).1
    = Raise ValueError.
Proof.
  split; [|split].
  - refine (proj2 (proj1
             (update_resolves_batch_size None None true three three [3; 3; 3]
                eq_refl eq_refl) 3 _)).
    by_computation.
  - refine (proj2 (proj1 (proj2
             (update_resolves_batch_size
                (Some [("u"%string, mkTensor [1; 1] [qz 0])]) None true three
                _ [1; 3; 3] eq_refl eq_refl)) 3 _ _)); [lia|].
    by_computation.
  - refine (proj2 (proj2
             (update_resolves_batch_size
                (Some [("u"%string, mkTensor [2; 1] [qz 0; qz 0])]) None true
                three _ [2; 3; 3] eq_refl eq_refl)) _ _).
    + vm_compute. lia.
    + intros n _ Heq.
      assert (H1 : 1 ∈ (list_to_set [2; 3; 3] : gset nat)).
      { rewrite Heq. apply elem_of_union_l. by apply elem_of_singleton. }
      revert H1. by_computation.
Defined.

(** *** Re-adding and erasing a cost function *)

(** C3: adding the cost function [f] a second time returns with the
    warning, but [f] is appended once more to the adjacency lists of its
    variables and to the list of its weight. Adding another object of
    the same name raises [ValueError]. *)
Theorem readd_duplicates_bookkeeping :
  let r := (add f;; add f) empty in
  r.1 = Ok tt ∧
  warned r.2 = [AlreadyAdded] ∧
  functions_for_optim_vars (self r.2) !! Var.id x
    = Some [CostFn.base f; CostFn.base f] ∧
  functions_for_aux_vars (self r.2) !! Var.id a
    = Some [CostFn.base f; CostFn.base f] ∧
  cost_functions_for_weights (self r.2) = [(weight, [f; f])] ∧
  ((add f;; add f_other) empty).1 = Raise ValueError.
Proof. vm_compute. repeat split. Qed.

(** C6: after [f] was added twice, erasing it, the only cost function,
    leaves its variables registered. After a single [add], [erase]
    removes [x] from the optimization variables but not from
    [_all_variables], and adding [f] again raises [KeyError]. *)
Theorem erase_after_readd_keeps_variables :
  let r := (add f;; add f;; erase "f") empty in
  r.1 = Ok tt ∧
  cost_functions (self r.2) = [] ∧
  od_mem "x" (optim_vars (self r.2)) = true ∧
  od_mem "a" (aux_vars (self r.2)) = true ∧
  let r1 := (add f;; erase "f") empty in
  r1.1 = Ok tt ∧
  od_mem "x" (optim_vars (self r1.2)) = false ∧
  od_mem "x" (_all_variables (self r1.2)) = true ∧
  ((add f;; erase "f";; add f) empty).1 = Raise KeyError.
Proof. vm_compute. repeat split. Qed.

(** *** Temporary updates in [error] *)

(** C4: [error] with [also_update = False] at new tensors for [x] and
    [a] returns the error at these tensors; afterwards the optimization
    variable [x] holds its old tensor again, the auxiliary variable [a]
    holds the new one. *)
Theorem error_does_not_restore_aux_vars :
  let w := (add f empty).2 in
  let input_tensors := [("x"%string, scalar 5); ("a"%string, scalar 7)] in
  let r := error weighted_error (Some input_tensors) false w in
  r.1 = Ok [[(qz 5 - qz 7)%Qc]] ∧
  tensor w (Var.id x) = scalar 1 ∧ tensor r.2 (Var.id x) = scalar 1 ∧
  tensor w (Var.id a) = scalar 2 ∧ tensor r.2 (Var.id a) = scalar 7.
Proof. repeat split. Qed.
End objective.

(** ** Matrix algebra *)

Section sums.
Local Open Scope Qc_scope.

Lemma sumn_ext n f g :
  (∀ k, (k < n)%nat -> f k = g k) -> sumn n f = sumn n g.
Proof.
  induction n as [|n IH]; intros H; simpl; [done|].
  rewrite IH by (intros; apply H; lia). by rewrite H by lia.
Qed.

Lemma sumn_zero n : sumn n (fun _ => Q0) = Q0.
Proof. induction n as [|n IH]; simpl; [done|]. rewrite IH. unfold Q0. ring. Qed.

Lemma sumn_plus n f g :
  sumn n (fun k => f k + g k) = sumn n f + sumn n g.
Proof. induction n as [|n IH]; simpl; [unfold Q0; ring|]. rewrite IH. ring. Qed.

Lemma sumn_scale_l n c f : sumn n (fun k => c * f k) = c * sumn n f.
Proof. induction n as [|n IH]; simpl; [unfold Q0; ring|]. rewrite IH. ring. Qed.

Lemma sumn_scale_r n c f : sumn n (fun k => f k * c) = sumn n f * c.
Proof. induction n as [|n IH]; simpl; [unfold Q0; ring|]. rewrite IH. ring. Qed.

Lemma sumn_swap n m (f : nat -> nat -> Qc) :
  sumn n (fun i => sumn m (fun j => f i j)) =
  sumn m (fun j => sumn n (fun i => f i j)).
Proof.
  induction n as [|n IH]; simpl.
  - by rewrite sumn_zero.
  - by rewrite IH, sumn_plus.
Qed.

(** A sum against a row of the identity picks one term. *)
Lemma sumn_delta n i f :
  (i < n)%nat ->
  sumn n (fun k => (if bool_decide (i = k) then Q1 else Q0) * f k) = f i.
Proof.
  induction n as [|n IH]; intros Hi; [lia|]. simpl.
  destruct (decide (i = n)) as [->|Hne].
  - rewrite bool_decide_eq_true_2 by done.
    rewrite (sumn_ext n _ (fun _ => Q0)).
    + rewrite sumn_zero. unfold Q0, Q1. ring.
    + intros k Hk. rewrite bool_decide_eq_false_2 by lia. unfold Q0. ring.
  - rewrite bool_decide_eq_false_2 by done. rewrite IH by lia. unfold Q0. ring.
Qed.

Lemma sumn_delta_r n j f :
  (j < n)%nat ->
  sumn n (fun k => f k * (if bool_decide (k = j) then Q1 else Q0)) = f j.
Proof.
  intros Hj. rewrite <- (sumn_delta n j f Hj). apply sumn_ext. intros k _.
  destruct (decide (k = j)) as [->|Hne].
  - rewrite !bool_decide_eq_true_2 by done. ring.
  - rewrite !bool_decide_eq_false_2 by done. ring.
Qed.
End sums.

Global Instance mat_eq_equiv : Equivalence mat_eq.
Proof.
  split.
  - by intros A.
  - intros A B (Hr & Hc & He). repeat split; [done..|].
    intros i j Hi Hj. symmetry. apply He; lia.
  - intros A B C (Hr & Hc & He) (Hr' & Hc' & He'). repeat split; [lia..|].
    intros i j Hi Hj. rewrite He by done. apply He'; lia.
Qed.

Lemma mmul_proper A A' B B' :
  ncols A = nrows B -> mat_eq A A' -> mat_eq B B' ->
  mat_eq (mmul A B) (mmul A' B').
Proof.
  intros Hs (Hr & Hc & He) (Hr' & Hc' & He'). repeat split; simpl; [done..|].
  intros i j Hi Hj. rewrite <- Hc. apply sumn_ext. intros k Hk.
  rewrite He, He' by lia. done.
Qed.

Lemma mmul_assoc A B C :
  mat_eq (mmul (mmul A B) C) (mmul A (mmul B C)).
Proof.
  repeat split; simpl; [done..|]. intros i j Hi Hj.
  rewrite (sumn_ext _ _ (fun k => sumn (ncols A)
             (fun l => (at_ A i l * at_ B l k * at_ C k j)%Qc))).
  2: { intros k _. by rewrite sumn_scale_r. }
  rewrite sumn_swap. apply sumn_ext. intros l _.
  rewrite <- sumn_scale_l. apply sumn_ext. intros k _. ring.
Qed.

Lemma transpose_mmul A B :
  ncols A = nrows B ->
  mat_eq (transpose (mmul A B)) (mmul (transpose B) (transpose A)).
Proof.
  intros Hs. repeat split; simpl; [done..|]. intros i j Hi Hj.
  rewrite Hs. apply sumn_ext. intros k _. ring.
Qed.

Lemma transpose_eye n : mat_eq (transpose (eye n)) (eye n).
Proof.
  repeat split; simpl; [done..|]. intros i j Hi Hj.
  destruct (decide (i = j)) as [->|Hne].
  - by rewrite !bool_decide_eq_true_2.
  - by rewrite !bool_decide_eq_false_2.
Qed.

Lemma transpose_proper A B : mat_eq A B -> mat_eq (transpose A) (transpose B).
Proof.
  intros (Hr & Hc & He). repeat split; simpl; [done..|].
  intros i j Hi Hj. apply He; lia.
Qed.

Lemma mmul_eye_l n A : nrows A = n -> mat_eq (mmul (eye n) A) A.
Proof.
  intros <-. repeat split; simpl; [done..|]. intros i j Hi Hj.
  by rewrite sumn_delta.
Qed.

Lemma mmul_eye_r n A : ncols A = n -> mat_eq (mmul A (eye n)) A.
Proof.
  intros <-. repeat split; simpl; [done..|]. intros i j Hi Hj.
  by rewrite sumn_delta_r.
Qed.

(** [mat_eqb] decides [mat_eq]. *)
Lemma mat_eqb_sound A B : mat_eqb A B = true -> mat_eq A B.
Proof.
  unfold mat_eqb. rewrite !andb_true_iff, !bool_decide_eq_true.
  intros [[Hr Hc] He]. repeat split; [done..|]. intros i j Hi Hj.
  unfold to_rows in He. rewrite <- Hr, <- Hc in He.
  assert (Hrow : (at_ A i <$> seq 0 (ncols A)) = (at_ B i <$> seq 0 (ncols A))).
  { apply (f_equal (fun l => l !! i)) in He.
    rewrite !list_lookup_fmap, lookup_seq_lt in He by done. simpl in He.
    by injection He. }
  apply (f_equal (fun l => l !! j)) in Hrow.
  rewrite !list_lookup_fmap, lookup_seq_lt in Hrow by done. simpl in Hrow.
  by injection Hrow.
Qed.

(** ** The Gaussian transforms are inverse to each other *)

(** Pushing a precision [P] forward with the inverse [Ji] of [J] and
    pulling it back with [J] gives [P]. *)
Lemma pull_push d J Ji P :
  is_square d J -> is_square d Ji -> is_square d P ->
  mat_eq (mmul Ji J) (eye d) ->
  mat_eq (mmul (mmul (transpose J) (mmul (mmul (transpose Ji) P) Ji)) J) P.
Proof.
  intros [HJr HJc] [HIr HIc] [HPr HPc] Hinv.
  assert (Ht : mat_eq (mmul (transpose J) (transpose Ji)) (eye d)).
  { rewrite <- transpose_mmul by lia. rewrite <- (transpose_eye d).
    by apply transpose_proper. }
  rewrite mmul_assoc.
  transitivity (mmul (transpose J) (mmul (transpose Ji) P)).
  { apply mmul_proper; [simpl; lia|done|].
    rewrite mmul_assoc. transitivity (mmul (mmul (transpose Ji) P) (eye d)).
    - apply mmul_proper; [simpl; lia|done|done].
    - apply mmul_eye_r. simpl. lia. }
  rewrite <- mmul_assoc.
  transitivity (mmul (eye d) P).
  - apply mmul_proper; [simpl; lia|done|done].
  - by apply mmul_eye_l.
Qed.

Section round_trip.
Import GBP.
Context {Mf : Type} `{!Manifold Mf}.
Context (torch_inverse : Mat -> outcome Mat).

Lemma matmul_ok A B : ncols A = nrows B -> matmul A B = Ok (mmul A B).
Proof. intros H. unfold matmul. by rewrite bool_decide_eq_true_2. Qed.

Lemma bmm_cons A B l k :
  bmm (A :: l) (B :: k) = z ← matmul A B; zs ← bmm l k; mret (z :: zs).
Proof. reflexivity. Qed.

Lemma push_pull_batch d jac inv_jac P :
  Forall3 (inverse_of d) jac inv_jac P ->
  ∃ x prec y lam,
    bmm (btranspose inv_jac) P = Ok x ∧ bmm x inv_jac = Ok prec ∧
    bshape prec = bshape P ∧
    bmm (btranspose jac) prec = Ok y ∧ bmm y jac = Ok lam ∧
    Forall2 mat_eq lam P.
Proof.
  induction 1 as [|J Ji P0 jac inv_jac P Hinv _ IH].
  { exists [], [], [], []. repeat split; constructor. }
  destruct IH as (x & prec & y & lam & Hx & Hprec & Hsh & Hy & Hlam & Heq).
  pose proof Hinv as ([HJr HJc] & [HIr HIc] & [HPr HPc] & _).
  exists (mmul (transpose Ji) P0 :: x),
         (mmul (mmul (transpose Ji) P0) Ji :: prec),
         (mmul (transpose J) (mmul (mmul (transpose Ji) P0) Ji) :: y),
         (mmul (mmul (transpose J) (mmul (mmul (transpose Ji) P0) Ji)) J :: lam).
  unfold btranspose in *. rewrite !fmap_cons, !bmm_cons.
  rewrite !matmul_ok by (simpl; lia).
  rewrite Hx, Hprec, Hy, Hlam. repeat split.
  - simpl. rewrite Hsh. do 2 f_equal; lia.
  - constructor; [|done].
    destruct Hinv as (? & ? & ? & ?). by eapply pull_push.
Qed.

(** C7 (amended): let [p] be a manifold object and [(mean_tp,
    precision_tp)] a tangent-space Gaussian at which [torch.inverse]
    inverts the Jacobian of the exponential map, and let the manifold's
    [local] at [p] undo its [retract] at [p] on [mean_tp]. Then
    [retract_gaussian] at [p], writing into a Gaussian that holds another
    object than [p], followed by [local_gaussian] at [p], returns
    [mean_tp] and [precision_tp]; [p] keeps its value. *)
Theorem gaussian_round_trip (s : nat -> Mf) (p m : nat)
    (mean_tp : BVec) (precision_tp : BMat)
    (out_gauss : InPlace.ManifoldGaussian) (d : nat) :
  (∃ inv_jac,
     mapM torch_inverse (exp_map_jacobian (s p) mean_tp) = Ok inv_jac ∧
     Forall3 (inverse_of d) (exp_map_jacobian (s p) mean_tp) inv_jac
             precision_tp) ->
  local (s p) (retract (s p) mean_tp) = mean_tp ->
  InPlace.mean out_gauss = [m] ->
  m ≠ p ->
  bshape (InPlace.precision out_gauss) = bshape precision_tp ->
  ∃ lam_tp s',
    InPlace.round_trip torch_inverse mean_tp precision_tp p out_gauss s
      = (Ok (mean_tp, lam_tp), s') ∧
    s' p = s p ∧
    Forall2 mat_eq lam_tp precision_tp.
Proof.
  intros (inv_jac & Hinv & Hall) Hlocal Hm Hne Hshape.
  destruct (push_pull_batch _ _ _ _ Hall)
    as (x & prec & y & lam & Hx & Hprec & Hsh & Hy & Hlam & Heq).
  exists lam, (<[m := retract (s p) mean_tp]> s).
  split; [|split; [by apply fn_lookup_insert_ne|done]].
  unfold InPlace.round_trip, InPlace.retract_gaussian.
  rewrite !st_bind_run. cbn [get].
  rewrite st_bind_run. unfold lift at 1. rewrite Hinv.
  rewrite st_bind_run. unfold lift at 1. rewrite Hx.
  rewrite st_bind_run. unfold lift at 1. rewrite Hprec.
  unfold InPlace.update. rewrite Hm.
  rewrite bool_decide_eq_false_2 by (simpl; lia).
  rewrite st_bind_run. cbn [zip zip_with for_ st_bind modify st_ret fst snd].
  rewrite bool_decide_eq_false_2 by (intros Hbad; apply Hbad; congruence).
  cbn [mret st_mret st_ret].
  unfold InPlace.local_gaussian. rewrite st_bind_run. cbn [get lift].
  rewrite fn_lookup_insert_ne by done.
  unfold InPlace.value. cbn [InPlace.mean InPlace.precision fmap list_fmap].
  rewrite fn_lookup_insert.
  unfold local_gaussian. simpl. rewrite Hlocal, Hy. simpl. by rewrite Hlam.
Qed.
End round_trip.

(** The theorem on the vector space in stretched coordinates, for a batch
    of one point of dimension two: the base point is the object at
    address 0, the Gaussian written to holds the object at address 1. *)
Lemma gaussian_round_trip_witness :
  let s : nat -> list (list Qc) := fun _ => [[Scenario.qz 1; Scenario.qz 2]] in
  let mean_tp := [[Scenario.qz 3; Scenario.qz 4]] in
  let precision_tp :=
    [of_rows 2 2 [[Scenario.qz 2; Scenario.qz 1]; [Scenario.qz 1; Scenario.qz 3]]] in
  ∃ lam_tp s',
    InPlace.round_trip (Manifold0 := Scenario.stretched) Euclid.torch_inverse
      mean_tp precision_tp 0 (InPlace.mkGaussian [1] [zeros 2 2]) s
      = (Ok (mean_tp, lam_tp), s') ∧
    s' 0 = s 0 ∧
    Forall2 mat_eq lam_tp precision_tp.
Proof.
  intros s mean_tp precision_tp.
  apply (gaussian_round_trip (Manifold0 := Scenario.stretched)
           Euclid.torch_inverse s 0 1 mean_tp precision_tp _ 2).
  - eexists. split; [reflexivity|].
    constructor; [|constructor].
    repeat split. apply mat_eqb_sound. vm_compute. reflexivity.
  - by_computation.
  - reflexivity.
  - lia.
  - reflexivity.
Defined.

Section round_trip_examples.
Import GBP Euclid Scenario.

(** C7, as stated, fails. (1) On a manifold that wraps around, an
    invertible Jacobian is not enough: from the angle 0, the tangent
    mean 3/4 comes back as -1/4. (2) The Gaussian is written in place:
    when [out_gauss] holds the base point itself, the base point moves
    with the mean, and the tangent mean 2 comes back as 0. *)
Lemma round_trip_not_exact :
  let turn : nat -> list (list Qc) := fun _ => [[qz 0]] in
  let point : nat -> list (list Qc) := fun _ => [[qz 1]] in
  (fun l : list Mat => to_rows <$> l)
    <$> mapM torch_inverse
          (exp_map_jacobian (Manifold := Circle.angle) (turn 0) [[Q2Qc (3 # 4)]])
    = Ok [[[qz 1]]]
  ∧ fst <$> (InPlace.round_trip (Manifold0 := Circle.angle) torch_inverse
               [[Q2Qc (3 # 4)]] [eye 1] 0 (InPlace.mkGaussian [1] [zeros 1 1])
               turn).1
    = Ok [[Q2Qc (-1 # 4)]]
  ∧ fst <$> (InPlace.round_trip (Manifold0 := Circle.angle) torch_inverse
               [[Q2Qc (3 # 4)]] [eye 1] 0 (InPlace.mkGaussian [1] [zeros 1 1])
               turn).1
    ≠ Ok [[Q2Qc (3 # 4)]]
  ∧ fst <$> (InPlace.round_trip (Manifold0 := vector_space) torch_inverse
               [[qz 2]] [eye 1] 0 (InPlace.mkGaussian [0] [zeros 1 1])
               point).1
    = Ok [[qz 0]]
  ∧ fst <$> (InPlace.round_trip (Manifold0 := vector_space) torch_inverse
               [[qz 2]] [eye 1] 0 (InPlace.mkGaussian [1] [zeros 1 1])
               point).1
    = Ok [[qz 2]].
Proof.
  split; [|split; [|split; [|split]]]; by_computation.
Qed.
End round_trip_examples.

(** ** Zero aggregate precision *)

Lemma vcount_nonzero_zeros {A} (l : list A) :
  vcount_nonzero ((fun _ => Q0) <$> l) = 0.
Proof.
  unfold vcount_nonzero. induction l as [|x l IH]; [done|].
  rewrite fmap_cons, filter_cons_False by (intros H; by apply H). apply IH.
Qed.

Lemma count_nonzero_zeros r c : count_nonzero (zeros r c) = 0.
Proof.
  unfold count_nonzero, to_rows. cbn [nrows ncols at_ zeros].
  induction (seq 0 r) as [|i l IH]; [done|].
  rewrite !fmap_cons. cbn [sum_list sum_list_with].
  by rewrite vcount_nonzero_zeros, IH.
Qed.

Lemma bcount_nonzero_zeros b r c :
  bcount_nonzero (replicate b (zeros r c)) = 0.
Proof.
  unfold bcount_nonzero. induction b as [|b IH]; [done|].
  cbn [replicate]. rewrite fmap_cons. cbn [sum_list sum_list_with].
  by rewrite count_nonzero_zeros, IH.
Qed.

Section zero_precision.
Import GBP.
Context {Mf : Type} `{!Manifold Mf}.
Context (torch_inverse np_linalg_inv : Mat -> outcome Mat).

Lemma outgoing_loop_beliefs var taus lams_tp shape edges ix st :
  beliefs (outgoing_loop torch_inverse var taus lams_tp shape edges ix st).2
  = beliefs st.
Proof.
  revert ix st. induction edges as [|j edges IH]; intros ix st; simpl; [done|].
  rewrite st_bind_run. simpl. rewrite st_bind_run. unfold lift at 1.
  destruct (first _) as [msg|e]; [|done].
  rewrite st_bind_run. unfold lift at 1.
  destruct (outgoing_vtof _ _ _ _ _ _ _) as [new|e]; [|done].
  rewrite st_bind_run. simpl. by rewrite IH.
Qed.

(** Processing a variable leaves the beliefs of the others alone. *)
Lemma var_to_fac_one_other var_ix_for_edges ftov_msgs update_belief i i' st :
  i ≠ i' ->
  beliefs (var_to_fac_one torch_inverse var_ix_for_edges ftov_msgs
             update_belief i' st).2 !! i
  = beliefs st !! i.
Proof.
  intros Hne. unfold var_to_fac_one. rewrite st_bind_run. simpl.
  rewrite st_bind_run. unfold lift at 1.
  destruct (first _) as [belief|e]; [|done].
  rewrite st_bind_run. unfold lift at 1.
  destruct (first _) as [var|e]; [|done].
  rewrite st_bind_run. unfold lift at 1.
  destruct (gather _ _ _ _) as [[[[edges taus] lams_tp] shape]|e]; [|done].
  rewrite st_bind_run.
  pose proof (outgoing_loop_beliefs var taus lams_tp shape edges 0 st) as Hb.
  destruct (outgoing_loop _ _ _ _ _ _ _ _) as [[[]|e] st']; simpl in Hb;
    [|simpl; by rewrite Hb].
  destruct (_ && _).
  - rewrite st_bind_run. unfold lift at 1.
    destruct (combine _ _ _ _) as [tau|e]; [|simpl; by rewrite Hb].
    rewrite st_bind_run. unfold lift at 1.
    destruct (retract_gaussian _ _ _ _ _) as [new|e]; [|simpl; by rewrite Hb].
    simpl. rewrite list_lookup_insert_ne by done. by rewrite Hb.
  - simpl. by rewrite Hb.
Qed.

(** A variable whose incoming precisions sum to zero keeps its belief. *)
Lemma var_to_fac_one_zero var_ix_for_edges ftov_msgs update_belief i st
    belief var edges taus lams_tp shape :
  beliefs st !! i = Some belief ->
  first (mean belief) = Ok var ->
  gather var_ix_for_edges ftov_msgs var i = Ok (edges, taus, lams_tp, shape) ->
  bcount_nonzero (bmat_sum shape lams_tp) = 0 ->
  beliefs (var_to_fac_one torch_inverse var_ix_for_edges ftov_msgs
             update_belief i st).2
  = beliefs st.
Proof.
  intros Hb Hv Hg Hz. unfold var_to_fac_one. rewrite st_bind_run. simpl.
  rewrite st_bind_run. unfold lift at 1. rewrite first_drop, Hb.
  rewrite st_bind_run. unfold lift at 1. rewrite Hv.
  rewrite st_bind_run. unfold lift at 1. rewrite Hg.
  rewrite st_bind_run.
  pose proof (outgoing_loop_beliefs var taus lams_tp shape edges 0 st) as Hl.
  destruct (outgoing_loop _ _ _ _ _ _ _ _) as [[[]|e] st']; simpl in Hl; [|done].
  rewrite Hz. rewrite bool_decide_eq_true_2 by done.
  by rewrite andb_false_r.
Qed.

Lemma pass_keeps_belief var_ix_for_edges ftov_msgs update_belief i
    belief var edges taus lams_tp shape l st :
  beliefs st !! i = Some belief ->
  first (mean belief) = Ok var ->
  gather var_ix_for_edges ftov_msgs var i = Ok (edges, taus, lams_tp, shape) ->
  bcount_nonzero (bmat_sum shape lams_tp) = 0 ->
  beliefs (for_ l (var_to_fac_one torch_inverse var_ix_for_edges ftov_msgs
                     update_belief) st).2 !! i
  = Some belief.
Proof.
  intros Hb Hv Hg Hz. revert st Hb.
  induction l as [|i' l IH]; intros st Hb; simpl; [done|].
  unfold st_bind.
  assert (Hstep : beliefs (var_to_fac_one torch_inverse var_ix_for_edges
                             ftov_msgs update_belief i' st).2 !! i = Some belief).
  { destruct (decide (i = i')) as [<-|Hne].
    - by erewrite var_to_fac_one_zero.
    - by rewrite var_to_fac_one_other. }
  destruct (var_to_fac_one _ _ _ _ _ _) as [[[]|e] st']; simpl in Hstep; [|done].
  by apply IH.
Qed.

Lemma pass_var_to_fac_keeps_belief var_ix_for_edges ftov_msgs update_belief i
    belief var edges taus lams_tp shape st :
  beliefs st !! i = Some belief ->
  first (mean belief) = Ok var ->
  gather var_ix_for_edges ftov_msgs var i = Ok (edges, taus, lams_tp, shape) ->
  bcount_nonzero (bmat_sum shape lams_tp) = 0 ->
  beliefs (_pass_var_to_fac_messages torch_inverse var_ix_for_edges ftov_msgs
             update_belief st).2 !! i
  = Some belief.
Proof.
  intros. unfold _pass_var_to_fac_messages. rewrite st_bind_run. simpl.
  by eapply pass_keeps_belief.
Qed.

Lemma outgoing_vtof_zero var taus lams_tp shape ix (msg : ManifoldGaussian Mf) :
  bcount_nonzero (bmat_sum shape (delete ix lams_tp)) = 0 ->
  outgoing_vtof torch_inverse var taus lams_tp shape ix msg
  = Ok (mkGaussian ((zero_data <$> take 1 (mean msg)) ++ drop 1 (mean msg))
                   (bmat_sum shape (delete ix lams_tp))).
Proof.
  intros Hz. unfold outgoing_vtof. by rewrite bool_decide_eq_true_2.
Qed.

Lemma comp_mess_one_zero f vars vtof_msgs ftov_msgs damping v sdim
    new_mess_lam new_mess_eta var_v prev lp_v prev_tp :
  marginalize np_linalg_inv f vars vtof_msgs v sdim
    = Ok (new_mess_lam, new_mess_eta) ->
  count_nonzero new_mess_lam = 0 ->
  vars !! v = Some var_v ->
  ftov_msgs !! v = Some prev ->
  lin_point f !! v = Some lp_v ->
  local_gaussian prev lp_v true = Ok prev_tp ->
  comp_mess_one torch_inverse np_linalg_inv f vars vtof_msgs ftov_msgs
                damping v sdim
  = Ok (mkGaussian [zero_data var_v]
          (replicate (shape0 var_v) (zeros (dof var_v) (dof var_v)))).
Proof.
  intros Hm Hz Hv Hp Hl Hloc. unfold comp_mess_one. rewrite Hm. simpl.
  rewrite !first_drop, Hv, Hp, Hl. simpl. rewrite Hloc.
  destruct prev_tp as [prev_mess_mean prev_mess_lam]. simpl.
  unfold is_zero. rewrite bool_decide_eq_true_2 by done. simpl.
  by rewrite Nat.add_0_r.
Qed.

End zero_precision.

Section uninformative.
Import GBP Euclid Scenario Uninformative.

(** C8: the variable-to-factor pass handles an aggregate precision of
    zero: with an inversion routine that cannot be called, the pass
    returns, the belief (mean 5, precision 3) is as before, and the
    message left on the edge (mean 7, precision 2) is replaced by the
    message with zero mean and zero precision. The factor-to-variable
    pass tests for zero only after the Schur complement is formed, which
    inverts the block of the other variables. For the factor [between]
    and zero incoming messages that block is invertible, and both
    messages are written with zero mean and zero precision. For a factor
    whose precision is zero (the cost function under a cost weight 0)
    and the zero messages a run starts from, [np.linalg.inv] is called
    on the zero block: the pass, and a run of the optimizer, raise
    [LinAlgError]. *)
Theorem zero_factor_block_is_inverted :
  (let r := _pass_var_to_fac_messages never [0] [zero_gaussian] true
              (mkPass [stale] [informed]) in
   r.1 = Ok tt
   ∧ view <$> beliefs r.2 = [([[[qz 5]]], [(1, 1, [[qz 3]])])]
   ∧ view <$> vtof_msgs r.2 = [([[[qz 0]]], [(1, 1, [[qz 0]])])])
  ∧ views (snd <$> _pass_fac_to_var_messages never np_linalg_inv
             [zero_gaussian; zero_gaussian]
             [mkFactor between [[qz 0; qz 0]] [zeros 2 2] [x0; x0]]
             [zero_gaussian; zero_gaussian] [stale; stale]
             [true; true] [qz 0; qz 0] 0)
    = Ok [([[[qz 0]]], [(1, 1, [[qz 0]])]); ([[[qz 0]]], [(1, 1, [[qz 0]])])]
  ∧ views (snd <$> _pass_fac_to_var_messages torch_inverse np_linalg_inv
             [zero_gaussian; zero_gaussian]
             [mkFactor muted [[qz 0; qz 0]] [zeros 2 2] [x0; x0]]
             [zero_gaussian; zero_gaussian] [zero_gaussian; zero_gaussian]
             [true; true] [qz 0; qz 0] 0)
    = Raise LinAlgError
  ∧ views (snd <$> _optimize_impl torch_inverse np_linalg_inv eps [muted]
             no_error params [x0; x0] false false (qz 0) (qz 0)
             (Some (mkSchedule true (synchronous_schedule 3 2))) []
             (fun _ => []))
    = Raise LinAlgError.
Proof.
  split; [split; [|split]|split; [|split]]; by_computation.
Qed.
End uninformative.

(** ** The convergence check *)

Section convergence.
Import GBP.
Context {Mf : Type} `{!Manifold Mf}.
Context (torch_inverse np_linalg_inv : Mat -> outcome Mat).
Context (EPS : Qc).

Lemma check_convergence_lookup params err last_err i e l :
  err !! i = Some e -> last_err !! i = Some l ->
  _check_convergence EPS params err last_err !! i
  = Some (converged_element EPS params err e l).
Proof.
  intros He Hl. unfold _check_convergence, converged_element.
  destruct (mean_abs_below EPS err); simpl.
  - by rewrite list_lookup_fmap, He.
  - by rewrite lookup_zip_with, He, Hl.
Qed.

Lemma mark_converged_lookup converged_indices status i :
  mark_converged converged_indices status !! i
  = (fun s => if default false (converged_indices !! i) then CONVERGED else s)
      <$> status !! i.
Proof. unfold mark_converged. by rewrite list_lookup_imap. Qed.

Lemma mark_converged_idemp c status :
  mark_converged c (mark_converged c status) = mark_converged c status.
Proof.
  apply list_eq. intros i. rewrite !mark_converged_lookup.
  destruct (status !! i) as [s|]; simpl; [|done].
  by destruct (default false (c !! i)).
Qed.

Lemma update_info_status params vars info it_ err converged info' :
  _update_info EPS params vars info it_ err converged = Ok info' ->
  status info'
  = mark_converged (_check_convergence EPS params err (last_err info))
                   (status info)
  ∧ last_err info' = last_err info.
Proof.
  unfold _update_info. intros H.
  destruct (best_solution info) as [sol|]; simpl in H.
  - destruct (best_err info) as [best|]; simpl in H; [|done].
    by injection H as <-.
  - by injection H as <-.
Qed.

(** Round 0 of the loop does not touch the info; a later round that
    completes marks the status with the result of the check on the
    error at the new values of the variables. *)
Lemma iteration_marks cf_ordering error_squared_norm params
    schedule damping dropout draws it_ st go_on st' :
  iteration torch_inverse np_linalg_inv EPS cf_ordering error_squared_norm
            params schedule damping dropout draws it_ st = (Ok go_on, st') ->
  (it_ = 0 -> l_info st' = l_info st) ∧
  (0 < it_ ->
   ∃ vars e,
     current_vars (l_beliefs st') = Ok vars ∧
     error_squared_norm vars = Ok e ∧
     status (l_info st')
     = mark_converged
         (_check_convergence EPS params (half e) (last_err (l_info st)))
         (status (l_info st))).
Proof.
  unfold iteration. intros H.
  rewrite st_bind_run in H. simpl in H.
  rewrite st_bind_run in H. unfold lift at 1 in H.
  destruct (first _) as [row|?]; [|done].
  rewrite st_bind_run in H. unfold lift at 1 in H.
  destruct (_pass_fac_to_var_messages _ _ _ _ _ _ _ _ _) as [[factors ftov]|?];
    [|done].
  rewrite st_bind_run in H. simpl in H.
  rewrite st_bind_run in H.
  destruct (_pass_var_to_fac_messages _ _ _ _ _) as [[[]|?] p]; [|done].
  destruct (decide (0 < it_)) as [Hpos|Hz].
  - rewrite bool_decide_eq_true_2 in H by done.
    rewrite st_bind_run in H. simpl in H.
    rewrite st_bind_run in H. unfold lift at 1 in H.
    destruct (current_vars _) as [vars|?] eqn:Hvars; [|done].
    rewrite st_bind_run in H. unfold lift at 1 in H.
    destruct (error_squared_norm vars) as [e|?] eqn:He; [|done].
    rewrite st_bind_run in H. unfold lift at 1 in H.
    destruct (_update_info _ _ _ _ _ _ _) as [info|?] eqn:Hinfo; [|done].
    apply update_info_status in Hinfo as [Hst Hlast]. simpl in Hst, Hlast.
    split; [lia|]. intros _. exists vars, e.
    destruct (_ && _); rewrite st_bind_run in H; simpl in H;
      injection H as _ <-; simpl; (split; [done|split; [done|]]);
      by rewrite Hst, Hlast, mark_converged_idemp.
  - rewrite bool_decide_eq_false_2 in H by done. simpl in H.
    injection H as _ <-. split; [done|lia].
Qed.

(** C2 (amended): the check marks every batch element converged when
    the mean of [|err|] over the batch is below [EPS]; otherwise it
    marks element [i] exactly when [|prevErr_i - err_i| < absTol] or
    [|prevErr_i - err_i| / prevErr_i < relTol], the latter being false
    for a zero [prevErr_i]. A marked element becomes [CONVERGED], the
    others keep their status. Round 0 of the loop makes no check; every
    later round that completes marks the elements by the check on the
    error at the new variable values and the previous error. *)
Theorem convergence_check_marks :
  (∀ params err last_err i e l,
     err !! i = Some e -> last_err !! i = Some l ->
     _check_convergence EPS params err last_err !! i
     = Some (mean_abs_below EPS err
             || bool_decide (Qc_abs (l - e) < abs_err_tolerance params)%Qc
             || div_lt (Qc_abs (l - e)%Qc) l (rel_err_tolerance params))) ∧
  (∀ converged_indices status i s,
     status !! i = Some s ->
     mark_converged converged_indices status !! i
     = Some (if default false (converged_indices !! i) then CONVERGED else s)) ∧
  (∀ cf_ordering error_squared_norm params schedule damping dropout draws
     it_ st go_on st',
     iteration torch_inverse np_linalg_inv EPS cf_ordering error_squared_norm
               params schedule damping dropout draws it_ st = (Ok go_on, st') ->
     (it_ = 0 -> l_info st' = l_info st) ∧
     (0 < it_ ->
      ∃ vars e,
        current_vars (l_beliefs st') = Ok vars ∧
        error_squared_norm vars = Ok e ∧
        status (l_info st')
        = mark_converged
            (_check_convergence EPS params (half e) (last_err (l_info st)))
            (status (l_info st)))).
Proof.
  split; [|split].
  - intros. by apply check_convergence_lookup.
  - intros c status i s Hs. by rewrite mark_converged_lookup, Hs.
  - intros. by eapply iteration_marks.
Qed.
End convergence.

Section convergence_examples.
Import GBP Euclid Scenario.

(** C2, as stated, fails: in a batch with errors 0 and 10 after errors
    100 and 100, the first element has [|err| < EPS] and is not marked. *)
Lemma check_convergence_not_elementwise :
  _check_convergence eps params [qz 0; qz 10] [qz 100; qz 100] !! 0 = Some false ∧
  converged_as_specified eps params (qz 0) (qz 100) = true.
Proof. vm_compute. split; reflexivity. Qed.

(** The theorem on a batch of two, and on round 1 of the loop for the
    scalar prior. *)
Lemma convergence_check_marks_witness :
  _check_convergence eps params [qz 0; qz 10] [qz 100; qz 100] !! 1
  = Some (mean_abs_below eps [qz 0; qz 10]
          || bool_decide (Qc_abs (qz 100 - qz 10) < abs_err_tolerance params)%Qc
          || div_lt (Qc_abs (qz 100 - qz 10)%Qc) (qz 100)
                    (rel_err_tolerance params)) ∧
  mark_converged [true; false] [START; START] !! 0 = Some CONVERGED ∧
  let st' :=
    (iteration torch_inverse np_linalg_inv eps [prior 3] squared_error params
               (replicate 3 [false]) (qz 0) (qz 0) (fun _ => []) 1 loop_start).2 in
  ∃ vars e,
    current_vars (l_beliefs st') = Ok vars ∧
    squared_error vars = Ok e ∧
    status (l_info st')
    = mark_converged
        (_check_convergence eps params (half e) (last_err (l_info loop_start)))
        (status (l_info loop_start)).
Proof.
  pose proof (convergence_check_marks (Mf := list (list Qc))
                torch_inverse np_linalg_inv eps) as (Hcheck & Hmark & Hloop).
  split; [|split].
  - by apply Hcheck.
  - by apply (Hmark [true; false] [START; START] 0 START).
  - intros st'.
    refine (proj2 (Hloop [prior 3] squared_error params (replicate 3 [false])
                     (qz 0) (qz 0) (fun _ => []) 1 loop_start true st' _) _).
    + reflexivity.
    + lia.
Defined.
End convergence_examples.

(** ** The schedule and the batch dimension in the factor-to-variable pass *)

Section factor_to_variable.
Import GBP Euclid Scenario.

Lemma pass_fac_to_var_any_schedule {Mf} `{!Manifold Mf} ti npi
    (beliefs : list (ManifoldGaussian Mf)) factors vtof ftov s1 s2 damping start :
  _pass_fac_to_var_messages ti npi beliefs factors vtof ftov s1 damping start
  = _pass_fac_to_var_messages ti npi beliefs factors vtof ftov s2 damping start.
Proof.
  revert ftov start. induction factors as [|f fs IH]; intros ftov start; [done|].
  simpl. destruct (optim_vars _ _) as [vars|]; [|done]. simpl.
  destruct (linearize _ _ _ _) as [f'|]; [|done]. simpl.
  destruct (comp_mess _ _ _ _ _ _ _) as [new|]; [|done]. simpl.
  by rewrite IH.
Qed.

(** C1: the pass does not read the schedule: it returns the same
    factors and messages for any two schedule rows. For the scalar
    prior with target 3, whose only edge is inactive in the schedule,
    the zero message on the edge is overwritten by the message with
    mean 3 and precision 1, and a run of the optimizer with a schedule
    in which no edge is ever active moves the variable from 0 to 3. *)
Theorem fac_to_var_pass_ignores_schedule :
  (∀ Mf (H : Manifold Mf) ti npi (beliefs : list (ManifoldGaussian Mf))
     factors vtof ftov s1 s2 damping start,
     _pass_fac_to_var_messages ti npi beliefs factors vtof ftov s1 damping start
     = _pass_fac_to_var_messages ti npi beliefs factors vtof ftov s2 damping start)
  ∧ view zero_gaussian = ([[[qz 0]]], [(1, 1, [[qz 0]])])
  ∧ views (snd <$> _pass_fac_to_var_messages torch_inverse np_linalg_inv
             [zero_gaussian] [prior_factor] [zero_gaussian] [zero_gaussian]
             [false] [qz 0] 0)
    = Ok [([[[qz 3]]], [(1, 1, [[qz 1]])])]
  ∧ views (snd <$> _optimize_impl torch_inverse np_linalg_inv eps [prior 3]
             squared_error params [x0] false false (qz 0) (qz 0)
             (Some (mkSchedule true (replicate 3 [false]))) [] (fun _ => []))
    = Ok [([[[qz 3]]], [(1, 1, [[qz 1]])])].
Proof.
  split; [|split; [|split]].
  - intros. apply pass_fac_to_var_any_schedule.
  - by_computation.
  - by_computation.
  - by_computation.
Qed.

(** C5: [comp_mess] reads the potential of the factor at batch element
    0 only: the message it computes is the same whatever the other
    batch elements of the potential are. For a batch of two scalars the
    call raises when the first element carries information (the
    message has a batch of one); when the first element carries none,
    both elements of the message are zero although the second element
    of the potential has precision 1 and information 5. *)
Theorem comp_mess_reads_first_batch_element :
  (∀ Mf (H : Manifold Mf) ti npi cf0 e0 l0 etas lams etas' lams' lp
     (vars : list Mf) vtof ftov damping v sdim,
     comp_mess_one ti npi (mkFactor cf0 (e0 :: etas) (l0 :: lams) lp)
                   vars vtof ftov damping v sdim
     = comp_mess_one ti npi (mkFactor cf0 (e0 :: etas') (l0 :: lams') lp)
                     vars vtof ftov damping v sdim)
  ∧ views (f ← new_factor (prior 3) [x2];
           comp_mess torch_inverse np_linalg_inv f [x2]
                     [zero_gaussian2] [zero_gaussian2] [qz 0])
    = Raise ValueError
  ∧ views (comp_mess torch_inverse np_linalg_inv
             (mkFactor (prior 3) [[qz 0]; [qz 5]] [zeros 1 1; eye 1] [x2])
             [x2] [zero_gaussian2] [zero_gaussian2] [qz 0])
    = Ok [([[[qz 0]; [qz 0]]], [(1, 1, [[qz 0]]); (1, 1, [[qz 0]])])].
Proof.
  split; [|split].
  - reflexivity.
  - by_computation.
  - by_computation.
Qed.
End factor_to_variable.

(** ** Frame conditions and error behaviour of the problem graph *)

Section frames.
Import Objective Scenario.

Lemma preserves_ret {A X} (g : World -> X) (a : A) : preserves g (mret a).
Proof. by intros w. Qed.

Lemma preserves_raise {A X} (g : World -> X) e : preserves g (raise e : M A).
Proof. by intros w. Qed.

Lemma preserves_lift {A X} (g : World -> X) (r : outcome A) : preserves g (lift r).
Proof. by intros w. Qed.

Lemma preserves_get_self {X} (g : World -> X) : preserves g get_self.
Proof. by intros w. Qed.

Lemma preserves_get {X} (g : World -> X) : preserves g (get : M World).
Proof. by intros w. Qed.

Lemma preserves_get_tensor {X} (g : World -> X) v : preserves g (get_tensor v).
Proof. by intros w. Qed.

Lemma preserves_bind {A B X} (g : World -> X) (c : M A) (k : A -> M B) :
  preserves g c -> (∀ a, preserves g (k a)) -> preserves g (c ≫= k).
Proof.
  intros Hc Hk w. rewrite st_bind_run. specialize (Hc w).
  destruct (c w) as [[a|e] w']; simpl in *; [|done].
  by rewrite Hk.
Qed.

Lemma preserves_for {A X} (g : World -> X) (l : list A) (body : A -> M unit) :
  (∀ x, preserves g (body x)) -> preserves g (for_ l body).
Proof.
  intros Hb. induction l as [|x l IH]; [apply preserves_ret|].
  apply (preserves_bind g (body x) (fun _ => for_ l body)); auto.
Qed.

(** A leaf of a computation: a write that does not reach the observed
    part of the world. *)
Ltac preserves_leaf :=
  let w := fresh "w" in
  intros w; destruct w as [[] ? ?]; cbn;
  repeat match goal with
         | |- context [self_vars_of_this_type ?a ?b] => destruct a, b; cbn
         | |- context [set_vars_in ?c] => destruct c; cbn
         | |- context [set_var_to_fn_map ?b] => destruct b; cbn
         end;
  reflexivity.

Ltac preserves :=
  repeat first
    [ match goal with
      | H : preserves ?g ?c |- preserves ?g ?c => exact H
      | H : ∀ a, preserves ?g (?c a) |- preserves ?g (?c _) => apply H
      | H : ∀ a b, preserves ?g (?c a b) |- preserves ?g (?c _ _) => apply H
      | H : ∀ a b c', preserves ?g (?c a b c') |- preserves ?g (?c _ _ _) =>
          apply H
      | H : ∀ a b c' d, preserves ?g (?c a b c' d)
        |- preserves ?g (?c _ _ _ _) => apply H
      end
    | apply preserves_ret | apply preserves_raise | apply preserves_lift
    | apply preserves_get_self | apply preserves_get | apply preserves_get_tensor
    | apply preserves_bind; [|intros]
    | apply preserves_for; intros
    | match goal with
      | |- preserves _ (match ?x with _ => _ end) => destruct x
      | |- preserves _ (if ?x then _ else _) => destruct x
      | |- preserves _ (let '(_, _) := ?x in _) => destruct x
      | |- preserves _ (modify_self _) => solve [preserves_leaf]
      | |- preserves _ (warn _) => solve [preserves_leaf]
      | |- preserves _ (set_tensor _ _) => solve [preserves_leaf]
      end ].

Lemma add_function_variables_tensor f b1 b2 :
  preserves tensor (_add_function_variables f b1 b2).
Proof.
  unfold _add_function_variables, _add_function_variable. preserves.
Qed.

Lemma erase_function_variables_tensor f b1 b2 :
  preserves tensor (_erase_function_variables f b1 b2).
Proof.
  unfold _erase_function_variables, _erase_function_variable. preserves.
Qed.

Lemma add_tensor cf : preserves tensor (add cf).
Proof.
  pose proof add_function_variables_tensor.
  unfold add. preserves.
Qed.

Lemma erase_tensor name : preserves tensor (erase name).
Proof.
  pose proof erase_function_variables_tensor.
  unfold erase. preserves.
Qed.


(** What a continuation preserves is, after a bind, what the first
    computation left. *)
Lemma preserved_after {A B X} (g : World -> X) (c : M A) (k : A -> M B) w :
  (∀ a, preserves g (k a)) -> g ((c ≫= k) w).2 = g (c w).2.
Proof.
  intros Hk. rewrite st_bind_run.
  destruct (c w) as [[a|e] w']; simpl; [apply Hk|done].
Qed.

(** *** Dictionary lemmas *)

Lemma od_get_set {V} k (v : V) d : od_get k (od_set k v d) = Some v.
Proof.
  induction d as [|[k' v'] d IH]; simpl.
  - by rewrite decide_True.
  - destruct (decide (k = k')) as [->|Hne]; simpl.
    + by rewrite decide_True.
    + by rewrite decide_False.
Qed.

Lemma od_get_set_ne {V} k k' (v : V) d :
  k ≠ k' -> od_get k (od_set k' v d) = od_get k d.
Proof.
  intros Hne. induction d as [|[k'' v''] d IH]; simpl.
  - by rewrite decide_False.
  - destruct (decide (k' = k'')) as [->|Hne']; simpl.
    + by rewrite !decide_False.
    + destruct (decide (k = k'')); auto.
Qed.

Lemma od_get_None {V} k (d : list (string * V)) :
  od_get k d = None <-> k ∉ od_keys d.
Proof.
  unfold od_keys. induction d as [|[k' v'] d IH]; simpl.
  - split; [intros _; apply not_elem_of_nil|done].
  - rewrite not_elem_of_cons. destruct (decide (k = k')) as [->|Hne].
    + split; [done|]. by intros [? _].
    + rewrite IH. tauto.
Qed.

Lemma od_get_del {V} k (d : list (string * V)) :
  NoDup (od_keys d) -> od_get k (od_del k d) = None.
Proof.
  unfold od_keys. induction d as [|[k' v'] d IH]; simpl; [done|].
  intros Hnd. pose proof (NoDup_cons_1_1 _ _ Hnd) as Hk'.
  apply NoDup_cons_1_2 in Hnd.
  destruct (decide (k = k')) as [->|Hne]; simpl.
  - by apply od_get_None.
  - rewrite decide_False by done. auto.
Qed.

Lemma od_get_NoDup {V} k (v : V) d :
  NoDup (od_keys d) -> (k, v) ∈ d -> od_get k d = Some v.
Proof.
  unfold od_keys. induction d as [|[k' v'] d IH]; simpl.
  - by intros _ ?%elem_of_nil.
  - intros Hnd. pose proof (NoDup_cons_1_1 _ _ Hnd) as Hk'.
  apply NoDup_cons_1_2 in Hnd.
    intros [Heq|Hin]%elem_of_cons.
    + injection Heq as -> ->. by rewrite decide_True.
    + destruct (decide (k = k')) as [->|Hne]; [|auto].
      exfalso. apply Hk'. apply list_elem_of_fmap. by exists (k', v).
Qed.

(** *** [add] *)

Lemma is_ok_bind {A B} (c : M A) (k : A -> M B) w :
  (∀ a w', c w = (Ok a, w') -> is_ok (k a w').1 = false) ->
  is_ok ((c ≫= k) w).1 = false.
Proof.
  intros Hk. rewrite st_bind_run.
  destruct (c w) as [[a|e] w'] eqn:E; [by apply Hk|done].
Qed.

Lemma is_ok_bind_l {A B} (c : M A) (k : A -> M B) w :
  is_ok (c w).1 = false -> is_ok ((c ≫= k) w).1 = false.
Proof.
  intros Hc. apply is_ok_bind. intros a w' E. by rewrite E in Hc.
Qed.

(** Where a computation returned, what it preserves is unchanged. *)
Lemma preserved_run {A X} (g : World -> X) (c : M A) w r w' :
  preserves g c -> c w = (r, w') -> g w' = g w.
Proof. intros Hc E. specialize (Hc w). by rewrite E in Hc. Qed.

(** A loop raises when one of its rounds raises wherever it is reached. *)
Lemma for_raises {A} (P : World -> Prop) (l : list A) (body : A -> M unit) x w :
  x ∈ l ->
  (∀ y w, P w -> P (body y w).2) ->
  (∀ w, P w -> is_ok (body x w).1 = false) ->
  P w -> is_ok (for_ l body w).1 = false.
Proof.
  intros Hin Hinv Hx. revert w.
  induction l as [|y l IH]; intros w HP; [by apply elem_of_nil in Hin|].
  change (for_ (y :: l) body) with (body y ≫= fun _ => for_ l body).
  apply elem_of_cons in Hin as [->|Hin].
  - apply is_ok_bind_l. by apply Hx.
  - apply is_ok_bind. intros a w' E. apply IH; [done|].
    specialize (Hinv y w HP). by rewrite E in Hinv.
Qed.

(** The loops over the variables of a function write the variable
    registries and the adjacency maps, and nothing else. *)
Lemma add_function_variables_frame f b1 b2 :
  preserves (fun w => (cost_functions (self w),
                       cost_functions_for_weights (self w),
                       _batch_size (self w), dtype (self w),
                       _allow_mixed_optim_aux_vars (self w), tensor w))
            (_add_function_variables f b1 b2).
Proof.
  unfold _add_function_variables, _add_function_variable. preserves.
Qed.

Lemma erase_function_variables_frame f b1 b2 :
  preserves (fun w => (cost_functions (self w),
                       cost_functions_for_weights (self w),
                       _all_variables (self w),
                       _batch_size (self w), dtype (self w),
                       _allow_mixed_optim_aux_vars (self w), tensor w))
            (_erase_function_variables f b1 b2).
Proof.
  unfold _erase_function_variables, _erase_function_variable. preserves.
Qed.

(** Reads one component off a frame lemma. *)
Ltac from_frame H :=
  let w := fresh "w" in
  let Hf := fresh "Hf" in
  intros w; pose proof (H w) as Hf; cbv beta in Hf; by injection Hf.

(** The cost functions registered after the first step of [add] are
    those registered when [add] is left. *)
Lemma add_cost_functions cf w :
  name_collision cf (self w) = false ->
  cost_functions (self (add cf w).2) =
    match od_get (Fn.name cf) (cost_functions (self w)) with
    | Some _ => cost_functions (self w)
    | None => od_set (Fn.name cf) cf (cost_functions (self w))
    end.
Proof.
  intros Hc. unfold name_collision in Hc.
  assert (∀ f b1 b2, preserves (fun w => cost_functions (self w))
                       (_add_function_variables f b1 b2)) as Hv.
  { intros f b1 b2. from_frame (add_function_variables_frame f b1 b2). }
  unfold add. rewrite st_bind_run. simpl.
  destruct (od_get _ _) as [registered|].
  - destruct (CostFn.same _ _); [|done].
    rewrite (preserved_after (fun w => cost_functions (self w)));
      [done|]. intros; preserves.
  - rewrite (preserved_after (fun w => cost_functions (self w)));
      [done|]. intros; preserves.
Qed.

(** X1. Unless another cost function object has its name, a cost function
    is registered under its name when [add] is left, whether [add]
    returns or raises; the cost functions of other names are the ones
    registered before. *)
Theorem add_registers_cost_function cf w :
  name_collision cf (self w) = false ->
  (∃ registered,
     od_get (Fn.name cf) (cost_functions (self (add cf w).2)) = Some registered
     ∧ CostFn.same cf registered = true)
  ∧ ∀ name, name ≠ Fn.name cf ->
      od_get name (cost_functions (self (add cf w).2))
      = od_get name (cost_functions (self w)).
Proof.
  intros Hc. rewrite add_cost_functions by done. unfold name_collision in Hc.
  destruct (od_get (Fn.name cf) _) as [registered|] eqn:E.
  - split; [|done]. exists registered. split; [done|].
    by destruct (CostFn.same _ _).
  - split.
    + exists cf. rewrite od_get_set. split; [done|].
      unfold CostFn.same, Fn.same. by apply bool_decide_eq_true_2.
    + intros name Hne. by apply od_get_set_ne.
Qed.

Lemma add_registers_cost_function_witness :
  (∃ registered,
     od_get (Fn.name f) (cost_functions (self (add f empty).2)) = Some registered
     ∧ CostFn.same f registered = true)
  ∧ ∀ name, name ≠ Fn.name f ->
      od_get name (cost_functions (self (add f empty).2))
      = od_get name (cost_functions (self empty)).
Proof. apply (add_registers_cost_function f empty). reflexivity. Defined.

(** X2. A cost function whose name is registered for another cost
    function object is rejected with [ValueError], and nothing is
    written: the world after the call is the world before it. *)
Theorem add_rejects_name_collision cf w :
  name_collision cf (self w) = true ->
  add cf w = (Raise ValueError, w).
Proof. apply add_name_collision. Qed.

Lemma add_rejects_name_collision_witness :
  add f_other (add f empty).2 = (Raise ValueError, (add f empty).2).
Proof. apply (add_rejects_name_collision f_other (add f empty).2). reflexivity. Defined.

Lemma add_frame cf :
  preserves (fun w => (tensor w, _batch_size (self w), dtype (self w))) (add cf).
Proof.
  assert (∀ f b1 b2,
            preserves (fun w => (tensor w, _batch_size (self w), dtype (self w)))
              (_add_function_variables f b1 b2)) as Ha.
  { intros f b1 b2 w. pose proof (add_function_variables_frame f b1 b2 w) as Hf.
    cbv beta in Hf. injection Hf as _ _ Hb Hd _ Ht. by rewrite Hb, Hd, Ht. }
  unfold add. preserves.
Qed.

Lemma erase_frame name :
  preserves (fun w => (tensor w, _batch_size (self w), dtype (self w)))
            (erase name).
Proof.
  assert (∀ f b1 b2,
            preserves (fun w => (tensor w, _batch_size (self w), dtype (self w)))
              (_erase_function_variables f b1 b2)) as He.
  { intros f b1 b2 w. pose proof (erase_function_variables_frame f b1 b2 w) as Hf.
    cbv beta in Hf. injection Hf as _ _ _ Hb Hd _ Ht. by rewrite Hb, Hd, Ht. }
  unfold erase. preserves.
Qed.

(** X3. [add] and [erase] write no tensor, and they leave the batch size
    and the dtype of the objective as they are, whether they return or
    raise. *)
Theorem add_and_erase_write_no_tensor :
  (∀ cf, preserves (fun w => (tensor w, _batch_size (self w), dtype (self w)))
           (add cf)) ∧
  (∀ name, preserves (fun w => (tensor w, _batch_size (self w), dtype (self w)))
             (erase name)).
Proof. split; [apply add_frame|apply erase_frame]. Qed.

(** X4. A cost function whose cost weight is not yet registered and has
    optimization variables is never added successfully: [add] raises. *)
Theorem add_rejects_weight_with_optim_vars cf w :
  weights_get (CostFn.weight cf) (cost_functions_for_weights (self w)) = None ->
  0 < Fn.num_optim_vars (CostFn.weight cf) ->
  is_ok (add cf w).1 = false.
Proof.
  intros Hw Hn.
  set (g := fun w : World => cost_functions_for_weights (self w)).
  assert (∀ f b1 b2, preserves g (_add_function_variables f b1 b2)) as Hv.
  { intros f b1 b2. from_frame (add_function_variables_frame f b1 b2). }
  unfold add.
  apply is_ok_bind. intros o w0 [= <- <-].
  apply is_ok_bind. intros [] w1 E1.
  assert (g w1 = g w) as H1. { eapply preserved_run; [|exact E1]. preserves. }
  apply is_ok_bind. intros [] w2 E2.
  assert (g w2 = g w1) as H2. { eapply preserved_run; [|exact E2]. preserves. }
  apply is_ok_bind. intros [] w3 E3.
  assert (g w3 = g w2) as H3. { eapply preserved_run; [|exact E3]. preserves. }
  apply is_ok_bind. intros [] w4 E4.
  assert (g w4 = g w3) as H4. { eapply preserved_run; [|exact E4]. preserves. }
  apply is_ok_bind. intros o w5 [= <- <-].
  change (cost_functions_for_weights (self w4)) with (g w4).
  rewrite H4, H3, H2, H1. unfold g at 1. rewrite Hw.
  apply is_ok_bind_l.
  apply is_ok_bind. intros [] w5 _.
  apply is_ok_bind. intros [] w6 _.
  apply is_ok_bind. intros [] w7 _.
  by rewrite bool_decide_eq_true_2.
Qed.

Lemma add_rejects_weight_with_optim_vars_witness :
  is_ok (add (CostFn.mk (Fn.mk 14 "g" [x] []) (Fn.mk 13 "wx" [x] [])) empty).1
  = false.
Proof.
  apply (add_rejects_weight_with_optim_vars
           (CostFn.mk (Fn.mk 14 "g" [x] []) (Fn.mk 13 "wx" [x] [])) empty).
  - reflexivity.
  - unfold Fn.num_optim_vars. simpl. lia.
Defined.

(** X5. A cost function with an unnamed variable, or with a variable
    whose dtype is not the objective's, among its optimization or
    auxiliary variables is never added successfully: [add] raises. *)
Theorem add_rejects_unnamed_and_mistyped_variables (cf : CostFn.t) w v :
  v ∈ Fn.optim_vars cf ++ Fn.aux_vars cf ->
  Var.name v = None ∨ Var.dtype v ≠ dtype (self w) ->
  is_ok (add cf w).1 = false.
Proof.
  intros Hin Hv.
  set (g := fun w : World => dtype (self w)).
  assert (∀ f b1 b2 y, preserves g (_add_function_variable f b1 b2 y)) as Hy.
  { intros f b1 b2 y. unfold _add_function_variable. preserves. }
  assert (∀ (f : Fn.t) (b1 b2 : bool) w',
            g w' = g w -> v ∈ (if b1 then Fn.optim_vars f else Fn.aux_vars f) ->
            is_ok (_add_function_variables f b1 b2 w').1 = false) as Hloop.
  { intros f b1 b2 w' Hg Hinf. unfold _add_function_variables.
    apply (for_raises (fun w' => g w' = g w) _ _ v); [done| | |done].
    - intros y w'' Hw''. by rewrite Hy.
    - intros w'' Hw''. unfold _add_function_variable.
      destruct Hv as [->|Hd]; [done|].
      destruct (Var.name v); [|done].
      apply is_ok_bind. intros o w0 [= <- <-].
      apply is_ok_bind_l. rewrite bool_decide_eq_false_2; [done|].
      change (dtype (self w'')) with (g w''). by rewrite Hw''. }
  unfold add.
  apply is_ok_bind. intros o w0 [= <- <-].
  apply is_ok_bind. intros [] w1 E1.
  assert (g w1 = g w) as H1. { eapply preserved_run; [|exact E1]. preserves. }
  apply is_ok_bind. intros [] w2 E2.
  assert (g w2 = g w1) as H2. { eapply preserved_run; [|exact E2]. preserves. }
  apply elem_of_app in Hin as [Hin|Hin].
  - apply is_ok_bind_l. apply Hloop; [congruence|done].
  - apply is_ok_bind. intros [] w3 E3.
    assert (g w3 = g w2) as H3.
    { eapply preserved_run; [|exact E3].
      unfold _add_function_variables. preserves. }
    apply is_ok_bind_l. apply Hloop; [congruence|done].
Qed.

Lemma add_rejects_unnamed_and_mistyped_variables_witness :
  is_ok (add (CostFn.mk (Fn.mk 15 "h" [x] [Var.mk 3 None float32]) weight)
             empty).1 = false.
Proof.
  apply (add_rejects_unnamed_and_mistyped_variables
           (CostFn.mk (Fn.mk 15 "h" [x] [Var.mk 3 None float32]) weight)
           empty (Var.mk 3 None float32)).
  - simpl. apply elem_of_cons. right. apply elem_of_cons. by left.
  - left. reflexivity.
Defined.

(** *** [erase] *)

(** Runs the first computation of a bind, recording that it preserves
    the observation [g]. *)
Ltac run g :=
  rewrite st_bind_run;
  match goal with
  | |- context [match ?c ?w with _ => _ end] =>
      let E := fresh "E" in
      let Hp := fresh "Hp" in
      let w' := fresh "w" in
      assert (Hp : preserves g c) by preserves;
      specialize (Hp w); destruct (c w) as [[?|?] w'] eqn:E; simpl in Hp
  end.

(** X6. Erasing a name that is not registered raises nothing: it emits one
    warning and changes nothing but the version counter. *)
Theorem erase_absent name w :
  od_get name (cost_functions (self w)) = None ->
  erase name w =
    (Ok tt,
     mkWorld (set_current_version (current_version (self w) + 1) (self w))
             (tensor w) (warned w ++ [NotInObjective])).
Proof.
  intros Hn. unfold erase. rewrite st_bind_run. cbn [modify_self].
  rewrite st_bind_run.
  cbn [get_self self cost_functions set_current_version]. by rewrite Hn.
Qed.

Lemma erase_absent_witness :
  erase "f" empty =
    (Ok tt,
     mkWorld (set_current_version (current_version (self empty) + 1) (self empty))
             (tensor empty) (warned empty ++ [NotInObjective])).
Proof. apply (erase_absent "f" empty). reflexivity. Defined.

(** X7. [erase] takes the cost function out of the registry as its last
    step: when it returns, the name is no longer registered; when it
    raises, the registry of cost functions is the one before the call. *)
Theorem erase_unregisters name w :
  NoDup (od_keys (cost_functions (self w))) ->
  match (erase name w).1 with
  | Ok _ => od_get name (cost_functions (self (erase name w).2)) = None
  | Raise _ => cost_functions (self (erase name w).2) = cost_functions (self w)
  end.
Proof.
  intros Hnd.
  set (g := fun w : World => cost_functions (self w)).
  assert (∀ f b1 b2, preserves g (_erase_function_variables f b1 b2)) as Hv.
  { intros f b1 b2. from_frame (erase_function_variables_frame f b1 b2). }
  unfold erase.
  run g; [|done]. rewrite st_bind_run. cbn [get_self].
  change (cost_functions (self w0)) with (g w0). rewrite Hp.
  destruct (od_get name (g w)) as [cost_function|] eqn:Hget.
  2:{ cbn. change (cost_functions (self w0)) with (g w0). by rewrite Hp. }
  run g; [|cbn; unfold g in *; congruence].
  run g; [|cbn; unfold g in *; congruence].
  rewrite st_bind_run. cbn [get_self].
  destruct (weights_get _ _) as [l|]; [|cbn; unfold g in *; congruence].
  destruct (index_of _ _ _) as [cost_fn_idx|]; [|cbn; unfold g in *; congruence].
  run g; [|cbn; unfold g in *; congruence].
  run g; [|cbn; unfold g in *; congruence].
  cbn. change (cost_functions (self w4)) with (g w4).
  rewrite Hp3, Hp2, Hp1, Hp0, Hp. by apply od_get_del.
Qed.

Lemma erase_unregisters_witness :
  match (erase "f" (add f empty).2).1 with
  | Ok _ =>
      od_get "f" (cost_functions (self (erase "f" (add f empty).2).2)) = None
  | Raise _ =>
      cost_functions (self (erase "f" (add f empty).2).2)
      = cost_functions (self (add f empty).2)
  end.
Proof.
  apply (erase_unregisters "f" (add f empty).2).
  simpl. apply NoDup_cons_2; [apply not_elem_of_nil|apply NoDup_nil_2].
Defined.

(** *** [update] *)

Lemma update_one_self mask item : preserves self (update_one mask item).
Proof.
  destruct item as [var_name x]. unfold update_one, Variable_update. preserves.
Qed.

Lemma update_one_outcome mask item w :
  (update_one mask item w).1
  = if bool_decide (ndim item.2 < 2) then Raise ValueError else Ok tt.
Proof.
  destruct item as [var_name x]. unfold update_one, Variable_update. simpl.
  destruct (bool_decide (ndim x < 2)); [done|].
  rewrite st_bind_run. cbn [get_self].
  destruct (od_get var_name (optim_vars (self w))) as [v|];
    [by destruct mask as [mask|]; [destruct (existsb id mask)|]|].
  destruct (od_get var_name (aux_vars (self w))) as [v|];
    [by destruct mask as [mask|]; [destruct (existsb id mask)|]|].
  destruct (od_get var_name (cost_weight_optim_vars (self w))) as [v|]; [|done].
  by destruct mask as [mask|]; [destruct (existsb id mask)|].
Qed.

(** What one assignment of [update] writes: the tensor of the variable
    found under the name, and no other tensor. *)
Lemma update_one_tensor mask var_name x w i :
  (∀ v, updated_variable var_name (self w) = Some v -> Var.id v ≠ i) ->
  tensor (update_one mask (var_name, x) w).2 i = tensor w i.
Proof.
  intros Hi. unfold update_one, Variable_update, updated_variable in *.
  destruct (bool_decide (ndim x < 2)); [done|].
  rewrite st_bind_run. cbn [get_self].
  assert (∀ v y w', od_get var_name (optim_vars (self w)) = Some v ∨
                    od_get var_name (optim_vars (self w)) = None ∧
                    (od_get var_name (aux_vars (self w)) = Some v ∨
                     od_get var_name (aux_vars (self w)) = None ∧
                     od_get var_name (cost_weight_optim_vars (self w)) = Some v) ->
            tensor w' = tensor w ->
            tensor (set_tensor v y w').2 i = tensor w i) as Hset.
  { intros v y w' Hv Hw'. cbn. rewrite Hw'. apply fn_lookup_insert_ne.
    apply Hi. destruct Hv as [->|[-> [->|[-> ->]]]]; done. }
  destruct (od_get var_name (optim_vars (self w))) as [v|] eqn:E1.
  { destruct mask as [mask|]; [destruct (existsb id mask)|];
      rewrite ?st_bind_run; cbn [get_tensor]; apply Hset; auto. }
  destruct (od_get var_name (aux_vars (self w))) as [v|] eqn:E2.
  { destruct mask as [mask|]; [destruct (existsb id mask)|];
      rewrite ?st_bind_run; cbn [get_tensor]; apply Hset; auto. }
  destruct (od_get var_name (cost_weight_optim_vars (self w))) as [v|] eqn:E3;
    [|done].
  rewrite st_bind_run.
  destruct mask as [mask|]; [destruct (existsb id mask)|];
    rewrite ?st_bind_run; cbn [get_tensor set_tensor warn tensor snd];
    apply fn_lookup_insert_ne, Hi; done.
Qed.

(** The loop of [update] over the given tensors. *)
Lemma update_loop_self mask l : preserves self (for_ l (update_one mask)).
Proof. apply preserves_for. intros item. apply update_one_self. Qed.

Lemma update_loop_outcome mask l w :
  (for_ l (update_one mask) w).1
  = if existsb (fun item : string * Tensor => bool_decide (ndim item.2 < 2)) l
    then Raise ValueError else Ok tt.
Proof.
  revert w. induction l as [|item l IH]; intros w; [done|].
  change (for_ (item :: l) (update_one mask))
    with (update_one mask item ≫= fun _ => for_ l (update_one mask)).
  rewrite st_bind_run. pose proof (update_one_outcome mask item w) as Ho.
  destruct (update_one mask item w) as [[[]|e] w']; simpl in *.
  - destruct (bool_decide (ndim item.2 < 2)); [done|]. apply IH.
  - by destruct (bool_decide (ndim item.2 < 2)).
Qed.

Lemma update_loop_tensor mask l w i :
  (∀ name v, name ∈ l.*1 -> updated_variable name (self w) = Some v ->
             Var.id v ≠ i) ->
  tensor (for_ l (update_one mask) w).2 i = tensor w i.
Proof.
  revert w. induction l as [|[var_name x] l IH]; intros w Hi; [done|].
  change (for_ ((var_name, x) :: l) (update_one mask))
    with (update_one mask (var_name, x) ≫= fun _ => for_ l (update_one mask)).
  rewrite st_bind_run.
  pose proof (update_one_tensor mask var_name x w i) as Ht.
  pose proof (update_one_self mask (var_name, x) w) as Hs.
  destruct (update_one mask (var_name, x) w) as [[[]|e] w']; simpl in *.
  - rewrite IH.
    + apply Ht. intros v. apply Hi. apply elem_of_cons. by left.
    + intros name v Hin. rewrite Hs. apply Hi. apply elem_of_cons. by right.
  - apply Ht. intros v. apply Hi. apply elem_of_cons. by left.
Qed.

Lemma resolve_batch_size_frame :
  preserves (fun w => (tensor w, optim_vars (self w), aux_vars (self w),
                       cost_weight_optim_vars (self w),
                       cost_functions (self w)))
            _resolve_batch_size.
Proof. unfold _resolve_batch_size. preserves. Qed.

(** X8. [update] raises [ValueError] when one of the given tensors has
    fewer than two dimensions; the batch size is then not resolved again,
    and the problem graph is as before the call. *)
Theorem update_rejects_tensor_without_batch_dimension
    input_tensors batch_ignore_mask uv w item :
  item ∈ input_tensors -> ndim item.2 < 2 ->
  (update (Some input_tensors) batch_ignore_mask uv w).1 = Raise ValueError
  ∧ self (update (Some input_tensors) batch_ignore_mask uv w).2 = self w.
Proof.
  intros Hin Hnd. unfold update. rewrite st_bind_run. simpl default.
  pose proof (update_loop_outcome batch_ignore_mask input_tensors w) as Ho.
  pose proof (update_loop_self batch_ignore_mask input_tensors w) as Hs.
  rewrite (proj2 (existsb_exists _ _)) in Ho.
  - destruct (for_ _ _ w) as [[[]|e] w']; simpl in *; [done|].
    by injection Ho as ->.
  - exists item. split; [by apply list_elem_of_In|]. by apply bool_decide_eq_true_2.
Qed.

Lemma update_rejects_tensor_without_batch_dimension_witness :
  (update (Some [("x"%string, mkTensor [1] [qz 0])]) None true
          (add f empty).2).1 = Raise ValueError
  ∧ self (update (Some [("x"%string, mkTensor [1] [qz 0])]) None true
                 (add f empty).2).2 = self (add f empty).2.
Proof.
  apply (update_rejects_tensor_without_batch_dimension
           [("x"%string, mkTensor [1] [qz 0])] None true (add f empty).2
           ("x"%string, mkTensor [1] [qz 0])).
  - apply elem_of_cons. by left.
  - unfold ndim. simpl. lia.
Defined.

(** X9. The variables that are not named in the given tensors keep their
    tensors through [update], whether it returns or raises. *)
Theorem update_keeps_other_tensors input_tensors batch_ignore_mask uv w i :
  (∀ name v, name ∈ (default [] input_tensors).*1 ->
             updated_variable name (self w) = Some v -> Var.id v ≠ i) ->
  tensor (update input_tensors batch_ignore_mask uv w).2 i = tensor w i.
Proof.
  intros Hi. unfold update.
  rewrite (preserved_after tensor).
  - by apply update_loop_tensor.
  - intros []. unfold update_vectorization_if_needed.
    assert (preserves tensor _resolve_batch_size)
      by from_frame resolve_batch_size_frame.
    preserves.
Qed.

Lemma update_keeps_other_tensors_witness :
  tensor (update (Some [("x"%string, scalar 5)]) None true (add f empty).2).2
         (Var.id a)
  = tensor (add f empty).2 (Var.id a).
Proof.
  apply (update_keeps_other_tensors (Some [("x"%string, scalar 5)]) None true
           (add f empty).2 (Var.id a)).
  intros name v Hin. simpl in Hin. apply list_elem_of_singleton in Hin as ->.
  intros Hv. vm_compute in Hv. injection Hv as <-. simpl. lia.
Defined.

Lemma update_one_assigns var_name x w v :
  2 ≤ ndim x -> updated_variable var_name (self w) = Some v ->
  tensor (update_one None (var_name, x) w).2 (Var.id v) = x.
Proof.
  intros Hnd Hv. unfold update_one, Variable_update, updated_variable in *.
  rewrite bool_decide_eq_false_2 by lia.
  rewrite st_bind_run. cbn [get_self].
  destruct (od_get var_name (optim_vars (self w))) as [v1|].
  { injection Hv as ->. cbn. apply fn_lookup_insert. }
  destruct (od_get var_name (aux_vars (self w))) as [v2|].
  { injection Hv as ->. cbn. apply fn_lookup_insert. }
  rewrite Hv. cbn. apply fn_lookup_insert.
Qed.

Lemma update_loop_assigns l w var_name x v :
  NoDup l.*1 ->
  (∀ item, item ∈ l -> 2 ≤ ndim item.2) ->
  (var_name, x) ∈ l ->
  updated_variable var_name (self w) = Some v ->
  (∀ name' v', name' ∈ l.*1 -> name' ≠ var_name ->
               updated_variable name' (self w) = Some v' ->
               Var.id v' ≠ Var.id v) ->
  tensor (for_ l (update_one None) w).2 (Var.id v) = x.
Proof.
  revert w. induction l as [|[n y] l IH]; intros w Hnd Hdim Hin Hv Hother.
  { by apply elem_of_nil in Hin. }
  change (for_ ((n, y) :: l) (update_one None))
    with (update_one None (n, y) ≫= fun _ => for_ l (update_one None)).
  rewrite st_bind_run.
  pose proof (update_one_outcome None (n, y) w) as Ho.
  pose proof (update_one_self None (n, y) w) as Hs.
  rewrite bool_decide_eq_false_2 in Ho
    by (specialize (Hdim (n, y)); simpl in *;
        assert (2 ≤ ndim y) by (apply Hdim, elem_of_cons; by left); lia).
  simpl in Hnd. pose proof (NoDup_cons_1_1 _ _ Hnd) as Hn.
  apply NoDup_cons_1_2 in Hnd.
  pose proof (update_one_assigns n y w v) as Ha.
  destruct (update_one None (n, y) w) as [[[]|e] w']; simpl in Ho, Hs, Ha |- *;
    [|done].
  apply elem_of_cons in Hin as [[= -> ->]|Hin].
  - rewrite update_loop_tensor.
    + apply Ha; [|done]. apply (Hdim (n, y)), elem_of_cons. by left.
    + intros name v' Hname. rewrite Hs. apply Hother.
      * apply elem_of_cons. by right.
      * intros ->. done.
  - apply IH; [done| | done |by rewrite Hs|].
    + intros item Hitem. apply Hdim, elem_of_cons. by right.
    + intros name' v' Hname'. rewrite Hs. apply Hother.
      apply elem_of_cons. by right.
Qed.

(** X10. With no ignore mask and tensors of at least two dimensions,
    [update] leaves in a variable the tensor given under its name,
    provided no other given name stands for the same variable object;
    this holds even when the batch sizes then fail to resolve. *)
Theorem update_assigns_named_tensor input_tensors uv w var_name x v :
  NoDup input_tensors.*1 ->
  (∀ item, item ∈ input_tensors -> 2 ≤ ndim item.2) ->
  (var_name, x) ∈ input_tensors ->
  updated_variable var_name (self w) = Some v ->
  (∀ name' v', name' ∈ input_tensors.*1 -> name' ≠ var_name ->
               updated_variable name' (self w) = Some v' ->
               Var.id v' ≠ Var.id v) ->
  tensor (update (Some input_tensors) None uv w).2 (Var.id v) = x.
Proof.
  intros Hnd Hdim Hin Hv Hother. unfold update.
  rewrite (preserved_after tensor).
  - by apply (update_loop_assigns _ _ var_name).
  - intros []. unfold update_vectorization_if_needed.
    assert (preserves tensor _resolve_batch_size)
      by from_frame resolve_batch_size_frame.
    preserves.
Qed.

Lemma update_assigns_named_tensor_witness :
  tensor (update (Some [("x"%string, scalar 5)]) None true (add f empty).2).2
         (Var.id x) = scalar 5.
Proof.
  apply (update_assigns_named_tensor [("x"%string, scalar 5)] true
           (add f empty).2 "x" (scalar 5) x).
  - simpl. apply NoDup_cons_2; [apply not_elem_of_nil|apply NoDup_nil_2].
  - intros item Hin. apply list_elem_of_singleton in Hin as ->.
    unfold ndim. simpl. lia.
  - apply elem_of_cons. by left.
  - reflexivity.
  - intros name' v' Hin Hne. simpl in Hin.
    apply list_elem_of_singleton in Hin. done.
Defined.

(** X11. An objective that has neither optimization nor auxiliary
    variables has no batch size to resolve: every [update] raises
    [ValueError]. *)
Theorem update_without_variables_raises input_tensors batch_ignore_mask uv w :
  optim_vars (self w) = [] -> aux_vars (self w) = [] ->
  (update input_tensors batch_ignore_mask uv w).1 = Raise ValueError.
Proof.
  intros Ho Ha. unfold update. rewrite st_bind_run.
  pose proof (update_loop_outcome batch_ignore_mask (default [] input_tensors) w)
    as Hout.
  pose proof (update_loop_self batch_ignore_mask (default [] input_tensors) w)
    as Hs.
  destruct (for_ _ _ w) as [[[]|e] w'] eqn:E; simpl in *.
  - rewrite st_bind_run, resolve_batch_size_run.
    unfold leading_dims, batch_variables. by rewrite Hs, Ho, Ha.
  - destruct (existsb _ _); [by injection Hout as ->|done].
Qed.

Lemma update_without_variables_raises_witness :
  (update None None true empty).1 = Raise ValueError.
Proof.
  apply (update_without_variables_raises None None true empty); reflexivity.
Defined.

(** *** [error] *)

Lemma update_frame input_tensors batch_ignore_mask uv :
  preserves (fun w => (optim_vars (self w), aux_vars (self w),
                       cost_weight_optim_vars (self w), cost_functions (self w)))
            (update input_tensors batch_ignore_mask uv).
Proof.
  assert (preserves (fun w => (optim_vars (self w), aux_vars (self w),
                               cost_weight_optim_vars (self w),
                               cost_functions (self w)))
            _resolve_batch_size) as Hr.
  { intros w. pose proof (resolve_batch_size_frame w) as Hf. cbv beta in Hf.
    injection Hf as _ H1 H2 H3 H4. by rewrite H1, H2, H3, H4. }
  unfold update, update_one, Variable_update, update_vectorization_if_needed.
  preserves.
Qed.

(** Writing back the tensors saved for a list of optimization
    variables. *)
Lemma restore_loop (T : nat -> Tensor) (l : list (string * Var.t)) w w' :
  (∀ n v, (n, v) ∈ l -> od_get n (optim_vars (self w)) = Some v) ->
  for_ ((fun '(n, v) => (n, T (Var.id v))) <$> l) (update_one None) w
    = (Ok tt, w') ->
  ∀ i, tensor w' i = if bool_decide (i ∈ Var.id <$> l.*2) then T i
                     else tensor w i.
Proof.
  revert w. induction l as [|[n v] l IH]; intros w Hl Hrun i.
  { injection Hrun as <-. by rewrite bool_decide_eq_false_2 by apply not_elem_of_nil. }
  rewrite fmap_cons in Hrun.
  change (for_ (?x :: ?r) ?b) with (b x ≫= fun _ => for_ r b) in Hrun.
  rewrite st_bind_run in Hrun.
  pose proof (update_one_self None (n, T (Var.id v)) w) as Hs.
  pose proof (update_one_outcome None (n, T (Var.id v)) w) as Ho.
  assert (tensor (update_one None (n, T (Var.id v)) w).2
          = <[Var.id v := T (Var.id v)]> (tensor w)) as Ht.
  { destruct (bool_decide (ndim (n, T (Var.id v)).2 < 2)) eqn:Hd.
    - destruct (update_one None (n, T (Var.id v)) w) as [[[]|e] w1];
        simpl in Ho; [done|done].
    - unfold update_one in *. simpl in Hd. rewrite Hd.
      rewrite st_bind_run. cbn [get_self].
      rewrite (Hl n v) by (apply elem_of_cons; by left). reflexivity. }
  destruct (update_one None (n, T (Var.id v)) w) as [[[]|e] w1];
    simpl in Hs, Ht, Hrun; [|done].
  assert (∀ n' v', (n', v') ∈ l ->
                   od_get n' (optim_vars (self w1)) = Some v') as Hl1.
  { intros n' v' Hin. rewrite Hs. apply Hl, elem_of_cons. by right. }
  rewrite (IH w1 Hl1 Hrun).
  rewrite Ht. simpl.
  destruct (bool_decide (i ∈ Var.id <$> l.*2)) eqn:Hi;
    [apply bool_decide_eq_true_1 in Hi|apply bool_decide_eq_false_1 in Hi].
  - rewrite bool_decide_eq_true_2; [done|]. apply elem_of_cons. by right.
  - destruct (decide (i = Var.id v)) as [->|Hne].
    + rewrite bool_decide_eq_true_2 by (apply elem_of_cons; by left).
      apply fn_lookup_insert.
    + rewrite bool_decide_eq_false_2.
      * by apply fn_lookup_insert_ne.
      * intros [?|?]%elem_of_cons; done.
Qed.

(** [error] at given tensors that are not to be kept, step by step. *)
Lemma error_run weighted_error input_tensors w :
  error weighted_error (Some input_tensors) false w =
    let old := (fun '(var, v) => (var, tensor w (Var.id v))) <$> optim_vars (self w) in
    match update (Some input_tensors) None false w with
    | (Raise e, w1) => (Raise e, w1)
    | (Ok _, w1) =>
        match mapM (fun cf => weighted_error cf (tensor w1))
                   (od_values (cost_functions (self w1))) with
        | Raise e => (Raise e, w1)
        | Ok errors =>
            match cat_dim1 errors with
            | Raise e => (Raise e, w1)
            | Ok error_vector =>
                match update (Some old) None false w1 with
                | (Ok _, w3) => (Ok error_vector, w3)
                | (Raise e, w3) => (Raise e, w3)
                end
            end
        end
    end.
Proof.
  unfold error.
  cbv [mbind st_mbind st_bind mret st_mret st_ret get_self get lift].
  destruct (update (Some input_tensors) None false w) as [[[]|e1] w1]; [|done].
  destruct (mapM _ _) as [errors|e2]; [|done].
  destruct (cat_dim1 errors) as [ev|e3]; [|done].
  by destruct (update _ None false w1) as [[[]|e4] w3].
Qed.

(** X12. When [error] is called with tensors and [also_update = False]
    and returns, every optimization variable holds the tensor it held
    before the call. *)
Theorem error_restores_optim_vars weighted_error input_tensors w e n v :
  NoDup (od_keys (optim_vars (self w))) ->
  (error weighted_error (Some input_tensors) false w).1 = Ok e ->
  (n, v) ∈ optim_vars (self w) ->
  tensor (error weighted_error (Some input_tensors) false w).2 (Var.id v)
  = tensor w (Var.id v).
Proof.
  intros Hnd Hok Hin. rewrite error_run in *. cbv zeta in *.
  pose proof (update_frame (Some input_tensors) None false w) as Hf.
  destruct (update (Some input_tensors) None false w) as [[[]|e1] w1];
    simpl in Hf; [|done].
  injection Hf as Hov _ _ _.
  destruct (mapM _ _) as [errors|e2]; [|done].
  destruct (cat_dim1 errors) as [ev|e3]; [|done].
  destruct (update _ None false w1) as [[[]|e4] w3] eqn:E3; [|done].
  simpl. unfold update in E3. rewrite st_bind_run in E3. simpl default in E3.
  destruct (for_ _ (update_one None) w1) as [[[]|e5] w2] eqn:E2;
    [|by simpl in E3].
  assert (tensor w3 = tensor w2) as ->.
  { assert (preserves tensor _resolve_batch_size)
      by from_frame resolve_batch_size_frame.
    eapply (preserved_run tensor); [|exact E3].
    unfold update_vectorization_if_needed. preserves. }
  rewrite (restore_loop (tensor w) (optim_vars (self w)) w1 w2).
  - rewrite bool_decide_eq_true_2; [done|].
    apply list_elem_of_fmap. exists v. split; [done|].
    apply list_elem_of_fmap. by exists (n, v).
  - intros n' v' Hin'. rewrite Hov. by apply od_get_NoDup.
  - exact E2.
Qed.

Lemma error_restores_optim_vars_witness :
  tensor (error weighted_error
            (Some [("x"%string, scalar 5); ("a"%string, scalar 7)]) false
            (add f empty).2).2 (Var.id x)
  = tensor (add f empty).2 (Var.id x).
Proof.
  refine (error_restores_optim_vars weighted_error
            [("x"%string, scalar 5); ("a"%string, scalar 7)]
            (add f empty).2 [[(qz 5 - qz 7)%Qc]] "x" x _ eq_refl _).
  - simpl. apply NoDup_cons_2; [apply not_elem_of_nil|apply NoDup_nil_2].
  - simpl. apply elem_of_cons. by left.
Defined.

(** X13. [error] with [also_update = True] is [update] with the given
    tensors followed by [error] without tensors: the same result and the
    same world, also when one of them raises. *)
Theorem error_also_update_is_update_then_error weighted_error input_tensors w :
  error weighted_error (Some input_tensors) true w
  = (update (Some input_tensors) None true;;
     error weighted_error None true) w.
Proof.
  unfold error.
  cbv [mbind st_mbind st_bind mret st_mret st_ret get_self get lift].
  destruct (update (Some input_tensors) None true w) as [[[]|e1] w1]; [|done].
  destruct (mapM _ _) as [errors|e2]; [|done].
  by destruct (cat_dim1 errors) as [ev|e3].
Qed.
End frames.

(** ** Zero aggregate precision in the variable-to-factor pass *)

Section zero_messages.
Import GBP.
Context {Mf : Type} `{!Manifold Mf}.
Context (torch_inverse : Mat -> outcome Mat).

(** The edges [incident] finds are edges of the variable, each once. *)
Lemma incident_edges var_ix_for_edges (ftov_msgs : list (ManifoldGaussian Mf))
    i j0 inc :
  incident var_ix_for_edges ftov_msgs i j0 = Ok inc ->
  Forall (fun e => j0 ≤ e.1 ∧ var_ix_for_edges !! (e.1 - j0) = Some i) inc
  ∧ NoDup inc.*1.
Proof.
  revert var_ix_for_edges j0 inc.
  induction ftov_msgs as [|msg msgs IH]; intros vix j0 inc.
  { destruct vix; simpl; intros Heq; inversion Heq; subst; split; constructor. }
  destruct vix as [|ix ixs]; simpl; [done|].
  destruct (incident ixs msgs i (S j0)) as [rest|e] eqn:E; [|done].
  simpl. intros Heq. inversion Heq; subst; clear Heq.
  destruct (IH _ _ _ E) as [Hall Hnd].
  assert (Forall (fun e => j0 ≤ e.1 ∧ (ix :: ixs) !! (e.1 - j0) = Some i) rest)
    as Hrest.
  { apply list.Forall_forall. intros [j m] Hin. rewrite list.Forall_forall in Hall.
    destruct (Hall _ Hin) as [Hle Hix]. simpl in *.
    split; [lia|]. replace (j - j0) with (S (j - S j0)) by lia. done. }
  case_bool_decide as Hi; [|done].
  split.
  - constructor; [|done]. simpl. split; [lia|]. rewrite Nat.sub_diag. by subst.
  - simpl. apply NoDup_cons_2; [|done].
    intros Hin. apply list_elem_of_fmap in Hin as ([j m] & Hj & Hin).
    rewrite list.Forall_forall in Hall. apply Hall in Hin. simpl in *. lia.
Qed.

Lemma gather_edges var_ix_for_edges (ftov_msgs : list (ManifoldGaussian Mf))
    var i edges taus lams_tp shape :
  gather var_ix_for_edges ftov_msgs var i = Ok (edges, taus, lams_tp, shape) ->
  NoDup edges ∧ ∀ j, j ∈ edges -> var_ix_for_edges !! j = Some i.
Proof.
  unfold gather. intros Hg.
  destruct (incident _ _ _ _) as [inc|e] eqn:E; [|done].
  assert (edges = inc.*1) as ->.
  { simpl in Hg.
    repeat match type of Hg with
           | context [mbind _ ?x] => destruct x; simpl in Hg; [|done]
           end.
    by inversion Hg. }
  apply incident_edges in E as [Hall Hnd].
  split; [done|]. intros j Hin.
  apply list_elem_of_fmap in Hin as ([j' m] & -> & Hin).
  rewrite list.Forall_forall in Hall. apply Hall in Hin as [_ Hix].
  simpl in *. by rewrite Nat.sub_0_r in Hix.
Qed.

(** The loop over the incident edges writes these edges only. *)
Lemma outgoing_loop_other var taus lams_tp shape edges ix st j :
  j ∉ edges ->
  vtof_msgs (outgoing_loop torch_inverse var taus lams_tp shape edges ix st).2 !! j
  = vtof_msgs st !! j.
Proof.
  revert ix st. induction edges as [|j' edges IH]; intros ix st Hj; simpl; [done|].
  apply not_elem_of_cons in Hj as [Hne Hj].
  rewrite st_bind_run. simpl. rewrite st_bind_run. unfold lift at 1.
  destruct (first _) as [msg|e]; [|done].
  rewrite st_bind_run. unfold lift at 1.
  destruct (outgoing_vtof _ _ _ _ _ _ _) as [new|e]; [|done].
  rewrite st_bind_run. simpl. rewrite IH by done. simpl.
  by rewrite list_lookup_insert_ne.
Qed.

Lemma outgoing_loop_writes var taus lams_tp shape edges ix st st' k j msg :
  outgoing_loop torch_inverse var taus lams_tp shape edges ix st = (Ok tt, st') ->
  NoDup edges ->
  edges !! k = Some j ->
  vtof_msgs st !! j = Some msg ->
  ∃ new,
    outgoing_vtof torch_inverse var taus lams_tp shape (ix + k) msg = Ok new
    ∧ vtof_msgs st' !! j = Some new.
Proof.
  revert ix st k. induction edges as [|j' edges IH]; intros ix st k; [done|].
  intros Hrun Hnd Hk Hmsg. simpl in Hrun.
  pose proof (NoDup_cons_1_1 _ _ Hnd) as Hj'. apply NoDup_cons_1_2 in Hnd.
  rewrite st_bind_run in Hrun. simpl in Hrun.
  rewrite st_bind_run in Hrun. unfold lift at 1 in Hrun.
  destruct (first (drop j' (vtof_msgs st))) as [msg'|e] eqn:Hfirst; [|done].
  rewrite st_bind_run in Hrun. unfold lift at 1 in Hrun.
  destruct (outgoing_vtof _ _ _ _ _ _ msg') as [new|e] eqn:Hout; [|done].
  rewrite st_bind_run in Hrun. simpl in Hrun.
  rewrite first_drop in Hfirst.
  destruct k as [|k]; simpl in Hk.
  - injection Hk as ->. rewrite Hmsg in Hfirst. injection Hfirst as <-.
    exists new. rewrite Nat.add_0_r. split; [done|].
    replace st' with (outgoing_loop torch_inverse var taus lams_tp shape edges
                        (S ix) (mkPass (<[j := new]> (vtof_msgs st)) (beliefs st))).2
      by by rewrite Hrun.
    rewrite outgoing_loop_other by done. simpl.
    apply list_lookup_insert_eq. by eapply lookup_lt_Some.
  - assert (j ≠ j') as Hne.
    { intros ->. apply Hj'. by eapply list_elem_of_lookup_2. }
    destruct (IH (S ix) _ k Hrun Hnd Hk) as (new' & Hnew & Hst').
    { simpl. by rewrite list_lookup_insert_ne. }
    exists new'. split; [|done]. by replace (ix + S k) with (S ix + k) by lia.
Qed.

(** Processing a variable leaves the messages on the edges of the other
    variables alone. *)
Lemma var_to_fac_one_vtof_other var_ix_for_edges ftov_msgs update_belief i' st j :
  var_ix_for_edges !! j ≠ Some i' ->
  vtof_msgs (var_to_fac_one torch_inverse var_ix_for_edges ftov_msgs
               update_belief i' st).2 !! j
  = vtof_msgs st !! j.
Proof.
  intros Hj. unfold var_to_fac_one. rewrite st_bind_run. simpl.
  rewrite st_bind_run. unfold lift at 1.
  destruct (first _) as [belief|e]; [|done].
  rewrite st_bind_run. unfold lift at 1.
  destruct (first _) as [var|e]; [|done].
  rewrite st_bind_run. unfold lift at 1.
  destruct (gather _ _ _ _) as [[[[edges taus] lams_tp] shape]|e] eqn:Hg; [|done].
  apply gather_edges in Hg as [_ Hedges].
  assert (j ∉ edges) as Hnot by (intros Hin; by apply Hj, Hedges).
  rewrite st_bind_run.
  pose proof (outgoing_loop_other var taus lams_tp shape edges 0 st j Hnot) as Hl.
  destruct (outgoing_loop _ _ _ _ _ _ _ _) as [[[]|e] st1]; simpl in Hl; [|done].
  destruct (_ && _); [|done].
  rewrite st_bind_run. unfold lift at 1.
  destruct (combine _ _ _ _) as [tau|e]; [|done].
  rewrite st_bind_run. unfold lift at 1.
  by destruct (retract_gaussian _ _ _ _ _) as [new|e].
Qed.

(** Processing a variable writes, on each of its edges, the message
    [outgoing_vtof] computes from the message found there. *)
Lemma var_to_fac_one_writes var_ix_for_edges ftov_msgs update_belief i st st1
    belief var edges taus lams_tp shape ix j msg :
  var_to_fac_one torch_inverse var_ix_for_edges ftov_msgs update_belief i st
    = (Ok tt, st1) ->
  beliefs st !! i = Some belief ->
  first (mean belief) = Ok var ->
  gather var_ix_for_edges ftov_msgs var i = Ok (edges, taus, lams_tp, shape) ->
  edges !! ix = Some j ->
  vtof_msgs st !! j = Some msg ->
  ∃ new,
    outgoing_vtof torch_inverse var taus lams_tp shape ix msg = Ok new
    ∧ vtof_msgs st1 !! j = Some new.
Proof.
  intros Hrun Hb Hv Hg Hix Hmsg. unfold var_to_fac_one in Hrun.
  rewrite st_bind_run in Hrun. simpl in Hrun.
  rewrite st_bind_run in Hrun. unfold lift at 1 in Hrun.
  rewrite first_drop, Hb in Hrun.
  rewrite st_bind_run in Hrun. unfold lift at 1 in Hrun. rewrite Hv in Hrun.
  rewrite st_bind_run in Hrun. unfold lift at 1 in Hrun. rewrite Hg in Hrun.
  rewrite st_bind_run in Hrun.
  pose proof (gather_edges _ _ _ _ _ _ _ _ Hg) as [Hnd _].
  destruct (outgoing_loop _ _ _ _ _ _ _ _) as [[[]|e] st2] eqn:Hloop; [|done].
  destruct (outgoing_loop_writes _ _ _ _ _ _ _ _ _ _ _ Hloop Hnd Hix Hmsg)
    as (new & Hnew & Hst2).
  exists new. split; [done|].
  destruct (_ && _); [|by injection Hrun as <-].
  rewrite st_bind_run in Hrun. unfold lift at 1 in Hrun.
  destruct (combine _ _ _ _) as [tau|e]; [|done].
  rewrite st_bind_run in Hrun. unfold lift at 1 in Hrun.
  destruct (retract_gaussian _ _ _ _ _) as [nb|e]; [|done].
  simpl in Hrun. by injection Hrun as <-.
Qed.

Lemma pass_vtof_other var_ix_for_edges ftov_msgs update_belief l st j :
  (∀ i', i' ∈ l -> var_ix_for_edges !! j ≠ Some i') ->
  vtof_msgs (for_ l (var_to_fac_one torch_inverse var_ix_for_edges ftov_msgs
                       update_belief) st).2 !! j
  = vtof_msgs st !! j.
Proof.
  revert st. induction l as [|i' l IH]; intros st Hl; simpl; [done|].
  unfold st_bind.
  pose proof (var_to_fac_one_vtof_other var_ix_for_edges ftov_msgs update_belief
                i' st j) as Hone.
  destruct (var_to_fac_one _ _ _ _ _ _) as [[[]|e] st1]; simpl in Hone |- *.
  - rewrite IH; [apply Hone|]; intros; apply Hl; [by left|by right].
  - apply Hone, Hl. by left.
Qed.

Lemma pass_writes var_ix_for_edges ftov_msgs update_belief l st st' i
    belief var edges taus lams_tp shape ix j msg :
  for_ l (var_to_fac_one torch_inverse var_ix_for_edges ftov_msgs update_belief)
       st = (Ok tt, st') ->
  NoDup l -> i ∈ l ->
  beliefs st !! i = Some belief ->
  first (mean belief) = Ok var ->
  gather var_ix_for_edges ftov_msgs var i = Ok (edges, taus, lams_tp, shape) ->
  edges !! ix = Some j ->
  vtof_msgs st !! j = Some msg ->
  ∃ new,
    outgoing_vtof torch_inverse var taus lams_tp shape ix msg = Ok new
    ∧ vtof_msgs st' !! j = Some new.
Proof.
  intros Hrun Hnd Hin Hb Hv Hg Hix Hmsg.
  pose proof (gather_edges _ _ _ _ _ _ _ _ Hg) as [_ Hedges].
  assert (var_ix_for_edges !! j = Some i) as Hj
    by (apply Hedges; by eapply list_elem_of_lookup_2).
  revert st Hrun Hb Hmsg.
  induction l as [|i' l IH]; intros st Hrun Hb Hmsg;
    [by apply elem_of_nil in Hin|].
  pose proof (NoDup_cons_1_1 _ _ Hnd) as Hi'. apply NoDup_cons_1_2 in Hnd.
  simpl in Hrun. unfold st_bind in Hrun.
  destruct (var_to_fac_one torch_inverse var_ix_for_edges ftov_msgs
              update_belief i' st) as [[[]|e] st1] eqn:Hone; [|done].
  destruct (decide (i = i')) as [<-|Hne].
  - destruct (var_to_fac_one_writes _ _ _ _ _ _ _ _ _ _ _ _ _ _ _
                Hone Hb Hv Hg Hix Hmsg) as (new & Hnew & Hst1).
    exists new. split; [done|].
    replace st' with (for_ l (var_to_fac_one torch_inverse var_ix_for_edges
                                ftov_msgs update_belief) st1).2
      by by rewrite Hrun.
    rewrite pass_vtof_other; [done|].
    intros i' Hin'. rewrite Hj. intros [= ->]. done.
  - apply elem_of_cons in Hin as [?|Hin]; [done|].
    apply (IH Hnd Hin st1 Hrun).
    + replace st1 with (var_to_fac_one torch_inverse var_ix_for_edges ftov_msgs
                          update_belief i' st).2 by by rewrite Hone.
      by rewrite var_to_fac_one_other.
    + replace st1 with (var_to_fac_one torch_inverse var_ix_for_edges ftov_msgs
                          update_belief i' st).2 by by rewrite Hone.
      rewrite var_to_fac_one_vtof_other; [done|].
      rewrite Hj. intros [= ->]. done.
Qed.

(** X14. A variable whose incoming precisions, in its own tangent space,
    sum to zero has the same belief after the variable-to-factor pass,
    whether the pass returns or raises. *)
Theorem zero_aggregate_keeps_belief var_ix_for_edges ftov_msgs update_belief
    st i belief var edges taus lams_tp shape :
  beliefs st !! i = Some belief ->
  first (mean belief) = Ok var ->
  gather var_ix_for_edges ftov_msgs var i = Ok (edges, taus, lams_tp, shape) ->
  bcount_nonzero (bmat_sum shape lams_tp) = 0 ->
  beliefs (_pass_var_to_fac_messages torch_inverse var_ix_for_edges ftov_msgs
             update_belief st).2 !! i
  = Some belief.
Proof. apply pass_var_to_fac_keeps_belief. Qed.

(** X15. When the variable-to-factor pass returns, the message it leaves
    on an edge whose leave-one-out sum of incoming precisions is zero
    has the mean object of the message found there with its data set to
    zero, and a precision that is zero. *)
Theorem zero_aggregate_writes_zero_message var_ix_for_edges ftov_msgs
    update_belief st st' i belief var edges taus lams_tp shape ix j
    (msg : ManifoldGaussian Mf) m0 :
  _pass_var_to_fac_messages torch_inverse var_ix_for_edges ftov_msgs
    update_belief st = (Ok tt, st') ->
  beliefs st !! i = Some belief ->
  first (mean belief) = Ok var ->
  gather var_ix_for_edges ftov_msgs var i = Ok (edges, taus, lams_tp, shape) ->
  edges !! ix = Some j ->
  bcount_nonzero (bmat_sum shape (delete ix lams_tp)) = 0 ->
  vtof_msgs st !! j = Some msg ->
  mean msg = [m0] ->
  ∃ lam_a,
    vtof_msgs st' !! j = Some (mkGaussian [zero_data m0] lam_a)
    ∧ bcount_nonzero lam_a = 0.
Proof.
  intros Hrun Hb Hv Hg Hix Hz Hmsg Hm0.
  unfold _pass_var_to_fac_messages in Hrun. rewrite st_bind_run in Hrun.
  simpl in Hrun.
  assert (i ∈ seq 0 (length (beliefs st))) as Hin.
  { apply elem_of_seq. split; [lia|]. simpl. by eapply lookup_lt_Some. }
  destruct (pass_writes var_ix_for_edges ftov_msgs update_belief
              (seq 0 (length (beliefs st))) st st' i belief var edges taus
              lams_tp shape ix j msg Hrun (NoDup_seq _ _) Hin Hb Hv Hg Hix Hmsg)
    as (new & Hnew & Hst').
  rewrite outgoing_vtof_zero in Hnew by done. injection Hnew as <-.
  eexists. split; [|exact Hz]. by rewrite Hst', Hm0.
Qed.
End zero_messages.

Section zero_aggregate_examples.
Import GBP Euclid Scenario Uninformative.

Lemma zero_aggregate_keeps_belief_witness :
  beliefs (_pass_var_to_fac_messages never [0] [zero_gaussian] true
             (mkPass [stale] [informed])).2 !! 0
  = Some informed.
Proof.
  eapply (zero_aggregate_keeps_belief never [0] [zero_gaussian] true
            (mkPass [stale] [informed]) 0 informed [[qz 5]]).
  - reflexivity.
  - reflexivity.
  - reflexivity.
  - vm_compute. reflexivity.
Defined.

Lemma zero_aggregate_writes_zero_message_witness :
  ∃ lam_a,
    vtof_msgs (_pass_var_to_fac_messages never [0] [zero_gaussian] true
                 (mkPass [stale] [informed])).2 !! 0
    = Some (mkGaussian [zero_data [[qz 7]]] lam_a)
    ∧ bcount_nonzero lam_a = 0.
Proof.
  eapply (zero_aggregate_writes_zero_message never [0] [zero_gaussian] true
            (mkPass [stale] [informed]) _ 0 informed [[qz 5]] _ _ _ _ 0 0 stale).
  - reflexivity.
  - reflexivity.
  - reflexivity.
  - reflexivity.
  - reflexivity.
  - vm_compute. reflexivity.
  - reflexivity.
  - reflexivity.
Defined.
End zero_aggregate_examples.

(** ** The optimization loop *)

Section optimizer_loop.
Import GBP.
Context {Mf : Type} `{!Manifold Mf}.
Context (torch_inverse np_linalg_inv : Mat -> outcome Mat).
Context (EPS : Qc).

(** X16. [_optimize_loop] raises [ValueError] when the damping or the
    dropout probability lies outside [[0, 1]], or when a schedule is
    given that is not boolean or has not the shape [max_iterations] by
    [n_edges]; whatever the variables, nothing else is looked at. *)
Theorem optimize_loop_validates_parameters cf_ordering error_squared_norm
    params (vars : list Mf) start_iter num_iter info damping dropout schedule
    ixs draws :
  (Q1 < damping)%Qc ∨ (damping < Q0)%Qc ∨ (Q1 < dropout)%Qc ∨ (dropout < Q0)%Qc
  ∨ (∃ s, schedule = Some s ∧
          (is_bool s = false ∨
           (length <$> rows s)
           ≠ replicate (max_iterations params) (n_edges cf_ordering))) ->
  _optimize_loop torch_inverse np_linalg_inv EPS cf_ordering error_squared_norm
    params vars start_iter num_iter info damping dropout schedule ixs draws
  = Raise ValueError.
Proof.
  intros Hbad. unfold _optimize_loop.
  destruct (bool_decide (Q1 < damping)%Qc || bool_decide (damping < Q0)%Qc)
    eqn:Hdamp; [done|].
  destruct (bool_decide (Q1 < dropout)%Qc || bool_decide (dropout < Q0)%Qc)
    eqn:Hdrop; [done|].
  apply orb_false_elim in Hdamp as [H1 H2].
  apply orb_false_elim in Hdrop as [H3 H4].
  apply bool_decide_eq_false_1 in H1, H2, H3, H4.
  destruct Hbad as [?|[?|[?|[?|(s & -> & Hs)]]]]; [done..|].
  destruct Hs as [->|Hshape]; [done|].
  destruct (is_bool s); [|done]. simpl.
  by rewrite bool_decide_eq_false_2.
Qed.

Lemma optimize_loop_statuses cf_ordering error_squared_norm params
    (vars : list Mf) start_iter num_iter info0 damping dropout schedule
    ixs draws info beliefs :
  _optimize_loop torch_inverse np_linalg_inv EPS cf_ordering error_squared_norm
    params vars start_iter num_iter info0 damping dropout schedule ixs draws
  = Ok (info, beliefs) ->
  START ∉ status info.
Proof.
  unfold _optimize_loop. intros Hrun.
  destruct (_ || _); [done|]. destruct (_ || _); [done|].
  assert (∃ sched st0 st,
            initial_state cf_ordering vars info0 = Ok st0 ∧
            (iterate torch_inverse np_linalg_inv EPS cf_ordering
               error_squared_norm params sched damping dropout draws
               (seq start_iter num_iter) st0).2 = st ∧
            info = finish (l_info st)) as (sched & st0 & st & _ & _ & ->).
  { destruct schedule as [s|]; simpl in Hrun.
    - destruct (negb (is_bool s)); [done|].
      destruct (bool_decide _); [|done]. simpl in Hrun.
      destruct (initial_state cf_ordering vars info0) as [st0|e]; [|done].
      simpl in Hrun.
      destruct (iterate _ _ _ _ _ _ _ _ _ _ _ _) as [[[]|e] st] eqn:Hit; [|done].
      simpl in Hrun. injection Hrun as <- <-.
      exists (rows s), st0, st. by rewrite Hit.
    - destruct (initial_state cf_ordering vars info0) as [st0|e]; [|done].
      simpl in Hrun.
      destruct (iterate _ _ _ _ _ _ _ _ _ _ _ _) as [[[]|e] st] eqn:Hit; [|done].
      simpl in Hrun. injection Hrun as <- <-.
      exists (random_schedule (n_edges cf_ordering) ixs), st0, st.
      by rewrite Hit. }
  simpl. intros Hin. apply list_elem_of_fmap in Hin as (s & Hs & _).
  by destruct s.
Qed.

(** X17. In the info [_optimize_impl] returns, no batch element has the
    status [START], and a batch element with the status
    [MAX_ITERATIONS] has the converged iteration -1. *)
Theorem optimize_impl_statuses cf_ordering error_squared_norm params
    (vars : list Mf) track_best_solution track_err_history damping dropout
    schedule ixs draws info beliefs :
  _optimize_impl torch_inverse np_linalg_inv EPS cf_ordering error_squared_norm
    params vars track_best_solution track_err_history damping dropout schedule
    ixs draws = Ok (info, beliefs) ->
  (START ∉ status info)
  ∧ (∀ k c, status info !! k = Some MAX_ITERATIONS ->
            converged_iter info !! k = Some c -> c = (-1)%Z).
Proof.
  unfold _optimize_impl. intros Hrun.
  destruct (_init_info _ _ _ _ _) as [info0|e]; [|done]. simpl in Hrun.
  destruct (_optimize_loop _ _ _ _ _ _ _ _ _ _ _ _ _ _ _)
    as [[info1 beliefs1]|e] eqn:Hloop; [|done].
  simpl in Hrun. injection Hrun as <- <-. simpl. split.
  - by eapply optimize_loop_statuses.
  - intros k c Hk Hc. apply lookup_zip_with_Some in Hc as (s & c0 & -> & Hs & _).
    rewrite Hk in Hs. by injection Hs as <-.
Qed.

(** X18. A random schedule has one row of [n_edges] entries for every
    index drawn, and the row of an index below [n_edges] is true at
    that index and false elsewhere. *)
Theorem random_schedule_one_edge n_edges ixs k ix :
  ixs !! k = Some ix -> ix < n_edges ->
  length <$> random_schedule n_edges ixs = replicate (length ixs) n_edges
  ∧ ∃ row, random_schedule n_edges ixs !! k = Some row
           ∧ ∀ e, e < n_edges -> row !! e = Some (bool_decide (e = ix)).
Proof.
  intros Hk Hix. unfold random_schedule. split.
  - rewrite <- list_fmap_compose. clear Hk.
    induction ixs as [|i ixs IH]; [done|]. simpl. f_equal; [|done].
    by rewrite length_insert, length_replicate.
  - eexists. split; [by rewrite list_lookup_fmap, Hk|].
    intros e He. destruct (decide (e = ix)) as [->|Hne].
    + rewrite bool_decide_eq_true_2 by done. apply list_lookup_insert_eq.
      by rewrite length_replicate.
    + rewrite bool_decide_eq_false_2 by done.
      rewrite list_lookup_insert_ne by done. by apply lookup_replicate_2.
Qed.
End optimizer_loop.
Section optimizer_examples.
Import GBP Euclid Scenario.

Lemma optimize_loop_validates_parameters_witness :
  _optimize_loop torch_inverse np_linalg_inv eps [prior 3] squared_error params
    [x0] 0 3 (l_info loop_start) (qz 0) (qz 0)
    (Some (mkSchedule true (replicate 3 [true; true]))) [] (fun _ => [])
  = Raise ValueError.
Proof.
  apply (optimize_loop_validates_parameters torch_inverse np_linalg_inv eps
           [prior 3] squared_error params [x0] 0 3 (l_info loop_start)
           (qz 0) (qz 0)
           (Some (mkSchedule true (replicate 3 [true; true]))) [] (fun _ => [])).
  do 4 right. eexists. split; [reflexivity|]. right. vm_compute. discriminate.
Defined.

Lemma optimize_impl_statuses_witness :
  ∃ info beliefs,
    _optimize_impl torch_inverse np_linalg_inv eps [prior 3] squared_error
      params [x0] false false (qz 0) (qz 0)
      (Some (mkSchedule true (replicate 3 [true]))) [] (fun _ => [])
    = Ok (info, beliefs)
    ∧ (START ∉ status info)
    ∧ (∀ k c, status info !! k = Some MAX_ITERATIONS ->
              converged_iter info !! k = Some c -> c = (-1)%Z).
Proof.
  assert (is_ok (_optimize_impl torch_inverse np_linalg_inv eps [prior 3]
                   squared_error params [x0] false false (qz 0) (qz 0)
                   (Some (mkSchedule true (replicate 3 [true]))) []
                   (fun _ => [])) = true) as Hok
    by (vm_compute; reflexivity).
  destruct (_optimize_impl torch_inverse np_linalg_inv eps [prior 3]
              squared_error params [x0] false false (qz 0) (qz 0)
              (Some (mkSchedule true (replicate 3 [true]))) [] (fun _ => []))
    as [[info beliefs]|e] eqn:Hrun; [|discriminate Hok].
  exists info, beliefs. split; [reflexivity|].
  exact (optimize_impl_statuses torch_inverse np_linalg_inv eps [prior 3]
           squared_error params [x0] false false (qz 0) (qz 0)
           (Some (mkSchedule true (replicate 3 [true]))) [] (fun _ => [])
           info beliefs Hrun).
Defined.

Lemma random_schedule_one_edge_witness :
  (length <$> random_schedule 2 [1; 0]) = replicate (length [1; 0]) 2
  ∧ ∃ row, random_schedule 2 [1; 0] !! 0 = Some row
           ∧ ∀ e, e < 2 -> row !! e = Some (bool_decide (e = 1)).
Proof.
  apply (random_schedule_one_edge 2 [1; 0] 0 1); [reflexivity|lia].
Defined.
End optimizer_examples.
(** ** The order of the cost functions *)

Section ordering.

Lemma default_order_loop_run items : ∀ cur_idx self,
  NoDup (od_keys items) ->
  (∀ name, name ∈ od_keys items -> CostFunctionOrdering._cf_name_to_index self !! name = None) ->
  ∃ self',
    CostFunctionOrdering.default_order_loop items cur_idx self = (Ok tt, self')
    ∧ CostFunctionOrdering._cf_order self' = CostFunctionOrdering._cf_order self ++ od_values items
    ∧ (∀ k name cf, items !! k = Some (name, cf) ->
                    CostFunctionOrdering._cf_name_to_index self' !! name = Some (cur_idx + k))
    ∧ (∀ name, name ∉ od_keys items ->
               CostFunctionOrdering._cf_name_to_index self' !! name = CostFunctionOrdering._cf_name_to_index self !! name).
Proof.
  unfold od_keys, od_values.
  induction items as [|[cf_name cf] items IH]; intros cur_idx self Hnd Hfresh.
  { exists self. simpl. rewrite app_nil_r. done. }
  simpl in Hnd. pose proof (NoDup_cons_1_1 _ _ Hnd) as Hname.
  apply NoDup_cons_1_2 in Hnd.
  cbn [CostFunctionOrdering.default_order_loop]. rewrite st_bind_run. cbn [get].
  rewrite bool_decide_eq_false_2.
  2:{ rewrite Hfresh; [by intros [? ?]|]. simpl. apply elem_of_cons. by left. }
  rewrite st_bind_run. cbn [modify].
  destruct (IH (S cur_idx)
              (CostFunctionOrdering.mk (CostFunctionOrdering._cf_order self ++ [cf])
                  (<[cf_name := cur_idx]> (CostFunctionOrdering._cf_name_to_index self))) Hnd)
    as (self' & Hrun & Horder & Hix & Hframe).
  { intros name Hin. cbn [CostFunctionOrdering._cf_name_to_index]. rewrite lookup_insert_ne.
    - apply Hfresh. simpl. apply elem_of_cons. by right.
    - intros ->. done. }
  exists self'. split; [done|]. cbn [CostFunctionOrdering._cf_order CostFunctionOrdering._cf_name_to_index] in *.
  split; [|split].
  - rewrite Horder. simpl. by rewrite <- app_assoc.
  - intros [|k] name cf' Hk; simpl in Hk.
    + injection Hk as <- <-. rewrite Hframe by done.
      rewrite lookup_insert_eq. f_equal. lia.
    + rewrite (Hix k name cf' Hk). f_equal. lia.
  - intros name Hnot. simpl in Hnot. apply not_elem_of_cons in Hnot as [Hne Hnot].
    rewrite Hframe by done. by rewrite lookup_insert_ne.
Qed.

(** X19. The default order of an objective whose registry of cost
    functions has no name twice is the registration order: the cost
    function registered at position [k] under [name] has
    [index_of name = k] and is the element [k] of the ordering. *)
Theorem default_order_round_trip objective :
  NoDup (od_keys (Objective.cost_functions objective)) ->
  ∃ ordering,
    CostFunctionOrdering.init objective true = Ok ordering
    ∧ CostFunctionOrdering._cf_order ordering = od_values (Objective.cost_functions objective)
    ∧ ∀ k name cf,
        Objective.cost_functions objective !! k = Some (name, cf) ->
        CostFunctionOrdering.index_of name ordering = Ok k
        ∧ CostFunctionOrdering.getitem (Z.of_nat k) ordering = Ok cf.
Proof.
  intros Hnd.
  destruct (default_order_loop_run (Objective.cost_functions objective) 0
              (CostFunctionOrdering.mk [] ∅) Hnd) as (ordering & Hrun & Horder & Hix & _).
  { intros name _. apply lookup_empty. }
  exists ordering. unfold CostFunctionOrdering.init, CostFunctionOrdering._compute_default_order.
  rewrite st_bind_run. cbn [get CostFunctionOrdering._cf_order CostFunctionOrdering._cf_name_to_index].
  rewrite bool_decide_eq_true_2 by done. rewrite Hrun. simpl in Horder.
  split; [done|]. split; [done|].
  intros k name cf Hk. split.
  - unfold CostFunctionOrdering.index_of. by rewrite (Hix k name cf Hk).
  - unfold CostFunctionOrdering.getitem. rewrite Horder. unfold od_values.
    assert (k < length (Objective.cost_functions objective))
      by by eapply lookup_lt_Some.
    rewrite length_fmap.
    repeat match goal with
           | |- context [(?a <? ?b)%Z] => destruct (Z.ltb_spec a b); try lia
           | |- context [(?a <=? ?b)%Z] => destruct (Z.leb_spec a b); try lia
           end.
    simpl. rewrite Nat2Z.id, list_lookup_fmap, Hk. done.
Qed.

Lemma append_run objective cf self :
  CostFunctionOrdering.append objective cf self =
    if existsb (CostFn.same cf) (CostFunctionOrdering._cf_order self)
       || negb (od_mem (Fn.name cf) (Objective.cost_functions objective))
    then (Raise ValueError, self)
    else (Ok tt,
          CostFunctionOrdering.mk (CostFunctionOrdering._cf_order self ++ [cf])
             (<[Fn.name cf := length (CostFunctionOrdering._cf_order self)]> (CostFunctionOrdering._cf_name_to_index self))).
Proof.
  unfold CostFunctionOrdering.append. rewrite st_bind_run. cbn [get].
  destruct (existsb _ _); [done|].
  destruct (negb _); [done|]. simpl.
  rewrite st_bind_run. unfold modify.
  cbn [CostFunctionOrdering._cf_order CostFunctionOrdering._cf_name_to_index].
  rewrite length_app. simpl. do 3 f_equal. lia.
Qed.

(** X20. [append] raises [ValueError] and leaves the ordering as it is
    when the cost function is already in the order or its name is not
    registered in the objective. *)
Theorem append_rejects objective cf self :
  existsb (CostFn.same cf) (CostFunctionOrdering._cf_order self) = true
  ∨ od_mem (Fn.name cf) (Objective.cost_functions objective) = false ->
  CostFunctionOrdering.append objective cf self = (Raise ValueError, self).
Proof.
  intros Hbad. rewrite append_run.
  destruct Hbad as [->| ->]; [done|]. by rewrite orb_true_r.
Qed.

(** X21. When [append] returns, the cost function is the last element
    of the ordering and [index_of] of its name is its position; the
    elements before it and the indices of the other names are as
    before. *)
Theorem append_then_lookup objective cf self self' :
  CostFunctionOrdering.append objective cf self = (Ok tt, self') ->
  CostFunctionOrdering.index_of (Fn.name cf) self' = Ok (length (CostFunctionOrdering._cf_order self))
  ∧ CostFunctionOrdering.getitem (Z.of_nat (length (CostFunctionOrdering._cf_order self))) self' = Ok cf
  ∧ CostFunctionOrdering.getitem (-1) self' = Ok cf
  ∧ (∀ k, k < length (CostFunctionOrdering._cf_order self) ->
          CostFunctionOrdering._cf_order self' !! k = CostFunctionOrdering._cf_order self !! k)
  ∧ (∀ key, key ≠ Fn.name cf -> CostFunctionOrdering.index_of key self' = CostFunctionOrdering.index_of key self).
Proof.
  rewrite append_run. destruct (_ || _); [done|]. intros [= <-].
  unfold CostFunctionOrdering.index_of, CostFunctionOrdering.getitem. cbn [CostFunctionOrdering._cf_order CostFunctionOrdering._cf_name_to_index].
  rewrite lookup_insert_eq, length_app. simpl.
  set (n := length (CostFunctionOrdering._cf_order self)).
  repeat match goal with
         | |- context [(?a <? ?b)%Z] => destruct (Z.ltb_spec a b); try lia
         | |- context [(?a <=? ?b)%Z] => destruct (Z.leb_spec a b); try lia
         end.
  replace (Z.to_nat (-1 + Z.of_nat (n + 1))) with n by lia.
  simpl. rewrite Nat2Z.id.
  rewrite lookup_app_r by (unfold n; lia). rewrite Nat.sub_diag. simpl.
  repeat split.
  - intros k Hk. by rewrite lookup_app_l.
  - intros key Hne. by rewrite lookup_insert_ne.
Qed.

End ordering.

Section ordering_examples.
Import Objective Scenario.

Lemma default_order_round_trip_witness :
  ∃ ordering,
    CostFunctionOrdering.init (self (add f empty).2) true = Ok ordering
    ∧ CostFunctionOrdering._cf_order ordering
      = od_values (cost_functions (self (add f empty).2))
    ∧ ∀ k name cf,
        cost_functions (self (add f empty).2) !! k = Some (name, cf) ->
        CostFunctionOrdering.index_of name ordering = Ok k
        ∧ CostFunctionOrdering.getitem (Z.of_nat k) ordering = Ok cf.
Proof.
  apply (default_order_round_trip (self (add f empty).2)).
  simpl. apply NoDup_cons_2; [apply not_elem_of_nil|apply NoDup_nil_2].
Defined.

Lemma append_rejects_witness :
  CostFunctionOrdering.append (self empty) f (CostFunctionOrdering.mk [] ∅)
  = (Raise ValueError, CostFunctionOrdering.mk [] ∅).
Proof.
  apply (append_rejects (self empty) f (CostFunctionOrdering.mk [] ∅)).
  right. reflexivity.
Defined.

Lemma append_then_lookup_witness :
  let self' :=
    (CostFunctionOrdering.append (self (add f empty).2) f
       (CostFunctionOrdering.mk [] ∅)).2 in
  CostFunctionOrdering.index_of (Fn.name f) self' = Ok 0
  ∧ CostFunctionOrdering.getitem 0 self' = Ok f
  ∧ CostFunctionOrdering.getitem (-1) self' = Ok f
  ∧ (∀ k, k < 0 -> CostFunctionOrdering._cf_order self' !! k = [] !! k)
  ∧ (∀ key, key ≠ Fn.name f ->
            CostFunctionOrdering.index_of key self'
            = CostFunctionOrdering.index_of key (CostFunctionOrdering.mk [] ∅)).
Proof.
  intros self'.
  apply (append_then_lookup (self (add f empty).2) f
           (CostFunctionOrdering.mk [] ∅) self').
  reflexivity.
Defined.

End ordering_examples.

